(** * ProTasker (src/pro-tasker.jsx): board mutations, markdown renderer, import/export

    A shallow embedding of the pure cores of the React component [App]:
    the functional updates handed to [setData] by [createProject], [addCard],
    [moveCard] and [updateCard], the regex pipeline of [renderMarkdown], and
    the decision taken by [importJSON] on the text read from a file. *)

From Stdlib Require Import ZArith NArith Ascii String Decimal DecimalFacts DecimalZ.
From stdpp Require Import base decidable option list gmap fin_maps countable.

Local Open Scope Z_scope.
Set Warnings "-register-all".

(** ** JavaScript strings and values *)

(** A JavaScript string is a sequence of UTF-16 code units. *)
Abbreviation jsstring := (list N).

(** [u "abc"] is the JavaScript string literal ["abc"] (ASCII only). *)
Definition u (s : string) : jsstring :=
  List.map N_of_ascii (list_ascii_of_string s).

(** The values that the application stores: the JSON fragment of JavaScript.
    Numbers are restricted to integers ([Date.now()], priorities). *)
Inductive jsval : Type :=
  | JNull
  | JBool (b : bool)
  | JNum (n : Z)
  | JStr (s : jsstring)
  | JArr (l : list jsval)
  | JObj (o : list (jsstring * jsval)).

(** The values of the fields of a card: null, booleans, numbers, strings. *)
Inductive jsprim : Type :=
  | VNull
  | VBool (b : bool)
  | VNum (n : Z)
  | VStr (s : jsstring).

(** A plain object used as a record with dynamic fields (a card, a patch). *)
Abbreviation jsobj := (gmap jsstring jsprim).

(** Object spread [{ ...a, ...b }]: the fields of [b] win. *)
Definition spread (a b : jsobj) : jsobj := b ∪ a.

(** [{ ...x }] where [x] may be [undefined] (spreading [undefined] adds no
    property). *)
Definition spread_undef (x : option jsobj) : jsobj := default ∅ x.

(** ** Data model (the shape built by [sampleSeed]) *)

Record Column := mkColumn {
  col_id : jsstring;
  col_title : jsstring;
  cardIds : list jsstring
}.

Record Board := mkBoard {
  columns : list Column;
  cards : gmap jsstring jsobj
}.

Record Project := mkProject {
  proj_id : jsstring;
  proj_title : jsstring;
  description : jsstring;
  image : option jsstring;
  tags : list jsstring;
  board : Board
}.

Record User := mkUser {
  user_id : jsstring;
  user_name : jsstring;
  role : jsstring;
  avatarColor : jsstring
}.

Record Meta := mkMeta {
  createdAt : Z;
  meta_name : jsstring
}.

Record Workspace := mkWorkspace {
  meta : Meta;
  users : list User;
  projects : list Project
}.

(** ** Utilities *)

(** [uid(prefix)]: the prefix, an underscore and the random segment
    [Math.random().toString(36).slice(2, 9)], which is the argument [seg]. *)
Definition uid (prefix seg : jsstring) : jsstring := prefix ++ u "_" ++ seg.

(** The source of randomness: the segment produced by the [n]-th draw. *)
Definition oracle := nat -> jsstring.

(** ** Project operations *)

Definition canonical_columns : list Column :=
  [ mkColumn (u "todo") (u "To Do") [];
    mkColumn (u "inprogress") (u "In Progress") [];
    mkColumn (u "done") (u "Done") [] ].

Definition newProj (seg : jsstring) : Project :=
  mkProject (uid (u "proj") seg) (u "New Project")
            (u "Describe this project. Use markdown!")
            None [] (mkBoard canonical_columns ∅).

(** The update [(d) => ({ ...d, projects: [newProj, ...d.projects] })]. *)
Definition createProject (seg : jsstring) (d : Workspace) : Workspace :=
  mkWorkspace (meta d) (users d) (newProj seg :: projects d).

(** The update of [deleteProject], made once the user has confirmed. *)
Definition deleteProject (projectId : jsstring) (d : Workspace) : Workspace :=
  mkWorkspace (meta d) (users d)
    (filter (fun p => proj_id p <> projectId) (projects d)).

(** ** Board operations *)

(** [Array.prototype.map] whose callback draws from the oracle: the state is
    the index of the next draw. *)
Fixpoint map_draw {A B} (f : nat -> A -> B * nat) (n : nat) (l : list A)
  : list B * nat :=
  match l with
  | [] => ([], n)
  | x :: l' =>
      let '(y, n1) := f n x in
      let '(ys, n2) := map_draw f n1 l' in
      (y :: ys, n2)
  end.

Definition addCard_column (columnId cardId : jsstring) (col : Column) : Column :=
  if decide (col_id col = columnId)
  then mkColumn (col_id col) (col_title col) (cardId :: cardIds col)
  else col.

Definition addCard_board (columnId cardId : jsstring) (card : jsobj) (b : Board)
  : Board :=
  mkBoard (addCard_column columnId cardId <$> columns b)
          (<[cardId := spread {[ u "id" := VStr cardId ]} card]> (cards b)).

Definition with_board (p : Project) (b : Board) : Project :=
  mkProject (proj_id p) (proj_title p) (description p) (image p) (tags p) b.

Definition addCard_project (rand : oracle) (projectId columnId : jsstring)
    (card : jsobj) (n : nat) (p : Project) : Project * nat :=
  if decide (proj_id p <> projectId) then (p, n)
  else (with_board p (addCard_board columnId (uid (u "c") (rand n)) card (board p)),
        S n).

Definition addCard (rand : oracle) (projectId columnId : jsstring) (card : jsobj)
    (n : nat) (d : Workspace) : Workspace * nat :=
  let '(ps, n') := map_draw (addCard_project rand projectId columnId card) n
                            (projects d) in
  (mkWorkspace (meta d) (users d) ps, n').

(** [arr.splice(start, 0, x)] on a copy, for an integer [start]: the start
    index is taken relative to the end when negative and clamped to the
    bounds of the array. *)
Definition splice_start (start : Z) (len : nat) : nat :=
  if decide (start < 0)
  then Z.to_nat (Z.max (Z.of_nat len + start) 0)
  else Z.to_nat (Z.min start (Z.of_nat len)).

Definition splice_insert {A} (start : Z) (x : A) (l : list A) : list A :=
  let k := splice_start start (length l) in
  take k l ++ x :: drop k l.

Definition moveCard_column (fromColId toColId cardId : jsstring) (toIndex : Z)
    (col : Column) : Column :=
  if decide (col_id col = fromColId)
  then mkColumn (col_id col) (col_title col)
                (filter (fun id => id <> cardId) (cardIds col))
  else if decide (col_id col = toColId)
  then mkColumn (col_id col) (col_title col)
                (splice_insert toIndex cardId (cardIds col))
  else col.

Definition moveCard_board (fromColId toColId cardId : jsstring) (toIndex : Z)
    (b : Board) : Board :=
  mkBoard (moveCard_column fromColId toColId cardId toIndex <$> columns b)
          (cards b).

Definition moveCard_project (projectId fromColId toColId cardId : jsstring)
    (toIndex : Z) (p : Project) : Project :=
  if decide (proj_id p <> projectId) then p
  else with_board p (moveCard_board fromColId toColId cardId toIndex (board p)).

Definition moveCard (projectId fromColId toColId cardId : jsstring) (toIndex : Z)
    (d : Workspace) : Workspace :=
  mkWorkspace (meta d) (users d)
    (moveCard_project projectId fromColId toColId cardId toIndex <$> projects d).

Definition updateCard_board (cardId : jsstring) (patch : jsobj) (b : Board) : Board :=
  mkBoard (columns b)
          (<[cardId := spread (spread_undef (cards b !! cardId)) patch]> (cards b)).

Definition updateCard_project (projectId cardId : jsstring) (patch : jsobj)
    (p : Project) : Project :=
  if decide (proj_id p <> projectId) then p
  else with_board p (updateCard_board cardId patch (board p)).

Definition updateCard (projectId cardId : jsstring) (patch : jsobj) (d : Workspace)
  : Workspace :=
  mkWorkspace (meta d) (users d)
    (updateCard_project projectId cardId patch <$> projects d).

(** ** The board invariant of the data model *)

(** The columns of [cols] whose sequence contains [x]. *)
Definition columns_holding (x : jsstring) (cols : list Column) : list Column :=
  filter (fun c => x ∈ cardIds c) cols.

(** Every card id (key of [cards]) appears in exactly one column's sequence. *)
Definition cards_in_one_column (b : Board) : Prop :=
  map_Forall (fun x _ => length (columns_holding x (columns b)) = 1%nat) (cards b).

(** Every id of every column's sequence is a key of [cards]. *)
Definition column_ids_have_cards (b : Board) : Prop :=
  Forall (fun c => Forall (fun x => is_Some (cards b !! x)) (cardIds c)) (columns b).

Definition board_inv (b : Board) : Prop :=
  cards_in_one_column b /\ column_ids_have_cards b.

Definition ws_inv (d : Workspace) : Prop :=
  Forall (fun p => board_inv (board p)) (projects d).

#[global] Instance board_inv_dec b : Decision (board_inv b).
Proof. unfold board_inv, cards_in_one_column, column_ids_have_cards. apply _. Defined.

#[global] Instance ws_inv_dec d : Decision (ws_inv d).
Proof. unfold ws_inv. apply _. Defined.

(** ** The sample seed (the clock reading [Date.now()] is the argument) *)

Definition seed_card (id title body : string) (assignee : jsprim) (priority : Z) : jsobj :=
  list_to_map [ (u "id", VStr (u id)); (u "title", VStr (u title));
                (u "body", VStr (u body)); (u "assignee", assignee);
                (u "priority", VNum priority) ].

Definition seed_board : Board :=
  mkBoard
    [ mkColumn (u "todo") (u "To Do") [u "c1"; u "c2"];
      mkColumn (u "inprogress") (u "In Progress") [u "c3"];
      mkColumn (u "done") (u "Done") [] ]
    (list_to_map
      [ (u "c1", seed_card "c1" "Landing hero"
                   "Create a performant hero with LCP under 1.2s" (VStr (u "u_me")) 2);
        (u "c2", seed_card "c2" "Nav accessibility"
                   "Ensure keyboard nav and ARIA roles." VNull 1);
        (u "c3", seed_card "c3" "Mobile css fixes"
                   "Fix flexflow on small screens." (VStr (u "u_me")) 3) ]).

Definition sampleSeed (now : Z) : Workspace :=
  mkWorkspace
    (mkMeta now (u "TaskFlow " ++ [8212%N] ++ u " Demo Project"))
    [ mkUser (u "u_me") (u "You") (u "owner") (u "#4f46e5") ]
    [ mkProject (u "proj_1") (u "Website Redesign")
        (u "A modern responsive redesign for marketing site. Use components, accessibility, and performance improvements.")
        None [u "frontend"; u "react"; u "design"] seed_board ].

(** The columns of [cols] whose id is [k]. *)
Definition columns_named (k : jsstring) (cols : list Column) : list Column :=
  filter (fun c => col_id c = k) cols.


(** ** Sequences of board operations *)

Inductive op : Type :=
  | AddCard (projectId columnId : jsstring) (card : jsobj)
  | MoveCard (projectId fromColId toColId cardId : jsstring) (toIndex : Z).

(** The application state together with the index of the next random draw. *)
Definition step (rand : oracle) (st : Workspace * nat) (o : op) : Workspace * nat :=
  match o with
  | AddCard projectId columnId card => addCard rand projectId columnId card st.2 st.1
  | MoveCard projectId fromColId toColId cardId toIndex =>
      (moveCard projectId fromColId toColId cardId toIndex st.1, st.2)
  end.

(** The states reached after each operation of [ops], in order. *)
Fixpoint trace (rand : oracle) (st : Workspace * nat) (ops : list op)
  : list (Workspace * nat) :=
  match ops with
  | [] => []
  | o :: ops' => let st' := step rand st o in st' :: trace rand st' ops'
  end.

(** Arguments under which [addCard] and [moveCard] keep the invariant. *)
Definition addCard_ok (columnId cardId : jsstring) (b : Board) : Prop :=
  cards b !! cardId = None /\ length (columns_named columnId (columns b)) = 1%nat.

Definition moveCard_ok (fromColId toColId cardId : jsstring) (b : Board) : Prop :=
  fromColId <> toColId
  /\ is_Some (cards b !! cardId)
  /\ Forall (fun c => cardId ∈ cardIds c -> col_id c = fromColId) (columns b)
  /\ length (columns_named toColId (columns b)) = 1%nat.

Fixpoint addCard_pre (rand : oracle) (projectId columnId : jsstring) (n : nat)
    (ps : list Project) : Prop :=
  match ps with
  | [] => True
  | p :: ps' =>
      if decide (proj_id p <> projectId)
      then addCard_pre rand projectId columnId n ps'
      else addCard_ok columnId (uid (u "c") (rand n)) (board p)
           /\ addCard_pre rand projectId columnId (S n) ps'
  end.

Definition op_ok (rand : oracle) (st : Workspace * nat) (o : op) : Prop :=
  match o with
  | AddCard projectId columnId _ =>
      addCard_pre rand projectId columnId st.2 (projects st.1)
  | MoveCard projectId fromColId toColId cardId _ =>
      Forall (fun p => proj_id p = projectId ->
                       moveCard_ok fromColId toColId cardId (board p))
             (projects st.1)
  end.

Fixpoint ops_ok (rand : oracle) (st : Workspace * nat) (ops : list op) : Prop :=
  match ops with
  | [] => True
  | o :: ops' => op_ok rand st o /\ ops_ok rand (step rand st o) ops'
  end.

#[global] Instance addCard_pre_dec rand projectId columnId n ps :
  Decision (addCard_pre rand projectId columnId n ps).
Proof.
  revert n. induction ps as [|p ps IH]; intros n; simpl.
  - apply _.
  - destruct (decide (proj_id p <> projectId)); unfold addCard_ok; apply _.
Defined.

#[global] Instance op_ok_dec rand st o : Decision (op_ok rand st o).
Proof. destruct o; simpl; unfold moveCard_ok; apply _. Defined.

#[global] Instance ops_ok_dec rand st ops : Decision (ops_ok rand st ops).
Proof. revert st. induction ops as [|o ops IH]; intros st; simpl; apply _. Defined.

(** The number of draws made by [addCard] before it reaches position [i]. *)
Definition draws_before (projectId : jsstring) (ps : list Project) (i : nat) : nat :=
  length (filter (fun p => proj_id p = projectId) (take i ps)).


(** A fixed oracle and inputs for the examples. *)
Definition const_oracle : oracle := fun _ => u "k3x9q2a".

Definition title_only (t : string) : jsobj := {[ u "title" := VStr (u t) ]}.

(** ** The claims about the board operations, as the specification words them *)

(** After each operation of any sequence, the invariant holds. *)
Definition invariant_after_each_op (rand : oracle) (st : Workspace * nat)
    (ops : list op) : Prop :=
  Forall (fun st' => ws_inv st'.1) (trace rand st ops).

(** [updateCard] on an id that is not a key leaves [cards] as it was. *)
Definition updateCard_keeps_cards (projectId cardId : jsstring) (patch : jsobj)
    (d : Workspace) : Prop :=
  forall i p, projects d !! i = Some p -> proj_id p = projectId ->
    cards (board p) !! cardId = None ->
    exists p', projects (updateCard projectId cardId patch d) !! i = Some p'
               /\ cards (board p') = cards (board p).

(** ** Regular expressions (the fragment used by [renderMarkdown])

    The matcher follows the continuation semantics of the ECMAScript
    specification: a matcher takes a state and a continuation, and
    backtracking is the order in which alternatives are tried.  The flag [m]
    is built into [Bol] and [Eol]; the flag [i] changes nothing for the
    patterns below, which contain no letter. *)

Definition ch (c : ascii) : N := N_of_ascii c.

Inductive regex : Type :=
  | Chr (c : N)                       (* a literal character *)
  | Cls (p : N -> bool)               (* a character class or [.] *)
  | Seq (r1 r2 : regex)
  | Alt (r1 r2 : regex)
  | Star (greedy : bool) (r : regex)  (* [r*] or [r*?] *)
  | Grp (i : nat) (r : regex)         (* the capturing group number [i] *)
  | Bol                               (* [^] under the flag m *)
  | Eol.                              (* [$] under the flag m *)

(** [r+] *)
Definition Plus (r : regex) : regex := Seq r (Star true r).

(** A literal string (the empty one matches without consuming anything). *)
Fixpoint Str (s : jsstring) : regex :=
  match s with
  | [] => Star true (Cls (fun _ => false))
  | [c] => Chr c
  | c :: s' => Seq (Chr c) (Str s')
  end.

(** LineTerminator: LF, CR, LS, PS. *)
Definition is_line_terminator (c : N) : bool :=
  (c =? 10)%N || (c =? 13)%N || (c =? 8232)%N || (c =? 8233)%N.

(** [\s]: WhiteSpace and LineTerminator. *)
Definition is_space (c : N) : bool :=
  (c =? 9)%N || (c =? 10)%N || (c =? 11)%N || (c =? 12)%N || (c =? 13)%N
  || (c =? 32)%N || (c =? 160)%N || (c =? 5760)%N
  || ((8192 <=? c)%N && (c <=? 8202)%N)
  || (c =? 8232)%N || (c =? 8233)%N || (c =? 8239)%N || (c =? 8287)%N
  || (c =? 12288)%N || (c =? 65279)%N.

(** [.] *)
Definition Dot : regex := Cls (fun c => negb (is_line_terminator c)).
(** [[\s\S]] *)
Definition Any : regex := Cls (fun _ => true).
(** [\s] *)
Definition Space : regex := Cls is_space.
(** [[^c]] *)
Definition Not (c : ascii) : regex := Cls (fun x => negb (x =? ch c)%N).

(** The state of a match attempt: the number of characters consumed since
    the start of the attempt, the character before the current position, the
    characters ahead, and the spans captured so far (offsets from the start
    of the attempt). *)
Record mstate := mkState {
  pos : nat;
  prev : option N;
  rest : list N;
  caps : list (nat * (nat * nat))
}.

Definition advance (x : mstate) (c : N) (t : list N) : mstate :=
  mkState (S (pos x)) (Some c) t (caps x).

Definition set_cap (i : nat) (b e : nat) (x : mstate) : mstate :=
  mkState (pos x) (prev x) (rest x) ((i, (b, e)) :: caps x).

(** A position is at the start of a line when it is the start of the
    input or follows a line terminator. *)
Definition line_start (before : option N) : bool :=
  match before with
  | None => true
  | Some c => is_line_terminator c
  end.

Definition at_line_start (x : mstate) : bool := line_start (prev x).

Definition at_line_end (x : mstate) : bool :=
  match rest x with
  | [] => true
  | c :: _ => is_line_terminator c
  end.

Definition or_else {T} (a b : option T) : option T :=
  match a with
  | Some z => Some z
  | None => b
  end.

(** The loop of a quantifier: an iteration that consumes nothing is
    rejected, so the characters ahead bound the number of iterations. *)
Fixpoint star_loop (greedy : bool)
    (body : mstate -> (mstate -> option mstate) -> option mstate)
    (n : nat) (x : mstate) (k : mstate -> option mstate) : option mstate :=
  match n with
  | O => k x
  | S n' =>
      let again :=
        body x (fun y => if (pos y =? pos x)%nat then None
                         else star_loop greedy body n' y k) in
      if greedy then or_else again (k x) else or_else (k x) again
  end.

Fixpoint matcher (r : regex) (x : mstate) (k : mstate -> option mstate)
  : option mstate :=
  match r with
  | Chr c =>
      match rest x with
      | h :: t => if (h =? c)%N then k (advance x h t) else None
      | [] => None
      end
  | Cls p =>
      match rest x with
      | h :: t => if p h then k (advance x h t) else None
      | [] => None
      end
  | Seq r1 r2 => matcher r1 x (fun y => matcher r2 y k)
  | Alt r1 r2 => or_else (matcher r1 x k) (matcher r2 x k)
  | Star greedy r1 => star_loop greedy (matcher r1) (length (rest x)) x k
  | Grp i r1 => matcher r1 x (fun y => k (set_cap i (pos x) (pos y) y))
  | Bol => if at_line_start x then k x else None
  | Eol => if at_line_end x then k x else None
  end.

(** One attempt at a given position: [before] is the character before it
    and [s] the characters from it on. *)
Definition match_at (r : regex) (before : option N) (s : list N) : option mstate :=
  matcher r (mkState 0 before s []) Some.

(** ** [String.prototype.replace] with a global regular expression *)

(** A replacement: literal text and references [$i] to captured groups. *)
Inductive titem : Type :=
  | TLit (s : jsstring)
  | TCap (i : nat).

Fixpoint cap_lookup (i : nat) (l : list (nat * (nat * nat))) : option (nat * nat) :=
  match l with
  | [] => None
  | (j, span) :: l' => if (i =? j)%nat then Some span else cap_lookup i l'
  end.

Section Replace.
(** The characters are of a type [A] that carries a code unit, so that the
    same definitions run on plain strings ([A] is [N]) and on strings whose
    characters are marked with their origin. *)
Context {A : Type} (code : A -> N) (lit : N -> A).

Definition substitute_item (x : mstate) (s : list A) (t : titem) : list A :=
  match t with
  | TLit l => lit <$> l
  | TCap i =>
      match cap_lookup i (caps x) with
      | Some (b, e) => take (e - b) (drop b s)
      | None => []
      end
  end.

(** The replacement text for a match [x] that starts at the head of [s]. *)
Definition substitute (tmpl : list titem) (x : mstate) (s : list A) : list A :=
  t ← tmpl; substitute_item x s t.

(** The scan of a global replace.  [skip] counts the characters still
    covered by the last match; after an empty match the scan moves one
    character ahead. *)
Fixpoint scan (r : regex) (tmpl : list titem) (skip : nat) (before : option N)
    (s : list A) : list A :=
  match s with
  | [] =>
      match skip with
      | O => match match_at r before [] with
             | Some x => substitute tmpl x []
             | None => []
             end
      | S _ => []
      end
  | c :: s' =>
      match skip with
      | S j => scan r tmpl j (Some (code c)) s'
      | O =>
          match match_at r before (code <$> s) with
          | Some x =>
              substitute tmpl x s
              ++ (if (pos x =? 0)%nat then c :: scan r tmpl 0 (Some (code c)) s'
                  else scan r tmpl (pos x - 1) (Some (code c)) s')
          | None => c :: scan r tmpl 0 (Some (code c)) s'
          end
      end
  end.

(** [s.replace(/r/g, tmpl)] *)
Definition replace_all (r : regex) (tmpl : list titem) (s : list A) : list A :=
  scan r tmpl 0 None s.

(** ** The markdown renderer *)

Definition escapeHtml (s : list A) : list A :=
  replace_all (Chr (ch ">")) [TLit (u "&gt;")]
    (replace_all (Chr (ch "<")) [TLit (u "&lt;")]
      (replace_all (Chr (ch "&")) [TLit (u "&amp;")] s)).

Definition nl : jsstring := [10%N].
(** The double quote. *)
Definition dq : jsstring := [34%N].

(** [<name class="cls">] *)
Definition open_tag (name cls : string) : jsstring :=
  u "<" ++ u name ++ u " class=" ++ dq ++ u cls ++ dq ++ u ">".

Definition re_fence : regex :=
  Seq (Str (u "```")) (Seq (Grp 1 (Star false Any)) (Str (u "```"))).
Definition re_inline_code : regex :=
  Seq (Chr (ch "`")) (Seq (Grp 1 (Plus (Not "`"))) (Chr (ch "`"))).
Definition re_heading (hashes : string) : regex :=
  Seq Bol (Seq (Str (u hashes ++ u " ")) (Grp 1 (Seq (Star true Dot) Eol))).
Definition re_bold : regex :=
  Seq (Str (u "**")) (Seq (Grp 1 (Star false Dot)) (Str (u "**"))).
Definition re_italic : regex :=
  Seq (Chr (ch "*")) (Seq (Grp 1 (Star false Dot)) (Chr (ch "*"))).
Definition re_link : regex :=
  Seq (Chr (ch "["))
    (Seq (Grp 1 (Plus (Not "]")))
      (Seq (Str (u "]("))
        (Seq (Grp 2 (Plus (Not ")"))) (Chr (ch ")"))))).
Definition re_list : regex :=
  Seq (Grp 1 (Alt Bol (Chr 10)))
    (Seq (Star true Space)
      (Seq (Chr (ch "-")) (Seq (Plus Space) (Grp 2 (Star true Dot))))).
Definition re_paragraph : regex := Seq (Chr 10) (Plus (Chr 10)).

Definition code_blocks (text : list A) : list A :=
  replace_all re_fence
    [ TLit (nl ++ open_tag "pre" "rounded p-2 bg-gray-900 text-white text-sm overflow-auto"
               ++ u "<code>");
      TCap 1; TLit (u "</code></pre>" ++ nl) ] text.

Definition inline_code (text : list A) : list A :=
  replace_all re_inline_code
    [ TLit (open_tag "code" "rounded bg-gray-200 px-1"); TCap 1; TLit (u "</code>") ] text.

Definition heading (hashes name cls : string) (text : list A) : list A :=
  replace_all (re_heading hashes)
    [ TLit (open_tag name cls); TCap 1; TLit (u "</" ++ u name ++ u ">") ] text.

Definition headings (text : list A) : list A :=
  heading "#" "h1" "text-2xl font-extrabold"
    (heading "##" "h2" "text-xl font-bold"
      (heading "###" "h3" "text-lg font-semibold" text)).

Definition bold_italic (text : list A) : list A :=
  replace_all re_italic [ TLit (u "<em>"); TCap 1; TLit (u "</em>") ]
    (replace_all re_bold [ TLit (u "<strong>"); TCap 1; TLit (u "</strong>") ] text).

Definition links (text : list A) : list A :=
  replace_all re_link
    [ TLit (u "<a href=" ++ dq); TCap 2;
      TLit (dq ++ u " target=" ++ dq ++ u "_blank" ++ dq ++ u " rel=" ++ dq
              ++ u "noreferrer" ++ dq ++ u " class=" ++ dq ++ u "underline" ++ dq ++ u ">");
      TCap 1; TLit (u "</a>") ] text.

Definition lists (text : list A) : list A :=
  replace_all re_list
    [ TCap 1; TLit (u "<ul><li>"); TCap 2; TLit (u "</li></ul>") ] text.

Definition paragraphs (text : list A) : list A :=
  replace_all re_paragraph [ TLit (u "</p><p>") ] text.

(** The substitutions that follow the escaping, in the order of the source. *)
Definition markup (text : list A) : list A :=
  paragraphs (lists (links (bold_italic (headings (inline_code (code_blocks text)))))).

Definition wrap (text : list A) : list A :=
  (lit <$> (open_tag "div" "prose max-w-none" ++ u "<p>")) ++ text
  ++ (lit <$> u "</p></div>").

Definition renderMarkdown_on (md : list A) : list A :=
  match md with
  | [] => []
  | _ => wrap (markup (escapeHtml md))
  end.
End Replace.

(** [renderMarkdown] on JavaScript strings. *)
Definition renderMarkdown (md : jsstring) : jsstring := renderMarkdown_on id id md.

(** The origin of a character of the output: copied from the text given to
    the renderer, or written by the renderer. *)
Inductive origin : Type := Source | Generated.

Definition from_source (md : jsstring) : list (N * origin) :=
  (fun c => (c, Source)) <$> md.

(** A character that is [<] or [>] was written by the renderer. *)
Definition angle_is_generated (a : N * origin) : Prop :=
  a.1 = ch "<" \/ a.1 = ch ">" -> a.2 = Generated.

(** [renderMarkdown] on characters marked with their origin. *)
Definition renderMarkdown_marked (md : jsstring) : list (N * origin) :=
  renderMarkdown_on fst (fun c => (c, Generated)) (from_source md).

(** Printable rendering of a JavaScript string made of Latin-1 code units. *)
Definition show (s : jsstring) : string :=
  string_of_list_ascii (List.map ascii_of_N s).

(** [needle] occurs in [s] as a contiguous substring. *)
Definition includes (s needle : jsstring) : Prop :=
  exists a b, s = a ++ needle ++ b.

Fixpoint starts_with (needle s : jsstring) : bool :=
  match needle, s with
  | [], _ => true
  | c :: needle', d :: s' => (c =? d)%N && starts_with needle' s'
  | _ :: _, [] => false
  end.

(** [s.includes(needle)] *)
Fixpoint includesb (s needle : jsstring) : bool :=
  starts_with needle s
  || match s with
     | [] => false
     | _ :: s' => includesb s' needle
     end.

(** The state after the characters [l] have been consumed from [x], with
    [t] left ahead. *)
Definition consume (l : list N) (x : mstate) (t : list N) : mstate :=
  mkState (pos x + length l)
          (match list.last l with Some c => Some c | None => prev x end)
          t (caps x).

(** ** Lines *)

(** The text cut at its line terminators: the first line, then every
    terminator with the line that follows it. *)
Fixpoint split_lines (s : jsstring) : jsstring * list (N * jsstring) :=
  match s with
  | [] => ([], [])
  | c :: s' =>
      let '(l, ls) := split_lines s' in
      if is_line_terminator c then ([], (c, l) :: ls) else (c :: l, ls)
  end.

(** The text made of the lines [p], each line rewritten by [f]. *)
Definition join_lines (f : jsstring -> jsstring) (p : jsstring * list (N * jsstring))
  : jsstring :=
  f p.1 ++ (tl ← p.2; tl.1 :: f tl.2).

Definition heading_element (name cls : string) (body : jsstring) : jsstring :=
  open_tag name cls ++ body ++ u "</" ++ u name ++ u ">".

(** What the three heading substitutions make of one line. *)
Definition heading_line (l : jsstring) : jsstring :=
  if starts_with (u "### ") l
  then heading_element "h3" "text-lg font-semibold" (drop 4 l)
  else if starts_with (u "## ") l
  then heading_element "h2" "text-xl font-bold" (drop 3 l)
  else if starts_with (u "# ") l
  then heading_element "h1" "text-2xl font-extrabold" (drop 2 l)
  else l.

Definition no_terminator (l : jsstring) : Prop :=
  Forall (fun c => is_line_terminator c = false) l.

(** [t] is empty or starts with a line terminator. *)
Definition line_ends (t : jsstring) : Prop :=
  match t with
  | [] => True
  | c :: _ => is_line_terminator c = true
  end.

(** The lines [ls] that follow a first line, as text. *)
Definition following (ls : list (N * jsstring)) : jsstring :=
  tl ← ls; tl.1 :: tl.2.

Definition lines_wf (ls : list (N * jsstring)) : Prop :=
  Forall (fun tl => is_line_terminator tl.1 = true /\ no_terminator tl.2) ls.

(** One substitution of a heading on one line. *)
Definition heading_pass (hashes name cls : string) (l : jsstring) : jsstring :=
  if starts_with (u hashes ++ u " ") l
  then heading_element name cls (drop (length (u hashes ++ u " ")) l)
  else l.

(** A line is rewritten by [f] when it starts with [hs]. *)
Definition pass_line (hs : jsstring) (f : jsstring -> jsstring) (l : jsstring)
  : jsstring :=
  if starts_with hs l then f l else l.

(** The character before the position that follows [l]. *)
Definition after (before : option N) (l : jsstring) : option N :=
  match list.last l with
  | Some c => Some c
  | None => before
  end.

(** ** JSON text: strings *)

Definition hex_digit (d : N) : N := if (d <? 10)%N then (48 + d)%N else (87 + d)%N.

(** The four lowercase hexadecimal digits of a code unit. *)
Definition hex4 (c : N) : jsstring :=
  [ hex_digit (c / 4096 mod 16); hex_digit (c / 256 mod 16);
    hex_digit (c / 16 mod 16); hex_digit (c mod 16) ]%N.

Definition unhex (c : N) : option N :=
  if (48 <=? c)%N && (c <=? 57)%N then Some (c - 48)%N
  else if (97 <=? c)%N && (c <=? 102)%N then Some (c - 87)%N
  else if (65 <=? c)%N && (c <=? 70)%N then Some (c - 55)%N
  else None.

Definition unhex4 (h1 h2 h3 h4 : N) : option N :=
  match unhex h1, unhex h2, unhex h3, unhex h4 with
  | Some a, Some b, Some c, Some d => Some (((a * 16 + b) * 16 + c) * 16 + d)%N
  | _, _, _, _ => None
  end.

(** Leading and trailing surrogates. *)
Definition is_high (c : N) : bool := (55296 <=? c)%N && (c <=? 56319)%N.
Definition is_low (c : N) : bool := (56320 <=? c)%N && (c <=? 57343)%N.

Definition backslash : N := 92.

(** QuoteJSONString on one code point that is not a surrogate pair. *)
Definition quote_char (c : N) : jsstring :=
  if (c =? 8)%N then [backslash; ch "b"]
  else if (c =? 9)%N then [backslash; ch "t"]
  else if (c =? 10)%N then [backslash; ch "n"]
  else if (c =? 12)%N then [backslash; ch "f"]
  else if (c =? 13)%N then [backslash; ch "r"]
  else if (c =? 34)%N then [backslash; 34%N]
  else if (c =? backslash)%N then [backslash; backslash]
  else if (c <? 32)%N || is_high c || is_low c then backslash :: ch "u" :: hex4 c
  else [c].

(** A leading surrogate followed by a trailing one is a code point of its
    own and is copied. *)
Fixpoint quote_chars (s : jsstring) : jsstring :=
  match s with
  | [] => []
  | c :: s' =>
      if is_high c then
        match s' with
        | d :: s'' =>
            if is_low d then c :: d :: quote_chars s''
            else quote_char c ++ quote_chars s'
        | [] => quote_char c
        end
      else quote_char c ++ quote_chars s'
  end.

Definition quote (s : jsstring) : jsstring := 34%N :: quote_chars s ++ [34%N].

Definition unescape (e : N) : option N :=
  if (e =? 34)%N then Some 34%N
  else if (e =? backslash)%N then Some backslash
  else if (e =? ch "/")%N then Some (ch "/")
  else if (e =? ch "b")%N then Some 8%N
  else if (e =? ch "f")%N then Some 12%N
  else if (e =? ch "n")%N then Some 10%N
  else if (e =? ch "r")%N then Some 13%N
  else if (e =? ch "t")%N then Some 9%N
  else None.

Definition prepend (c : N) (r : option (jsstring * jsstring))
  : option (jsstring * jsstring) :=
  match r with
  | Some (s, t) => Some (c :: s, t)
  | None => None
  end.

(** The characters of a JSON string after its opening quote: the string
    and the text after the closing quote. *)
Fixpoint unquote_chars (s : jsstring) : option (jsstring * jsstring) :=
  match s with
  | [] => None
  | c :: r =>
      if (c =? 34)%N then Some ([], r)
      else if (c =? backslash)%N then
        match r with
        | [] => None
        | e :: r1 =>
            if (e =? ch "u")%N then
              match r1 with
              | h1 :: h2 :: h3 :: h4 :: r2 =>
                  match unhex4 h1 h2 h3 h4 with
                  | Some v => prepend v (unquote_chars r2)
                  | None => None
                  end
              | _ => None
              end
            else
              match unescape e with
              | Some v => prepend v (unquote_chars r1)
              | None => None
              end
        end
      else if (c <? 32)%N then None
      else prepend c (unquote_chars r)
  end.

(** ** JSON text: integers *)

Fixpoint digits (d : Decimal.uint) : jsstring :=
  match d with
  | Decimal.Nil => []
  | Decimal.D0 d' => 48%N :: digits d'
  | Decimal.D1 d' => 49%N :: digits d'
  | Decimal.D2 d' => 50%N :: digits d'
  | Decimal.D3 d' => 51%N :: digits d'
  | Decimal.D4 d' => 52%N :: digits d'
  | Decimal.D5 d' => 53%N :: digits d'
  | Decimal.D6 d' => 54%N :: digits d'
  | Decimal.D7 d' => 55%N :: digits d'
  | Decimal.D8 d' => 56%N :: digits d'
  | Decimal.D9 d' => 57%N :: digits d'
  end.

Definition is_digit (c : N) : bool := (48 <=? c)%N && (c <=? 57)%N.

Definition digit_cons (c : N) (d : Decimal.uint) : Decimal.uint :=
  if (c =? 48)%N then Decimal.D0 d
  else if (c =? 49)%N then Decimal.D1 d
  else if (c =? 50)%N then Decimal.D2 d
  else if (c =? 51)%N then Decimal.D3 d
  else if (c =? 52)%N then Decimal.D4 d
  else if (c =? 53)%N then Decimal.D5 d
  else if (c =? 54)%N then Decimal.D6 d
  else if (c =? 55)%N then Decimal.D7 d
  else if (c =? 56)%N then Decimal.D8 d
  else Decimal.D9 d.

(** The longest run of digits at the head of the text. *)
Fixpoint read_digits (s : jsstring) : Decimal.uint * jsstring :=
  match s with
  | c :: s' =>
      if is_digit c
      then let '(d, r) := read_digits s' in (digit_cons c d, r)
      else (Decimal.Nil, s)
  | [] => (Decimal.Nil, [])
  end.

(** A number as [JSON.stringify] writes it (integers below 10^21 in
    absolute value are written in plain decimal notation). *)
Definition stringify_number (n : Z) : jsstring :=
  match Z.to_int n with
  | Decimal.Pos d => digits d
  | Decimal.Neg d => ch "-" :: digits d
  end.

(** The digits must be "0" or start with a digit that is not 0; numbers
    with a fraction or an exponent are outside the fragment modelled. *)
Definition parse_digits (negative : bool) (s : jsstring) : option (Z * jsstring) :=
  let '(d, r) := read_digits s in
  if Decimal.uint_eq_dec (Decimal.unorm d) d then
    match r with
    | c :: _ =>
        if (c =? ch ".")%N || (c =? ch "e")%N || (c =? ch "E")%N then None
        else Some (Z.of_int (if negative then Decimal.Neg d else Decimal.Pos d), r)
    | [] => Some (Z.of_int (if negative then Decimal.Neg d else Decimal.Pos d), r)
    end
  else None.

Definition parse_number (s : jsstring) : option (Z * jsstring) :=
  match s with
  | c :: r => if (c =? ch "-")%N then parse_digits true r else parse_digits false s
  | [] => None
  end.

(** The text after a number: not a digit, and nothing that would continue
    the number with a fraction or an exponent. *)
Definition ends_number (rest : jsstring) : Prop :=
  match rest with
  | [] => True
  | c :: _ => is_digit c = false
              /\ ((c =? ch ".")%N || (c =? ch "e")%N || (c =? ch "E")%N) = false
  end.

(** ** JSON text: values *)

Definition is_json_ws (c : N) : bool :=
  (c =? 32)%N || (c =? 9)%N || (c =? 10)%N || (c =? 13)%N.

Fixpoint skip_ws (s : jsstring) : jsstring :=
  match s with
  | c :: s' => if is_json_ws c then skip_ws s' else s
  | [] => []
  end.

(** The indentation of the level [n]. *)
Definition pad (n : nat) : jsstring := replicate n 32%N.

(** [",\n"] and the indentation between two elements or members. *)
Definition separator (ind : nat) : jsstring := ch "," :: nl ++ pad ind.

(** [JSON.stringify(v, null, 2)], at the indentation [ind]. *)
Fixpoint stringify (ind : nat) (v : jsval) : jsstring :=
  match v with
  | JNull => u "null"
  | JBool true => u "true"
  | JBool false => u "false"
  | JNum n => stringify_number n
  | JStr s => quote s
  | JArr [] => u "[]"
  | JArr l =>
      u "[" ++ nl ++ pad (ind + 2)
      ++ (fix elems (l : list jsval) : jsstring :=
            match l with
            | [] => []
            | [x] => stringify (ind + 2) x
            | x :: l' => stringify (ind + 2) x ++ separator (ind + 2) ++ elems l'
            end) l
      ++ nl ++ pad ind ++ u "]"
  | JObj [] => u "{}"
  | JObj o =>
      u "{" ++ nl ++ pad (ind + 2)
      ++ (fix members (o : list (jsstring * jsval)) : jsstring :=
            match o with
            | [] => []
            | [(k, x)] => quote k ++ u ": " ++ stringify (ind + 2) x
            | (k, x) :: o' =>
                quote k ++ u ": " ++ stringify (ind + 2) x
                ++ separator (ind + 2) ++ members o'
            end) o
      ++ nl ++ pad ind ++ u "}"
  end.

(** Setting a property: an existing key keeps its place. *)
Fixpoint obj_set (k : jsstring) (v : jsval) (o : list (jsstring * jsval))
  : list (jsstring * jsval) :=
  match o with
  | [] => [(k, v)]
  | (k', v') :: o' => if decide (k' = k) then (k, v) :: o' else (k', v') :: obj_set k v o'
  end.

(** The object built from the members of a JSON text, in order. *)
Definition obj_of_members (ms : list (jsstring * jsval)) : list (jsstring * jsval) :=
  fold_left (fun o kv => obj_set kv.1 kv.2 o) ms [].

(** A recursive-descent reading of the JSON grammar.  [fuel] bounds the
    depth of the calls. *)
Fixpoint parse_value (fuel : nat) (s : jsstring) : option (jsval * jsstring) :=
  match fuel with
  | O => None
  | S f =>
      match skip_ws s with
      | [] => None
      | c :: r =>
          if (c =? 34)%N then
            match unquote_chars r with
            | Some (str, r') => Some (JStr str, r')
            | None => None
            end
          else if (c =? ch "[")%N then
            match skip_ws r with
            | d :: r' =>
                if (d =? ch "]")%N then Some (JArr [], r')
                else match parse_elems f r with
                     | Some (l, r'') => Some (JArr l, r'')
                     | None => None
                     end
            | [] => None
            end
          else if (c =? ch "{")%N then
            match skip_ws r with
            | d :: r' =>
                if (d =? ch "}")%N then Some (JObj [], r')
                else match parse_members f r with
                     | Some (ms, r'') => Some (JObj (obj_of_members ms), r'')
                     | None => None
                     end
            | [] => None
            end
          else if starts_with (u "null") (c :: r) then Some (JNull, drop 4 (c :: r))
          else if starts_with (u "true") (c :: r) then Some (JBool true, drop 4 (c :: r))
          else if starts_with (u "false") (c :: r) then Some (JBool false, drop 5 (c :: r))
          else match parse_number (c :: r) with
               | Some (n, r') => Some (JNum n, r')
               | None => None
               end
      end
  end
with parse_elems (fuel : nat) (s : jsstring) : option (list jsval * jsstring) :=
  match fuel with
  | O => None
  | S f =>
      match parse_value f s with
      | Some (v, r) =>
          match skip_ws r with
          | c :: r' =>
              if (c =? ch ",")%N then
                match parse_elems f r' with
                | Some (l, r'') => Some (v :: l, r'')
                | None => None
                end
              else if (c =? ch "]")%N then Some ([v], r')
              else None
          | [] => None
          end
      | None => None
      end
  end
with parse_members (fuel : nat) (s : jsstring)
  : option (list (jsstring * jsval) * jsstring) :=
  match fuel with
  | O => None
  | S f =>
      match skip_ws s with
      | q :: r =>
          if (q =? 34)%N then
            match unquote_chars r with
            | Some (k, r1) =>
                match skip_ws r1 with
                | colon :: r2 =>
                    if (colon =? ch ":")%N then
                      match parse_value f r2 with
                      | Some (v, r3) =>
                          match skip_ws r3 with
                          | c :: r4 =>
                              if (c =? ch ",")%N then
                                match parse_members f r4 with
                                | Some (ms, r5) => Some ((k, v) :: ms, r5)
                                | None => None
                                end
                              else if (c =? ch "}")%N then Some ([(k, v)], r4)
                              else None
                          | [] => None
                          end
                      | None => None
                      end
                    else None
                | [] => None
                end
            | None => None
            end
          else None
      | [] => None
      end
  end.

(** [JSON.parse(text)]: [None] stands for the SyntaxError that is thrown. *)
Definition JSON_parse (text : jsstring) : option jsval :=
  match parse_value (S (length text)) text with
  | Some (v, r) =>
      match skip_ws r with
      | [] => Some v
      | _ :: _ => None
      end
  | None => None
  end.

(** ** The workspace as a JavaScript value

    The state held by [useState] is a JavaScript value; [js_of_workspace]
    gives the value for a workspace of the data model.  The properties of an
    object kept in a finite map (the cards, the fields of a card) are listed
    in the order of the map, where JavaScript keeps the order of insertion. *)

Definition js_of_prim (v : jsprim) : jsval :=
  match v with
  | VNull => JNull
  | VBool b => JBool b
  | VNum n => JNum n
  | VStr s => JStr s
  end.

Definition js_of_option (o : option jsstring) : jsval :=
  match o with
  | Some s => JStr s
  | None => JNull
  end.

Definition js_of_card (card : jsobj) : jsval :=
  JObj ((fun kv => (kv.1, js_of_prim kv.2)) <$> map_to_list card).

Definition js_of_column (c : Column) : jsval :=
  JObj [ (u "id", JStr (col_id c)); (u "title", JStr (col_title c));
         (u "cardIds", JArr (JStr <$> cardIds c)) ].

Definition js_of_board (b : Board) : jsval :=
  JObj [ (u "columns", JArr (js_of_column <$> columns b));
         (u "cards", JObj ((fun kv => (kv.1, js_of_card kv.2)) <$> map_to_list (cards b))) ].

Definition js_of_project (p : Project) : jsval :=
  JObj [ (u "id", JStr (proj_id p)); (u "title", JStr (proj_title p));
         (u "description", JStr (description p));
         (u "image", js_of_option (image p));
         (u "tags", JArr (JStr <$> tags p));
         (u "board", js_of_board (board p)) ].

Definition js_of_user (x : User) : jsval :=
  JObj [ (u "id", JStr (user_id x)); (u "name", JStr (user_name x));
         (u "role", JStr (role x)); (u "avatarColor", JStr (avatarColor x)) ].

Definition js_of_workspace (d : Workspace) : jsval :=
  JObj [ (u "meta", JObj [ (u "createdAt", JNum (createdAt (meta d)));
                           (u "name", JStr (meta_name (meta d))) ]);
         (u "users", JArr (js_of_user <$> users d));
         (u "projects", JArr (js_of_project <$> projects d)) ].

(** ** Export and import *)

(** The text of the file offered for download by [exportJSON]; the text
    that [FileReader.readAsText] hands to [importJSON] is the text of the
    file. *)
Definition exportJSON (data : jsval) : jsstring := stringify 0 data.

(** ToBoolean; [None] is [undefined]. *)
Definition truthy (v : option jsval) : bool :=
  match v with
  | None => false
  | Some JNull => false
  | Some (JBool b) => b
  | Some (JNum n) => negb (n =? 0)
  | Some (JStr s) => negb (bool_decide (s = []))
  | Some (JArr _) => true
  | Some (JObj _) => true
  end.

Fixpoint obj_get (k : jsstring) (o : list (jsstring * jsval)) : option jsval :=
  match o with
  | [] => None
  | (k', v) :: o' => if decide (k' = k) then Some v else obj_get k o'
  end.

(** [obj.projects] on a value that is not [null]. *)
Definition get_projects (obj : jsval) : option jsval :=
  match obj with
  | JObj o => obj_get (u "projects") o
  | _ => None
  end.

(** The outcome of the [onload] callback of [importJSON]: the state and the
    alerts shown.  [parse] stands for [JSON.parse], [text] is the content of
    the file and [data] the state before. *)
Definition importJSON (parse : jsstring -> option jsval) (text : jsstring)
    (data : jsval) : jsval * list jsstring :=
  match parse text with
  | Some obj =>
      if truthy (Some obj) && truthy (get_projects obj)
      then (obj, [])
      else (data, [u "Invalid file"])
  | None => (data, [u "Could not parse JSON"])
  end.

(** ** Values that [JSON.stringify] and [JSON.parse] carry back and forth *)

(** The elements of an array and the members of an object, as [stringify]
    writes them between the brackets. *)
Fixpoint stringify_elems (ind : nat) (l : list jsval) : jsstring :=
  match l with
  | [] => []
  | [x] => stringify ind x
  | x :: l' => stringify ind x ++ separator ind ++ stringify_elems ind l'
  end.

Fixpoint stringify_members (ind : nat) (o : list (jsstring * jsval)) : jsstring :=
  match o with
  | [] => []
  | [(k, x)] => quote k ++ u ": " ++ stringify ind x
  | (k, x) :: o' =>
      quote k ++ u ": " ++ stringify ind x ++ separator ind ++ stringify_members ind o'
  end.

(** The keys of every object are pairwise distinct, as in any JavaScript
    object. *)
Inductive wf_js : jsval -> Prop :=
  | wf_null : wf_js JNull
  | wf_bool b : wf_js (JBool b)
  | wf_num n : wf_js (JNum n)
  | wf_str s : wf_js (JStr s)
  | wf_arr l : Forall wf_js l -> wf_js (JArr l)
  | wf_obj o : NoDup (o.*1) -> Forall (fun kv => wf_js kv.2) o -> wf_js (JObj o).

Definition whitespace (ws : jsstring) : Prop :=
  Forall (fun c => is_json_ws c = true) ws.

(** The first character of the text of a value. *)
Definition starts_value (c : N) : bool :=
  (c =? 34)%N || (c =? ch "[")%N || (c =? ch "{")%N || (c =? ch "n")%N
  || (c =? ch "t")%N || (c =? ch "f")%N || (c =? ch "-")%N || is_digit c.

(** The parser reads the text of [v] back, whatever white space precedes
    it, when the text that follows cannot continue a number. *)
Definition reads_back (v : jsval) : Prop :=
  forall ind fuel ws rest,
    whitespace ws -> ends_number rest ->
    (1 + length (stringify ind v) <= fuel)%nat ->
    parse_value fuel (ws ++ stringify ind v ++ rest) = Some (v, rest).

(** ** [updateProject] *)

(** A patch for a project: the fields it carries.  The image may be set to
    [null], hence the two levels of option. *)
Record ProjectPatch := mkPatch {
  patch_id : option jsstring;
  patch_title : option jsstring;
  patch_description : option jsstring;
  patch_image : option (option jsstring);
  patch_tags : option (list jsstring);
  patch_board : option Board
}.

(** [{ ...p, ...patch }] *)
Definition merge_project (p : Project) (patch : ProjectPatch) : Project :=
  mkProject (default (proj_id p) (patch_id patch))
            (default (proj_title p) (patch_title patch))
            (default (description p) (patch_description patch))
            (default (image p) (patch_image patch))
            (default (tags p) (patch_tags patch))
            (default (board p) (patch_board patch)).

Definition updateProject (projectId : jsstring) (patch : ProjectPatch)
    (d : Workspace) : Workspace :=
  mkWorkspace (meta d) (users d)
    ((fun p => if decide (proj_id p = projectId) then merge_project p patch else p)
       <$> projects d).

(** No project of the workspace carries the id. *)
Definition no_project (projectId : jsstring) (d : Workspace) : Prop :=
  Forall (fun p => proj_id p <> projectId) (projects d).

(** The column ids of every board are pairwise distinct. *)
Definition distinct_columns (b : Board) : Prop := NoDup (col_id <$> columns b).

Definition ws_distinct_columns (d : Workspace) : Prop :=
  Forall (fun p => distinct_columns (board p)) (projects d).

(** [{ ...q1, ...q2 }] on patches. *)
Definition merge_patch (q1 q2 : ProjectPatch) : ProjectPatch :=
  mkPatch (patch_id q2 ∪ patch_id q1) (patch_title q2 ∪ patch_title q1)
          (patch_description q2 ∪ patch_description q1)
          (patch_image q2 ∪ patch_image q1) (patch_tags q2 ∪ patch_tags q1)
          (patch_board q2 ∪ patch_board q1).

(** ** [String.prototype.trim], [split] and [Array.prototype.join] *)

(** The white space removed by [trim] is the class [\s]. *)
Fixpoint trimStart (s : jsstring) : jsstring :=
  match s with
  | c :: s' => if is_space c then trimStart s' else s
  | [] => []
  end.

Definition trimEnd (s : jsstring) : jsstring := reverse (trimStart (reverse s)).

Definition trim (s : jsstring) : jsstring := trimEnd (trimStart s).

Definition comma : N := 44.

(** [s.split(',')] *)
Fixpoint split_comma (s : jsstring) : list jsstring :=
  match s with
  | [] => [[]]
  | c :: s' =>
      if (c =? comma)%N then [] :: split_comma s'
      else match split_comma s' with
           | h :: t => (c :: h) :: t
           | [] => [[c]]
           end
  end.

(** [l.join(sep)] *)
Fixpoint join (sep : jsstring) (l : list jsstring) : jsstring :=
  match l with
  | [] => []
  | [x] => x
  | x :: l' => x ++ sep ++ join sep l'
  end.

Definition all_space (s : jsstring) : Prop := Forall (fun c => is_space c = true) s.

(** ** The form that adds a card ([Board], [handleAdd]) *)

Record AddForm := mkForm {
  newCardTitle : jsstring;
  newCardBody : jsstring
}.

(** [{ title, body, assignee: null, priority: 2 }] *)
Definition new_card (title body : jsstring) : jsobj :=
  list_to_map [ (u "title", VStr title); (u "body", VStr body);
                (u "assignee", VNull); (u "priority", VNum 2) ].

(** [handleAdd(colId)] in the board of the project [projectId]: the state
    and the next draw, the fields of the form, and the alerts shown. *)
Definition handleAdd (rand : oracle) (projectId colId : jsstring) (form : AddForm)
    (n : nat) (d : Workspace) : (Workspace * nat) * AddForm * list jsstring :=
  if decide (trim (newCardTitle form) = [])
  then ((d, n), form, [u "Give the card a title."])
  else (addCard rand projectId colId
          (new_card (trim (newCardTitle form)) (newCardBody form)) n d,
        mkForm [] [], []).

(** ** The project editor ([ProjectEditor], [save]) *)

Record EditorForm := mkEditor {
  ed_title : jsstring;
  ed_description : jsstring;
  ed_tags : jsstring
}.

(** The initial state of the editor opened on a project. *)
Definition editor_open (p : Project) : EditorForm :=
  mkEditor (proj_title p) (description p) (join (u ", ") (tags p)).

(** [title.trim() || 'Untitled'] *)
Definition saved_title (title : jsstring) : jsstring :=
  if decide (trim title = []) then u "Untitled" else trim title.

(** [tags.split(',').map(t => t.trim()).filter(Boolean)] *)
Definition saved_tags (tags : jsstring) : list jsstring :=
  filter (fun t => t <> []) (trim <$> split_comma tags).

Definition save (projectId : jsstring) (form : EditorForm) (d : Workspace)
  : Workspace * list jsstring :=
  (updateProject projectId
     (mkPatch None (Some (saved_title (ed_title form)))
              (Some (ed_description form)) None
              (Some (saved_tags (ed_tags form))) None) d,
   [u "Saved"]).

(** A tag as [save] leaves it: not empty, without a comma, without white
    space at either end. *)
Definition clean_tag (t : jsstring) : Prop :=
  t <> [] /\ (comma ∉ t) /\ trim t = t.

(** ** [JSON.stringify(v)] without indentation *)

Fixpoint stringify_compact (v : jsval) : jsstring :=
  match v with
  | JNull => u "null"
  | JBool true => u "true"
  | JBool false => u "false"
  | JNum n => stringify_number n
  | JStr s => quote s
  | JArr l =>
      u "["
      ++ (fix elems (l : list jsval) : jsstring :=
            match l with
            | [] => []
            | [x] => stringify_compact x
            | x :: l' => stringify_compact x ++ ch "," :: elems l'
            end) l
      ++ u "]"
  | JObj o =>
      u "{"
      ++ (fix members (o : list (jsstring * jsval)) : jsstring :=
            match o with
            | [] => []
            | [(k, x)] => quote k ++ ch ":" :: stringify_compact x
            | (k, x) :: o' =>
                quote k ++ ch ":" :: stringify_compact x ++ ch "," :: members o'
            end) o
      ++ u "}"
  end.

Fixpoint compact_elems (l : list jsval) : jsstring :=
  match l with
  | [] => []
  | [x] => stringify_compact x
  | x :: l' => stringify_compact x ++ ch "," :: compact_elems l'
  end.

Fixpoint compact_members (o : list (jsstring * jsval)) : jsstring :=
  match o with
  | [] => []
  | [(k, x)] => quote k ++ ch ":" :: stringify_compact x
  | (k, x) :: o' =>
      quote k ++ ch ":" :: stringify_compact x ++ ch "," :: compact_members o'
  end.

(** The parser reads the compact text of [v] back. *)
Definition reads_back_compact (v : jsval) : Prop :=
  forall fuel rest,
    ends_number rest ->
    (1 + length (stringify_compact v) <= fuel)%nat ->
    parse_value fuel (stringify_compact v ++ rest) = Some (v, rest).

(** ** Persistence in [localStorage] *)

(** The store holds texts under keys; [accepts] tells which texts the
    browser takes ([setItem] throws for the others, when the quota is
    exceeded). *)
Record Storage := mkStorage {
  items : gmap jsstring jsstring;
  accepts : jsstring -> bool
}.

Definition STORAGE_KEY : jsstring := u "jobready_portfolio_data_v1".

Definition getItem (key : jsstring) (st : Storage) : option jsstring :=
  items st !! key.

(** [None]: the call throws. *)
Definition setItem (key value : jsstring) (st : Storage) : option Storage :=
  if accepts st value
  then Some (mkStorage (<[key := value]> (items st)) (accepts st))
  else None.

(** The value returned and the number of calls of [console.error]. *)
Definition loadData (st : Storage) : jsval * nat :=
  match getItem STORAGE_KEY st with
  | None => (JNull, 0%nat)
  | Some raw =>
      if decide (raw = []) then (JNull, 0%nat)
      else match JSON_parse raw with
           | Some v => (v, 0%nat)
           | None => (JNull, 1%nat)
           end
  end.

(** The store afterwards and the number of calls of [console.error]. *)
Definition saveData (data : jsval) (st : Storage) : Storage * nat :=
  match setItem STORAGE_KEY (stringify_compact data) st with
  | Some st' => (st', 0%nat)
  | None => (st, 1%nat)
  end.

(** The first state of [App]: [loadData() || sampleSeed()]; [now] is the
    value of [Date.now()]. *)
Definition initial_data (st : Storage) (now : Z) : jsval :=
  if truthy (Some (loadData st).1) then (loadData st).1
  else js_of_workspace (sampleSeed now).

(** ** Drag and drop *)

(** The text put in the data transfer by [onDragStart]. *)
Definition onDragStart (cardId fromColId : jsstring) : jsstring :=
  stringify_compact
    (JObj [ (u "cardId", JStr cardId); (u "fromColId", JStr fromColId) ]).

(** [payload.k] on a value that is not [null]; [None] is [undefined]. *)
Definition get_field (k : jsstring) (payload : jsval) : option jsval :=
  match payload with
  | JObj o => obj_get k o
  | _ => None
  end.

Inductive drop_outcome :=
| DropThrows                    (* an exception leaves the handler *)
| DropIgnored                   (* the handler returns, no state change *)
| DropMoved (d : Workspace)     (* [moveCard] was called, the state after *)
| DropOther.                    (* [moveCard] was called with an id that is
                                   no string *)

Definition has_project (projectId : option jsstring) (d : Workspace) : bool :=
  match projectId with
  | Some pid => bool_decide (Exists (fun p => proj_id p = pid) (projects d))
  | None => false
  end.

(** [text] is what the data transfer holds, [selectedProjectId] is [None]
    for [null]. *)
Definition onDropCard (selectedProjectId : option jsstring) (text : jsstring)
    (toColId : jsstring) (d : Workspace) : drop_outcome :=
  match JSON_parse text with
  | None => DropThrows
  | Some payload =>
      match selectedProjectId with
      | Some pid =>
          if has_project selectedProjectId d then
            match payload with
            | JNull => DropThrows
            | _ =>
                match get_field (u "fromColId") payload with
                | Some (JStr fromColId) =>
                    if decide (fromColId = toColId) then DropIgnored
                    else match get_field (u "cardId") payload with
                         | Some (JStr cardId) =>
                             DropMoved (moveCard pid fromColId toColId cardId 0 d)
                         | _ => DropOther
                         end
                | _ => DropOther
                end
            end
          else DropIgnored
      | None => DropIgnored
      end
  end.

(** The card is shown in column [colId] of the board. *)
Definition shown_in (colId cardId : jsstring) (b : Board) : Prop :=
  Exists (fun col => col_id col = colId /\ cardId ∈ cardIds col) (columns b).

Definition has_column (colId : jsstring) (b : Board) : Prop :=
  colId ∈ col_id <$> columns b.

(** What the board shows when a card is dragged from one of its columns and
    dropped on another. *)
Definition drop_ready (pid cardId fromColId toColId : jsstring) (d : Workspace)
  : Prop :=
  Forall (fun p => proj_id p = pid ->
                   shown_in fromColId cardId (board p)
                   /\ has_column toColId (board p))
         (projects d).

(** The column exists and the id that [addCard] will draw for the project at
    position [i] is not yet a key of its cards. *)
Definition add_ready (rand : oracle) (pid colId : jsstring) (n : nat)
    (d : Workspace) : Prop :=
  forall i p, projects d !! i = Some p -> proj_id p = pid ->
    has_column colId (board p)
    /\ cards (board p) !! uid (u "c") (rand (n + draws_before pid (projects d) i)%nat)
       = None.

(** ** Text without markup *)

(** Every match of [r] consumes the character [c] (a sufficient test). *)
Fixpoint needsb (c : N) (r : regex) : bool :=
  match r with
  | Chr c' => (c' =? c)%N
  | Seq r1 r2 => needsb c r1 || needsb c r2
  | Alt r1 r2 => needsb c r1 && needsb c r2
  | Grp _ r1 => needsb c r1
  | _ => false
  end.

(** The characters that start one of the substitutions of [renderMarkdown]. *)
Definition markdown_special : jsstring :=
  [ch "&"; ch "<"; ch ">"; ch "`"; ch "#"; ch "*"; ch "["; ch "-"; 10%N].

Definition plain (md : jsstring) : Prop :=
  Forall (fun c => c ∉ markdown_special) md.
(** ** Membership of ids in the columns after an operation *)

Section Counting.
Context {A : Type} (P Q : A -> Prop) `{!forall x, Decision (P x)}
        `{!forall x, Decision (Q x)}.

Lemma length_filter_fmap_iff (f : A -> A) (l : list A) :
  (forall c, c ∈ l -> P (f c) <-> Q c) ->
  length (filter P (f <$> l)) = length (filter Q l).
Proof.
  induction l as [|c l IH]; intros Hiff; [reflexivity|].
  rewrite fmap_cons, !filter_cons.
  assert (Hc : P (f c) <-> Q c) by (apply Hiff; left).
  assert (IH' : length (filter P (f <$> l)) = length (filter Q l)).
  { apply IH. intros c' Hc'. apply Hiff. now right. }
  destruct (decide (P (f c))), (decide (Q c)); simpl; tauto || congruence.
Qed.

Lemma length_filter_iff (l : list A) :
  (forall c, c ∈ l -> P c <-> Q c) ->
  length (filter P l) = length (filter Q l).
Proof.
  intros Hiff. rewrite <- (length_filter_fmap_iff id).
  - now rewrite list_fmap_id.
  - exact Hiff.
Qed.
End Counting.

Lemma elem_of_addCard_column columnId cardId col x :
  x ∈ cardIds (addCard_column columnId cardId col)
  <-> (col_id col = columnId /\ x = cardId) \/ x ∈ cardIds col.
Proof.
  unfold addCard_column. destruct (decide (col_id col = columnId)); simpl.
  - rewrite elem_of_cons. tauto.
  - tauto.
Qed.

Lemma elem_of_splice_insert {A} (start : Z) (y : A) (l : list A) (x : A) :
  x ∈ splice_insert start y l <-> x = y \/ x ∈ l.
Proof.
  unfold splice_insert. set (k := splice_start start (length l)).
  rewrite elem_of_app, elem_of_cons.
  rewrite <- (take_drop k l) at 3. rewrite elem_of_app. tauto.
Qed.

Lemma elem_of_moveCard_column fromColId toColId cardId toIndex col x :
  x ∈ cardIds (moveCard_column fromColId toColId cardId toIndex col)
  <-> if decide (col_id col = fromColId) then x ∈ cardIds col /\ x <> cardId
      else if decide (col_id col = toColId) then x = cardId \/ x ∈ cardIds col
      else x ∈ cardIds col.
Proof.
  unfold moveCard_column.
  destruct (decide (col_id col = fromColId)); simpl.
  - rewrite list_elem_of_filter. tauto.
  - destruct (decide (col_id col = toColId)); simpl.
    + apply elem_of_splice_insert.
    + tauto.
Qed.

Lemma col_id_addCard_column columnId cardId col :
  col_id (addCard_column columnId cardId col) = col_id col.
Proof. unfold addCard_column. now destruct (decide _). Qed.

Lemma col_id_moveCard_column fromColId toColId cardId toIndex col :
  col_id (moveCard_column fromColId toColId cardId toIndex col) = col_id col.
Proof. unfold moveCard_column. now repeat destruct (decide _). Qed.

Lemma column_ids_have_cards_elem b c x :
  column_ids_have_cards b -> c ∈ columns b -> x ∈ cardIds c ->
  is_Some (cards b !! x).
Proof.
  intros Hb Hc Hx. unfold column_ids_have_cards in Hb.
  rewrite list.Forall_forall in Hb. specialize (Hb c Hc).
  rewrite list.Forall_forall in Hb. now apply Hb.
Qed.

(** [addCard] on one board keeps the invariant when the generated id is not
    yet a key of [cards] and exactly one column carries the requested id. *)
Lemma addCard_board_inv columnId cardId card b :
  board_inv b ->
  cards b !! cardId = None ->
  length (columns_named columnId (columns b)) = 1%nat ->
  board_inv (addCard_board columnId cardId card b).
Proof.
  intros [Hone Hkeys] Hfresh Hcol. split.
  - unfold cards_in_one_column. apply map_Forall_lookup. intros x v Hx.
    simpl in *. unfold columns_holding.
    destruct (decide (x = cardId)) as [->|Hne].
    + rewrite <- Hcol. unfold columns_named.
      apply length_filter_fmap_iff. intros c Hc.
      rewrite elem_of_addCard_column. split; [|tauto].
      intros [[? _]|Hin]; [assumption|].
      pose proof (column_ids_have_cards_elem _ _ _ Hkeys Hc Hin) as [w Hw].
      congruence.
    + rewrite lookup_insert_ne in Hx by congruence.
      rewrite <- (map_Forall_lookup_1 _ _ _ _ Hone Hx). unfold columns_holding.
      apply length_filter_fmap_iff. intros c Hc.
      rewrite elem_of_addCard_column. tauto.
  - unfold column_ids_have_cards. simpl. rewrite Forall_fmap.
    apply list.Forall_forall. intros c Hc. simpl. apply list.Forall_forall. intros x Hx.
    apply elem_of_addCard_column in Hx.
    destruct (decide (x = cardId)) as [->|Hne].
    + rewrite lookup_insert_eq. eauto.
    + rewrite lookup_insert_ne by congruence.
      destruct Hx as [[_ ?]|Hx]; [contradiction|].
      eapply column_ids_have_cards_elem; eauto.
Qed.

(** [moveCard] on one board keeps the invariant when the two column ids
    differ, the card is a key of [cards], every column holding it carries the
    source id, and exactly one column carries the target id. *)
Lemma moveCard_board_inv fromColId toColId cardId toIndex b :
  board_inv b ->
  fromColId <> toColId ->
  is_Some (cards b !! cardId) ->
  (forall c, c ∈ columns b -> cardId ∈ cardIds c -> col_id c = fromColId) ->
  length (columns_named toColId (columns b)) = 1%nat ->
  board_inv (moveCard_board fromColId toColId cardId toIndex b).
Proof.
  intros [Hone Hkeys] Hne Hkey Hfrom Hto. split.
  - unfold cards_in_one_column. apply map_Forall_lookup. intros x v Hx.
    simpl in *. unfold columns_holding.
    destruct (decide (x = cardId)) as [->|Hx'].
    + rewrite <- Hto. unfold columns_named.
      apply length_filter_fmap_iff. intros c Hc.
      rewrite elem_of_moveCard_column.
      destruct (decide (col_id c = fromColId)) as [E|E].
      * split; [tauto | congruence].
      * destruct (decide (col_id c = toColId)); [tauto|].
        split; [|tauto]. intros Hin. specialize (Hfrom c Hc Hin). contradiction.
    + rewrite <- (map_Forall_lookup_1 _ _ _ _ Hone Hx). unfold columns_holding.
      apply length_filter_fmap_iff. intros c Hc.
      rewrite elem_of_moveCard_column.
      repeat destruct (decide _); tauto.
  - unfold column_ids_have_cards. simpl. rewrite Forall_fmap.
    apply list.Forall_forall. intros c Hc. simpl. apply list.Forall_forall. intros x Hx.
    apply elem_of_moveCard_column in Hx.
    assert (x = cardId \/ x ∈ cardIds c) as [->|Hin]
      by (repeat destruct (decide _); tauto).
    + assumption.
    + eapply column_ids_have_cards_elem; eauto.
Qed.

Example seed_inv : ws_inv (sampleSeed 0).
Proof. apply (bool_decide_eq_true_1 _). vm_compute. reflexivity. Qed.


(** ** Theorems: project operations *)

(** C6: [createProject] on a workspace with N projects yields N+1 projects,
    the new project is at the head of the list, and its board has exactly the
    columns todo, inprogress, done, each with no card id, and no card. *)
Theorem createProject_prepends_canonical (seg : jsstring) (d : Workspace) :
  length (projects (createProject seg d)) = S (length (projects d))
  /\ projects (createProject seg d) = newProj seg :: projects d
  /\ col_id <$> columns (board (newProj seg))
       = [u "todo"; u "inprogress"; u "done"]
  /\ Forall (fun c => cardIds c = []) (columns (board (newProj seg)))
  /\ cards (board (newProj seg)) = ∅.
Proof.
  repeat split.
  repeat constructor.
Qed.


(** ** The invariant along sequences of operations *)

Lemma addCard_projects_inv rand projectId columnId card ps : forall n,
  Forall (fun p => board_inv (board p)) ps ->
  addCard_pre rand projectId columnId n ps ->
  Forall (fun p => board_inv (board p))
    (map_draw (addCard_project rand projectId columnId card) n ps).1.
Proof.
  induction ps as [|p ps IH]; intros n Hinv Hpre; simpl; [constructor|].
  inversion Hinv as [|? ? Hp Hps]; subst. simpl in Hpre.
  unfold addCard_project at 1.
  destruct (decide (proj_id p <> projectId)) as [Hd|Hd].
  - specialize (IH n Hps Hpre).
    destruct (map_draw _ n ps) as [ys n2]. simpl in *. now constructor.
  - destruct Hpre as [[Hfresh Hcol] Hpre]. specialize (IH (S n) Hps Hpre).
    destruct (map_draw _ (S n) ps) as [ys n2]. simpl in *. constructor; [|assumption].
    simpl. now apply addCard_board_inv.
Qed.

Lemma step_inv rand st o :
  ws_inv st.1 -> op_ok rand st o -> ws_inv (step rand st o).1.
Proof.
  destruct st as [d n]. unfold ws_inv. simpl. intros Hinv Hok.
  destruct o as [projectId columnId card|projectId fromColId toColId cardId toIndex];
    simpl in *.
  - unfold addCard.
    pose proof (addCard_projects_inv rand projectId columnId card _ n Hinv Hok) as H.
    destruct (map_draw _ n (projects d)) as [ps n']. exact H.
  - rewrite Forall_fmap. rewrite list.Forall_forall in Hinv, Hok |- *.
    intros p Hp. simpl. unfold moveCard_project.
    destruct (decide (proj_id p <> projectId)) as [Hd|Hd]; [now apply Hinv|].
    simpl. destruct (Hok p Hp) as (Hne & Hkey & Hfrom & Hto).
    { now destruct (decide (proj_id p = projectId)). }
    apply moveCard_board_inv; auto.
    intros c Hc. rewrite list.Forall_forall in Hfrom. now apply Hfrom.
Qed.

(** C1 (as amended): from a workspace whose boards satisfy the invariant, the
    invariant holds after each operation of a sequence in which every
    [addCard] generates an id that is not yet a key of [cards] and names a
    column id carried by exactly one column, and every [moveCard] has
    different source and target ids, a card that is a key of [cards] and is
    held only by columns carrying the source id, and a target id carried by
    exactly one column. *)
Theorem invariant_kept_by_admissible_ops (rand : oracle) (ops : list op) :
  forall st, ws_inv st.1 -> ops_ok rand st ops -> invariant_after_each_op rand st ops.
Proof.
  unfold invariant_after_each_op.
  induction ops as [|o ops IH]; intros st Hinv Hok; simpl; [constructor|].
  destruct Hok as [Ho Hops].
  pose proof (step_inv rand st o Hinv Ho) as Hstep.
  constructor; [exact Hstep|]. now apply IH.
Qed.

Lemma invariant_kept_by_admissible_ops_witness :
  invariant_after_each_op const_oracle (sampleSeed 0, 0%nat)
    [ AddCard (u "proj_1") (u "todo") (title_only "Write tests");
      MoveCard (u "proj_1") (u "todo") (u "done") (u "c1") 0 ].
Proof.
  apply invariant_kept_by_admissible_ops.
  - apply (bool_decide_eq_true_1 _). vm_compute. reflexivity.
  - apply (bool_decide_eq_true_1 _). vm_compute. reflexivity.
Defined.

(** C1 (as stated) fails: on the sample seed, which satisfies the invariant,
    [addCard] with a column id that no column carries stores a card that no
    column holds. *)
Lemma invariant_broken_by_unknown_column :
  ws_inv (sampleSeed 0)
  /\ ~ invariant_after_each_op const_oracle (sampleSeed 0, 0%nat)
         [ AddCard (u "proj_1") (u "backlog") (title_only "Lost") ].
Proof.
  split.
  - apply (bool_decide_eq_true_1 _). vm_compute. reflexivity.
  - apply (bool_decide_eq_false_1 _). vm_compute. reflexivity.
Qed.

(** ** Lookups in the project list after an operation *)

Lemma map_draw_lookup rand projectId columnId card ps : forall n i p,
  ps !! i = Some p ->
  (map_draw (addCard_project rand projectId columnId card) n ps).1 !! i
  = Some (addCard_project rand projectId columnId card
            (n + draws_before projectId ps i) p).1.
Proof.
  induction ps as [|q ps IH]; intros n i p Hi; [discriminate|].
  simpl. destruct i as [|i]; simpl in Hi.
  - injection Hi as ->. unfold draws_before. simpl. rewrite Nat.add_0_r.
    destruct (addCard_project _ _ _ _ n p) as [y n1].
    destruct (map_draw _ n1 ps) as [ys n2]. reflexivity.
  - unfold addCard_project at 1.
    destruct (decide (proj_id q <> projectId)) as [Hd|Hd].
    + specialize (IH n i p Hi).
      destruct (map_draw _ n ps) as [ys n2]. simpl in *. rewrite IH.
      unfold draws_before. simpl. rewrite filter_cons_False by assumption.
      reflexivity.
    + specialize (IH (S n) i p Hi).
      destruct (map_draw _ (S n) ps) as [ys n2]. simpl in *. rewrite IH.
      unfold draws_before. simpl. rewrite filter_cons_True.
      * simpl. now rewrite Nat.add_succ_r.
      * now destruct (decide (proj_id q = projectId)).
Qed.

Lemma addCard_lookup rand projectId columnId card n d i p :
  projects d !! i = Some p ->
  projects (addCard rand projectId columnId card n d).1 !! i
  = Some (addCard_project rand projectId columnId card
            (n + draws_before projectId (projects d) i) p).1.
Proof.
  intros Hi. unfold addCard.
  pose proof (map_draw_lookup rand projectId columnId card _ n i p Hi) as H.
  destruct (map_draw _ n (projects d)) as [ps n']. exact H.
Qed.

(** C2 (as amended): [updateCard] on an id that is not a key of [cards] adds
    that id as a new key, bound to the fields of the patch alone, and changes
    no other key. *)
Theorem updateCard_missing_id_inserts_patch (projectId cardId : jsstring)
    (patch : jsobj) (d : Workspace) (i : nat) (p : Project) :
  projects d !! i = Some p -> proj_id p = projectId ->
  cards (board p) !! cardId = None ->
  exists p', projects (updateCard projectId cardId patch d) !! i = Some p'
             /\ cards (board p') = <[cardId := patch]> (cards (board p))
             /\ cards (board p') !! cardId = Some patch
             /\ forall k, k <> cardId -> cards (board p') !! k = cards (board p) !! k.
Proof.
  intros Hi Hid Hnone. unfold updateCard. simpl.
  rewrite list_lookup_fmap, Hi. simpl. eexists. split; [reflexivity|].
  unfold updateCard_project. rewrite decide_False by tauto. simpl.
  rewrite Hnone. unfold spread, spread_undef. simpl.
  rewrite (right_id_L ∅ (∪)). split; [reflexivity|]. split.
  - apply lookup_insert_eq.
  - intros k Hk. now rewrite lookup_insert_ne.
Qed.

Lemma updateCard_missing_id_inserts_patch_witness :
  exists p', projects (updateCard (u "proj_1") (u "ghost") (title_only "x")
                         (sampleSeed 0)) !! 0%nat = Some p'
             /\ cards (board p') = <[u "ghost" := title_only "x"]> (cards seed_board)
             /\ cards (board p') !! u "ghost" = Some (title_only "x")
             /\ forall k, k <> u "ghost" -> cards (board p') !! k = cards seed_board !! k.
Proof.
  apply (updateCard_missing_id_inserts_patch (u "proj_1") (u "ghost") (title_only "x")
           (sampleSeed 0) 0
           (mkProject (u "proj_1") (u "Website Redesign")
              (u "A modern responsive redesign for marketing site. Use components, accessibility, and performance improvements.")
              None [u "frontend"; u "react"; u "design"] seed_board)).
  - reflexivity.
  - reflexivity.
  - vm_compute. reflexivity.
Defined.

(** C2 (as stated) fails: on the sample seed, [updateCard] with the id
    "ghost", which is not a key of [cards], creates the key. *)
Lemma updateCard_creates_key :
  ~ updateCard_keeps_cards (u "proj_1") (u "ghost") (title_only "x") (sampleSeed 0).
Proof.
  intros Hclaim.
  destruct (Hclaim 0%nat _ eq_refl eq_refl) as (p' & Hp' & Hcards).
  { vm_compute. reflexivity. }
  simpl in Hp'. injection Hp' as <-.
  apply (f_equal (fun m => m !! u "ghost")) in Hcards.
  vm_compute in Hcards. discriminate.
Qed.



Lemma holding_unique x cols c c' :
  length (columns_holding x cols) = 1%nat ->
  c ∈ cols -> x ∈ cardIds c -> c' ∈ cols -> x ∈ cardIds c' -> c' = c.
Proof.
  intros Hlen Hc Hx Hc' Hx'.
  assert (H1 : c ∈ columns_holding x cols) by (apply list_elem_of_filter; auto).
  assert (H2 : c' ∈ columns_holding x cols) by (apply list_elem_of_filter; auto).
  destruct (columns_holding x cols) as [|c0 [|? ?]]; try discriminate.
  apply list_elem_of_singleton in H1, H2. congruence.
Qed.





(** ** Global replace: where the characters of the result come from *)

Section ReplaceFacts.
Context {A : Type} (code : A -> N) (lit : N -> A).

Lemma substitute_Forall (P : A -> Prop) tmpl x (s : list A) :
  (forall c, P (lit c)) -> Forall P s -> Forall P (substitute lit tmpl x s).
Proof.
  intros Hlit Hs. unfold substitute. apply Forall_bind, list.Forall_forall.
  intros [l|i] _; simpl.
  - apply Forall_fmap, list.Forall_forall. intros c _. apply Hlit.
  - destruct (cap_lookup i (caps x)) as [[b e]|]; [|constructor].
    now apply Forall_take, Forall_drop.
Qed.

(** Every character of the result is a character of the input or a
    character of the replacement text. *)
Lemma scan_Forall (P : A -> Prop) r tmpl (s : list A) :
  (forall c, P (lit c)) -> Forall P s ->
  forall skip before, Forall P (scan code lit r tmpl skip before s).
Proof.
  intros Hlit Hs. induction Hs as [|c s Hc Hs IH]; intros skip before; simpl.
  - destruct skip; [|constructor].
    destruct (match_at r before []); [|constructor].
    apply substitute_Forall; [assumption|constructor].
  - destruct skip as [|j]; [|apply IH].
    destruct (match_at r before _) as [x|].
    + apply Forall_app. split.
      * apply substitute_Forall; [assumption|now constructor].
      * destruct (pos x =? 0)%nat; [constructor; [assumption|]|]; apply IH.
    + constructor; [assumption|apply IH].
Qed.

Lemma replace_all_Forall (P : A -> Prop) r tmpl (s : list A) :
  (forall c, P (lit c)) -> Forall P s -> Forall P (replace_all code lit r tmpl s).
Proof. intros. now apply scan_Forall. Qed.

(** Replacing a single character by literal text acts on each character
    independently. *)
Lemma scan_Chr (c : N) (l : jsstring) (s : list A) : forall before,
  scan code lit (Chr c) [TLit l] 0 before s
  = a ← s; if (code a =? c)%N then lit <$> l else [a].
Proof.
  induction s as [|a s IH]; intros before; [reflexivity|].
  simpl. unfold match_at. simpl.
  destruct (code a =? c)%N; simpl.
  - rewrite (right_id_L [] (++)). f_equal. apply IH.
  - f_equal. apply IH.
Qed.

Lemma replace_Chr_Forall (P Q : A -> Prop) (c : N) (l : jsstring) (s : list A) :
  (forall a, P a -> code a <> c -> Q a) -> Forall Q (lit <$> l) ->
  Forall P s -> Forall Q (replace_all code lit (Chr c) [TLit l] s).
Proof.
  intros HPQ Hlit Hs. unfold replace_all. rewrite scan_Chr.
  apply Forall_bind. eapply list.Forall_impl; [exact Hs|].
  intros a Ha. simpl. destruct (N.eqb_spec (code a) c).
  - exact Hlit.
  - repeat constructor. now apply HPQ.
Qed.

(** Forgetting what the characters carry besides their code unit commutes
    with the replacement. *)
Lemma substitute_erase tmpl x (s : list A) :
  (forall c, code (lit c) = c) ->
  code <$> substitute lit tmpl x s = substitute id tmpl x (code <$> s).
Proof.
  intros Hcl. unfold substitute.
  induction tmpl as [|t tmpl IH]; [reflexivity|].
  rewrite !bind_cons, fmap_app, IH. f_equal.
  destruct t as [l|i]; simpl.
  - rewrite <- list_fmap_compose. apply list_fmap_ext. intros ? c _. apply Hcl.
  - destruct (cap_lookup i (caps x)) as [[b e]|]; [|reflexivity].
    now rewrite fmap_take, fmap_drop.
Qed.

Lemma scan_erase r tmpl (s : list A) :
  (forall c, code (lit c) = c) ->
  forall skip before,
    code <$> scan code lit r tmpl skip before s
    = scan id id r tmpl skip before (code <$> s).
Proof.
  intros Hcl. induction s as [|c s IH]; intros skip before; simpl.
  - destruct skip; [|reflexivity].
    destruct (match_at r before []); [|reflexivity].
    now rewrite substitute_erase.
  - destruct skip as [|j]; [|apply IH].
    rewrite list_fmap_id.
    destruct (match_at r before _) as [x|]; simpl.
    + rewrite fmap_app, substitute_erase by assumption. f_equal.
      destruct (pos x =? 0)%nat; simpl; now rewrite IH.
    + now rewrite IH.
Qed.

Lemma replace_all_erase r tmpl (s : list A) :
  (forall c, code (lit c) = c) ->
  code <$> replace_all code lit r tmpl s = replace_all id id r tmpl (code <$> s).
Proof. intros. now apply scan_erase. Qed.

Lemma erase_lit (l : jsstring) :
  (forall c, code (lit c) = c) -> code <$> (lit <$> l) = id <$> l.
Proof.
  intros Hcl. rewrite <- list_fmap_compose. apply list_fmap_ext.
  intros ? c _. apply Hcl.
Qed.

Lemma markup_erase (s : list A) :
  (forall c, code (lit c) = c) ->
  code <$> markup code lit s = markup id id (code <$> s).
Proof.
  intros Hcl.
  unfold markup, paragraphs, lists, links, bold_italic, headings, heading,
    inline_code, code_blocks.
  now rewrite !replace_all_erase.
Qed.

Lemma escapeHtml_erase (s : list A) :
  (forall c, code (lit c) = c) ->
  code <$> escapeHtml code lit s = escapeHtml id id (code <$> s).
Proof. intros Hcl. unfold escapeHtml. now rewrite !replace_all_erase. Qed.

Lemma renderMarkdown_on_erase (md : list A) :
  (forall c, code (lit c) = c) ->
  code <$> renderMarkdown_on code lit md = renderMarkdown_on id id (code <$> md).
Proof.
  intros Hcl. destruct md as [|a md]; [reflexivity|].
  unfold renderMarkdown_on. rewrite fmap_cons. unfold wrap.
  rewrite !fmap_app, !erase_lit, markup_erase, escapeHtml_erase by assumption.
  reflexivity.
Qed.

Lemma markup_Forall (P : A -> Prop) (s : list A) :
  (forall c, P (lit c)) -> Forall P s -> Forall P (markup code lit s).
Proof.
  intros Hlit Hs.
  unfold markup, paragraphs, lists, links, bold_italic, headings, heading,
    inline_code, code_blocks.
  repeat apply replace_all_Forall; assumption.
Qed.
End ReplaceFacts.

(** ** The escaping *)

Lemma bind_singleton {A B} (f : A -> list B) (a : A) : [a] ≫= f = f a.
Proof. rewrite bind_cons. apply (right_id_L [] (++)). Qed.

Lemma escapeHtml_no_angle (md : jsstring) :
  Forall (fun c => c <> ch "<" /\ c <> ch ">") (escapeHtml id id md).
Proof.
  unfold escapeHtml.
  apply (replace_Chr_Forall id id (fun c => c <> ch "<")).
  - intros a Ha Hne. split; assumption.
  - repeat constructor; discriminate.
  - apply (replace_Chr_Forall id id (fun _ => True)).
    + intros a _ Hne. exact Hne.
    + repeat constructor; discriminate.
    + apply list.Forall_forall. trivial.
Qed.

Lemma escapeHtml_marked (md : jsstring) :
  Forall angle_is_generated
    (escapeHtml fst (fun c => (c, Generated)) (from_source md)).
Proof.
  unfold escapeHtml.
  apply (replace_Chr_Forall _ _ (fun a => a.1 = ch "<" -> a.2 = Generated)).
  - intros a Ha Hne [H|H]; [now apply Ha|contradiction].
  - apply Forall_fmap, list.Forall_forall. intros c _ _. reflexivity.
  - apply (replace_Chr_Forall _ _ (fun _ => True)).
    + intros a _ Hne H. contradiction.
    + apply Forall_fmap, list.Forall_forall. intros c _ _. reflexivity.
    + apply list.Forall_forall. trivial.
Qed.

Lemma renderMarkdown_marked_angle (md : jsstring) :
  Forall angle_is_generated (renderMarkdown_marked md).
Proof.
  unfold renderMarkdown_marked, renderMarkdown_on.
  destruct (from_source md) eqn:E; [constructor|]. rewrite <- E.
  unfold wrap. rewrite !Forall_app. split; [|split].
  - apply Forall_fmap, list.Forall_forall. intros c _ _. reflexivity.
  - apply markup_Forall; [intros c _; reflexivity|apply escapeHtml_marked].
  - apply Forall_fmap, list.Forall_forall. intros c _ _. reflexivity.
Qed.

Lemma renderMarkdown_marked_erase (md : jsstring) :
  fst <$> renderMarkdown_marked md = renderMarkdown md.
Proof.
  unfold renderMarkdown_marked, renderMarkdown.
  rewrite renderMarkdown_on_erase by reflexivity.
  unfold from_source. rewrite <- list_fmap_compose.
  f_equal. apply list_fmap_id.
Qed.

Lemma starts_with_spec (needle s : jsstring) :
  starts_with needle s = true <-> exists b, s = needle ++ b.
Proof.
  revert s. induction needle as [|c needle IH]; intros s; simpl.
  - split; eauto.
  - destruct s as [|d s].
    + split; [discriminate|]. intros [b Hb]. discriminate.
    + rewrite andb_true_iff, IH, N.eqb_eq. split.
      * intros [-> [b ->]]. eauto.
      * intros [b Hb]. injection Hb as -> ->. eauto.
Qed.

Lemma includes_spec (s needle : jsstring) :
  includes s needle <-> includesb s needle = true.
Proof.
  unfold includes. induction s as [|d s IH]; simpl.
  - rewrite orb_false_r, starts_with_spec. split.
    + intros (a & b & H). destruct a; [eauto|discriminate].
    + intros [b H]. exists [], b. exact H.
  - rewrite orb_true_iff, <- IH, starts_with_spec. split.
    + intros (a & b & H). destruct a as [|a0 a]; simpl in H.
      * left. eauto.
      * right. injection H as -> ->. eauto.
    + intros [[b H]|(a & b & H)].
      * exists [], b. exact H.
      * exists (d :: a), b. simpl. now rewrite H.
Qed.

(** C3: the escaping of [&], [<] and [>] is the first transformation of the
    renderer; its result has no [<] and no [>]; in the output of the
    renderer every [<] and every [>] was written by the renderer and none
    was copied from the input; the output for "<script>" does not contain
    "<script>", and the output for "**bold**" contains
    "<strong>bold</strong>". *)
Theorem renderMarkdown_escapes_first :
  (forall md, md <> [] ->
     renderMarkdown md = wrap id (markup id id (escapeHtml id id md)))
  /\ (forall md, escapeHtml id id md
                 = c ← md; if (c =? ch "&")%N then u "&amp;"
                           else if (c =? ch "<")%N then u "&lt;"
                           else if (c =? ch ">")%N then u "&gt;" else [c])
  /\ (forall md, Forall (fun c => c <> ch "<" /\ c <> ch ">") (escapeHtml id id md))
  /\ (forall md, fst <$> renderMarkdown_marked md = renderMarkdown md
                 /\ Forall angle_is_generated (renderMarkdown_marked md))
  /\ ~ includes (renderMarkdown (u "<script>")) (u "<script>")
  /\ includes (renderMarkdown (u "**bold**")) (u "<strong>bold</strong>").
Proof.
  split; [|split; [|split; [|split; [|split]]]].
  - intros [|c md] Hne; [contradiction|reflexivity].
  - intros md. unfold escapeHtml, replace_all. rewrite !scan_Chr.
    rewrite !list_fmap_id.
    induction md as [|c md IH]; [reflexivity|].
    rewrite !bind_cons, !bind_app, IH. f_equal. unfold id.
    change (ch "&") with 38%N. change (ch "<") with 60%N. change (ch ">") with 62%N.
    destruct (N.eqb_spec c 38) as [->|H1]; [reflexivity|].
    rewrite bind_singleton.
    destruct (N.eqb_spec c 60) as [->|H2]; [reflexivity|].
    rewrite bind_singleton.
    destruct (N.eqb_spec c 62) as [->|H3]; reflexivity.
  - apply escapeHtml_no_angle.
  - intros md. split;
      [apply renderMarkdown_marked_erase|apply renderMarkdown_marked_angle].
  - rewrite includes_spec. vm_compute. discriminate.
  - rewrite includes_spec. vm_compute. reflexivity.
Qed.

(** ** The matcher on literal strings and on the rest of a line *)

Lemma matcher_Str (hs : jsstring) : forall x k t,
  hs <> [] -> rest x = hs ++ t ->
  matcher (Str hs) x k = k (consume hs x t).
Proof.
  induction hs as [|c hs IH]; intros x k t Hne Hrest; [contradiction|].
  destruct hs as [|c' hs].
  - simpl. rewrite Hrest. simpl. rewrite N.eqb_refl.
    unfold advance, consume. simpl. now rewrite Nat.add_1_r.
  - change (matcher (Str (c :: c' :: hs)) x k)
      with (matcher (Chr c) x (fun y => matcher (Str (c' :: hs)) y k)).
    simpl matcher at 1. rewrite Hrest. simpl. rewrite N.eqb_refl.
    rewrite (IH _ _ t) by (discriminate || reflexivity).
    f_equal. unfold consume, advance. simpl. f_equal; [lia|].
    destruct (list.last (c' :: hs)) eqn:E; [reflexivity|].
    now apply last_None in E.
Qed.

Lemma matcher_Str_fail (hs : jsstring) : forall x k,
  hs <> [] -> starts_with hs (rest x) = false ->
  matcher (Str hs) x k = None.
Proof.
  induction hs as [|c hs IH]; intros x k Hne Hsw; [contradiction|].
  destruct hs as [|c' hs].
  - simpl in *. destruct (rest x) as [|h t]; [reflexivity|].
    rewrite N.eqb_sym. rewrite andb_true_r in Hsw. now rewrite Hsw.
  - change (matcher (Str (c :: c' :: hs)) x k)
      with (matcher (Chr c) x (fun y => matcher (Str (c' :: hs)) y k)).
    simpl matcher at 1. simpl in Hsw.
    destruct (rest x) as [|h t]; [reflexivity|].
    rewrite N.eqb_sym. destruct (c =? h)%N; [|reflexivity].
    apply IH; [discriminate|exact Hsw].
Qed.

Lemma star_loop_S greedy body n x k :
  star_loop greedy body (S n) x k
  = let again := body x (fun y => if (pos y =? pos x)%nat then None
                                  else star_loop greedy body n y k) in
    if greedy then or_else again (k x) else or_else (k x) again.
Proof. reflexivity. Qed.

Lemma matcher_Cls p x k :
  matcher (Cls p) x k
  = match rest x with
    | h :: t => if p h then k (advance x h t) else None
    | [] => None
    end.
Proof. reflexivity. Qed.

Lemma matcher_Chr c x k :
  matcher (Chr c) x k
  = match rest x with
    | h :: t => if (h =? c)%N then k (advance x h t) else None
    | [] => None
    end.
Proof. reflexivity. Qed.

Lemma matcher_Eol x k : matcher Eol x k = if at_line_end x then k x else None.
Proof. reflexivity. Qed.

Lemma pos_advance_neq x c t : (pos (advance x c t) =? pos x)%nat = false.
Proof. apply Nat.eqb_neq. simpl. lia. Qed.

(** [.*$] consumes the rest of the line. *)
Lemma star_Dot_Eol (body : jsstring) : forall n x k t,
  no_terminator body -> line_ends t -> rest x = body ++ t ->
  (length body <= n)%nat ->
  star_loop true (matcher Dot) n x (fun y => matcher Eol y k)
  = k (consume body x t).
Proof.
  induction body as [|c body IH]; intros n x k t Hbody Ht Hrest Hn.
  - simpl in Hrest.
    assert (Hend : at_line_end x = true).
    { unfold at_line_end. rewrite Hrest. destruct t; [reflexivity|exact Ht]. }
    assert (Hx : consume [] x t = x).
    { destruct x. unfold consume. simpl in *. subst. f_equal. lia. }
    rewrite Hx. destruct n as [|n].
    + simpl. now rewrite Hend.
    + rewrite star_loop_S. cbv zeta. unfold Dot at 1. rewrite matcher_Cls, Hrest.
      rewrite matcher_Eol, Hend.
      destruct t as [|c t]; [reflexivity|].
      simpl in Ht. now rewrite Ht.
  - destruct n as [|n]; [simpl in Hn; lia|].
    inversion Hbody as [|? ? Hc Hbody']; subst.
    rewrite star_loop_S. cbv zeta. unfold Dot at 1. rewrite matcher_Cls, Hrest.
    change ((c :: body) ++ t) with (c :: (body ++ t)). cbv beta iota.
    rewrite Hc. simpl negb. cbv iota.
    rewrite pos_advance_neq.
    rewrite (IH n _ _ t) by (assumption || reflexivity || (simpl in Hn; lia)).
    assert (Hend : at_line_end x = false).
    { unfold at_line_end. rewrite Hrest. simpl. exact Hc. }
    rewrite matcher_Eol, Hend.
    assert (Hx : consume body (advance x c (body ++ t)) t = consume (c :: body) x t).
    { unfold consume, advance. simpl. f_equal; [lia|].
      destruct body as [|c' body]; [reflexivity|].
      change (list.last (c :: c' :: body)) with (list.last (c' :: body)).
      destruct (list.last (c' :: body)) eqn:E; [reflexivity|].
      now apply last_None in E. }
    rewrite Hx. now destruct (k _).
Qed.

Lemma starts_with_line (hs l t : jsstring) :
  no_terminator hs -> no_terminator l -> line_ends t ->
  starts_with hs (l ++ t) = starts_with hs l.
Proof.
  intros Hhs. revert l. induction Hhs as [|c hs Hc Hhs IH]; intros l Hl Ht.
  - reflexivity.
  - destruct l as [|d l]; simpl.
    + destruct t as [|d t]; [reflexivity|]. simpl in Ht.
      destruct (N.eqb_spec c d) as [->|]; [congruence|reflexivity].
    + inversion Hl; subst. now rewrite IH.
Qed.

Lemma starts_with_app (hs l : jsstring) :
  starts_with hs l = true -> l = hs ++ drop (length hs) l.
Proof.
  intros H. apply starts_with_spec in H as [b ->].
  now rewrite drop_app_length.
Qed.

(** ** One heading pattern at one position *)

Lemma match_heading_some (hashes : string) before (l t : jsstring) :
  let hs := u hashes ++ u " " in
  no_terminator l -> line_ends t ->
  line_start before = true -> starts_with hs l = true ->
  exists x, match_at (re_heading hashes) before (l ++ t) = Some x
            /\ pos x = length l
            /\ caps x = [(1%nat, (length hs, length l))].
Proof.
  intros hs Hl Ht Hbol Hsw.
  pose proof (starts_with_app _ _ Hsw) as El. fold hs in El.
  set (body := drop (length hs) l) in *.
  assert (Hbody : no_terminator body) by now apply Forall_drop.
  assert (Hhs : hs <> []) by (unfold hs; now destruct (u hashes)).
  unfold match_at, re_heading. fold hs.
  set (x0 := mkState 0 before (l ++ t) []).
  change (matcher (Seq Bol ?r) x0 Some)
    with (if at_line_start x0 then matcher r x0 Some else None).
  unfold at_line_start. simpl prev. rewrite Hbol.
  change (matcher (Seq (Str hs) ?r) x0 Some)
    with (matcher (Str hs) x0 (fun y => matcher r y Some)).
  rewrite (matcher_Str hs x0 _ (body ++ t)); [|assumption|].
  2:{ simpl. rewrite El at 1. now rewrite <- (assoc_L (++)). }
  set (x1 := consume hs x0 (body ++ t)).
  change (matcher (Grp 1 (Seq (Star true Dot) Eol)) x1 Some)
    with (star_loop true (matcher Dot) (length (rest x1)) x1
            (fun y => matcher Eol y (fun z => Some (set_cap 1 (pos x1) (pos z) z)))).
  rewrite (star_Dot_Eol body _ x1 _ t); try assumption; try reflexivity.
  2:{ simpl. rewrite length_app. lia. }
  eexists. split; [reflexivity|]. simpl.
  assert (Hlen : length l = (length hs + length body)%nat).
  { rewrite El at 1. apply length_app. }
  rewrite Hlen. split; [lia|reflexivity].
Qed.

Lemma match_heading_none (hashes : string) before (l t : jsstring) :
  let hs := u hashes ++ u " " in
  no_terminator hs -> no_terminator l -> line_ends t ->
  line_start before = false \/ starts_with hs l = false ->
  match_at (re_heading hashes) before (l ++ t) = None.
Proof.
  intros hs Hhs Hl Ht Hor.
  unfold match_at, re_heading. fold hs.
  set (x0 := mkState 0 before (l ++ t) []).
  change (matcher (Seq Bol ?r) x0 Some)
    with (if at_line_start x0 then matcher r x0 Some else None).
  unfold at_line_start. simpl prev.
  destruct (line_start before); [|reflexivity].
  destruct Hor as [?|Hsw]; [discriminate|].
  change (matcher (Seq (Str hs) ?r) x0 Some)
    with (matcher (Str hs) x0 (fun y => matcher r y Some)).
  apply matcher_Str_fail.
  - unfold hs. now destruct (u hashes).
  - simpl. now rewrite starts_with_line.
Qed.

(** ** A substitution that acts line by line *)

Section LinePass.
Variables (r : regex) (tmpl : list titem) (hs : jsstring) (f : jsstring -> jsstring).

Hypothesis hs_not_empty : hs <> [].
Hypothesis r_matches : forall before l t,
  no_terminator l -> line_ends t ->
  line_start before = true -> starts_with hs l = true ->
  exists x, match_at r before (l ++ t) = Some x
            /\ pos x = length l
            /\ substitute id tmpl x (l ++ t) = f l.
Hypothesis r_fails : forall before l t,
  no_terminator l -> line_ends t ->
  line_start before = false \/ starts_with hs l = false ->
  match_at r before (l ++ t) = None.

Lemma after_cons before c l : after (Some c) l = after before (c :: l).
Proof.
  unfold after. destruct l as [|d l]; [reflexivity|].
  change (list.last (c :: d :: l)) with (list.last (d :: l)).
  destruct (list.last (d :: l)) eqn:E; [reflexivity|].
  now apply last_None in E.
Qed.

(** Inside a line, after its first character, nothing matches. *)
Lemma scan_inside (l : jsstring) : forall c0 t,
  is_line_terminator c0 = false -> no_terminator l -> line_ends t ->
  scan id id r tmpl 0 (Some c0) (l ++ t)
  = l ++ scan id id r tmpl 0 (after (Some c0) l) t.
Proof.
  induction l as [|c l IH]; intros c0 t Hc0 Hl Ht; [reflexivity|].
  inversion Hl as [|? ? Hc Hl']; subst.
  change ((c :: l) ++ t) with (c :: (l ++ t)).
  cbn [scan]. rewrite list_fmap_id.
  change (c :: (l ++ t)) with ((c :: l) ++ t).
  rewrite r_fails by (assumption || (left; exact Hc0)).
  simpl. f_equal. change (id c) with c. rewrite IH by assumption.
  now rewrite (after_cons (Some c0)).
Qed.

(** The characters covered by a match are passed over. *)
Lemma scan_skip (l : jsstring) : forall before t,
  scan id id r tmpl (length l) before (l ++ t)
  = scan id id r tmpl 0 (after before l) t.
Proof.
  induction l as [|c l IH]; intros before t; [reflexivity|].
  simpl. change (id c) with c. rewrite IH. now rewrite (after_cons before).
Qed.

(** A whole line, from its start. *)
Lemma scan_line (l t : jsstring) before :
  line_start before = true -> no_terminator l -> line_ends t -> t <> [] ->
  scan id id r tmpl 0 before (l ++ t)
  = pass_line hs f l ++ scan id id r tmpl 0 (after before l) t.
Proof.
  intros Hbol Hl Ht Hne. unfold pass_line.
  destruct l as [|c l].
  - destruct hs; [contradiction|]. reflexivity.
  - inversion Hl as [|? ? Hc Hl']; subst.
    destruct (starts_with hs (c :: l)) eqn:Hsw.
    + destruct (r_matches before (c :: l) t Hl Ht Hbol Hsw) as (x & Hx & Hpos & Hsub).
      change ((c :: l) ++ t) with (c :: (l ++ t)) in *.
      cbn [scan]. rewrite list_fmap_id, Hx, Hsub, Hpos. simpl.
      rewrite Nat.sub_0_r. change (id c) with c. rewrite scan_skip.
      now rewrite (after_cons before).
    + change ((c :: l) ++ t) with (c :: (l ++ t)).
      cbn [scan]. rewrite list_fmap_id.
      change (c :: (l ++ t)) with ((c :: l) ++ t).
      rewrite r_fails by (assumption || (right; exact Hsw)).
      simpl. f_equal. change (id c) with c. rewrite scan_inside by assumption.
      now rewrite (after_cons before).
Qed.

(** The last line: the end of the input is the end of the line. *)
Lemma scan_last_line (l : jsstring) before :
  line_start before = true -> no_terminator l ->
  scan id id r tmpl 0 before l = pass_line hs f l.
Proof.
  intros Hbol Hl. unfold pass_line.
  assert (Hend : forall b, scan id id r tmpl 0 b [] = []).
  { intros b. assert (H : match_at r b ([] ++ []) = None).
    { apply r_fails; [constructor|exact I|right; now destruct hs]. }
    simpl in H. simpl. now rewrite H. }
  destruct l as [|c l].
  - rewrite Hend. now destruct hs.
  - inversion Hl as [|? ? Hc Hl']; subst.
    destruct (starts_with hs (c :: l)) eqn:Hsw.
    + destruct (r_matches before (c :: l) [] Hl I Hbol Hsw) as (x & Hx & Hpos & Hsub).
      rewrite (right_id_L [] (++)) in Hx, Hsub.
      cbn [scan]. rewrite list_fmap_id, Hx, Hsub, Hpos. simpl.
      rewrite Nat.sub_0_r. change (id c) with c.
      pose proof (scan_skip l (Some c) []) as Hs.
      rewrite (right_id_L [] (++)) in Hs. rewrite Hs, Hend.
      apply (right_id_L [] (++)).
    + cbn [scan]. rewrite list_fmap_id.
      assert (Hno : match_at r before ((c :: l) ++ []) = None).
      { apply r_fails; [assumption|exact I|right; exact Hsw]. }
      rewrite (right_id_L [] (++)) in Hno. rewrite Hno.
      f_equal. change (id c) with c.
      pose proof (scan_inside l c [] Hc Hl' I) as Hs.
      rewrite (right_id_L [] (++)) in Hs. rewrite Hs, Hend.
      apply (right_id_L [] (++)).
Qed.

Lemma scan_lines (ls : list (N * jsstring)) : forall l before,
  line_start before = true -> no_terminator l -> lines_wf ls ->
  scan id id r tmpl 0 before (l ++ following ls)
  = pass_line hs f l ++ (tl ← ls; tl.1 :: pass_line hs f tl.2).
Proof.
  induction ls as [|[t l'] ls IH]; intros l before Hbol Hl Hwf.
  - unfold following. simpl. rewrite (right_id_L [] (++)).
    rewrite scan_last_line by assumption. now rewrite (right_id_L [] (++)).
  - inversion Hwf as [|? ? [Ht Hl'] Hwf']; subst. simpl in Ht, Hl'.
    unfold following. rewrite !bind_cons. fold (following ls). simpl fst. simpl snd.
    rewrite scan_line; [|assumption|assumption|exact Ht|discriminate].
    f_equal.
    change ((t :: l') ++ following ls) with (t :: (l' ++ following ls)).
    cbn [scan]. rewrite list_fmap_id.
    change (t :: (l' ++ following ls)) with ([] ++ (t :: (l' ++ following ls))).
    rewrite r_fails; [|constructor|exact Ht|right; now destruct hs].
    simpl. change (id t) with t. f_equal. apply IH; assumption.
Qed.
End LinePass.

(** ** Lines of a text *)

Lemma split_lines_spec (s : jsstring) :
  no_terminator (split_lines s).1 /\ lines_wf (split_lines s).2
  /\ s = (split_lines s).1 ++ following (split_lines s).2.
Proof.
  induction s as [|c s (Hl & Hls & Hs)].
  - repeat split; constructor.
  - cbn [split_lines]. destruct (split_lines s) as [l ls].
    cbn [fst snd] in *.
    destruct (is_line_terminator c) eqn:Hc; cbn [fst snd].
    + split; [constructor|]. split.
      * constructor; [now split|assumption].
      * unfold following in *. rewrite bind_cons. cbn [fst snd].
        rewrite Hs at 1. reflexivity.
    + split; [now constructor|]. split; [assumption|].
      rewrite Hs at 1. reflexivity.
Qed.

Lemma split_lines_following (ls : list (N * jsstring)) : forall l,
  no_terminator l -> lines_wf ls ->
  split_lines (l ++ following ls) = (l, ls).
Proof.
  induction ls as [|[t l'] ls IH]; intros l Hl Hwf.
  - unfold following. simpl. rewrite (right_id_L [] (++)).
    induction Hl as [|c l Hc Hl IHl]; [reflexivity|].
    simpl. rewrite IHl. now rewrite Hc.
  - inversion Hwf as [|? ? [Ht Hl'] Hwf']; subst. simpl in Ht, Hl'.
    unfold following. rewrite bind_cons. fold (following ls). simpl fst. simpl snd.
    induction Hl as [|c l Hc Hl IHl].
    + simpl. rewrite (IH l') by assumption. now rewrite Ht.
    + simpl. simpl in IHl. rewrite IHl. now rewrite Hc.
Qed.

Lemma join_lines_join (f g : jsstring -> jsstring) (p : jsstring * list (N * jsstring)) :
  (forall l, no_terminator l -> no_terminator (f l)) ->
  no_terminator p.1 -> lines_wf p.2 ->
  join_lines g (split_lines (join_lines f p)) = join_lines (g ∘ f) p.
Proof.
  intros Hf Hl Hwf. destruct p as [l ls]. simpl in *.
  assert (E : join_lines f (l, ls)
              = f l ++ following ((fun tl => (tl.1, f tl.2)) <$> ls)).
  { unfold join_lines, following. simpl. f_equal.
    rewrite list_fmap_bind. reflexivity. }
  rewrite E, split_lines_following.
  - unfold join_lines. simpl. f_equal. rewrite list_fmap_bind. reflexivity.
  - now apply Hf.
  - unfold lines_wf in *. rewrite Forall_fmap.
    eapply list.Forall_impl; [exact Hwf|]. simpl. intros tl [? ?]. split; auto.
Qed.

Lemma join_lines_ext (f g : jsstring -> jsstring) p :
  (forall l, f l = g l) -> join_lines f p = join_lines g p.
Proof.
  intros Hfg. unfold join_lines. rewrite Hfg. f_equal.
  apply list_bind_ext; [|reflexivity]. intros tl. now rewrite Hfg.
Qed.

(** ** The heading substitutions, line by line *)

Lemma substitute_around (a b : jsstring) (i : nat) x (s : jsstring) :
  substitute id [TLit a; TCap i; TLit b] x s
  = a ++ substitute_item id x s (TCap i) ++ b.
Proof.
  unfold substitute. rewrite !bind_cons. cbn [substitute_item].
  rewrite !list_fmap_id. f_equal. f_equal. apply (right_id_L [] (++)).
Qed.

Lemma heading_by_line (hashes name cls : string) (text : jsstring) :
  no_terminator (u hashes) ->
  heading id id hashes name cls text
  = join_lines (heading_pass hashes name cls) (split_lines text).
Proof.
  intros Hh.
  destruct (split_lines_spec text) as (Hl & Hls & Htext).
  unfold heading, replace_all. rewrite Htext at 1.
  set (hs := u hashes ++ u " ").
  assert (Hhs : no_terminator hs).
  { apply Forall_app. split; [assumption|repeat constructor]. }
  apply (scan_lines _ _ hs
           (fun l => heading_element name cls (drop (length hs) l))).
  - unfold hs. now destruct (u hashes).
  - intros before l t Hl' Ht Hbol Hsw.
    destruct (match_heading_some hashes before l t Hl' Ht Hbol Hsw)
      as (x & Hx & Hpos & Hcaps).
    exists x. split; [exact Hx|]. split; [exact Hpos|].
    rewrite substitute_around. unfold substitute_item.
    rewrite Hcaps. cbn [cap_lookup Nat.eqb]. fold hs.
    unfold heading_element. f_equal. f_equal.
    pose proof (starts_with_app _ _ Hsw) as El.
    assert (Hle : (length hs <= length l)%nat).
    { rewrite El, length_app. lia. }
    rewrite drop_app_le by assumption.
    rewrite <- length_drop. apply take_app_length.
  - intros before l t Hl' Ht Hor. now apply match_heading_none.
  - reflexivity.
  - assumption.
  - assumption.
Qed.

Lemma heading_pass_no_terminator (hashes name cls : string) (l : jsstring) :
  no_terminator (u name) -> no_terminator (u cls) ->
  no_terminator l -> no_terminator (heading_pass hashes name cls l).
Proof.
  intros Hn Hc Hl. unfold heading_pass.
  destruct (starts_with _ l); [|assumption].
  unfold heading_element, open_tag, no_terminator.
  rewrite !Forall_app. repeat split; try assumption; try (repeat constructor).
  now apply Forall_drop.
Qed.

Lemma heading_line_passes (l : jsstring) :
  heading_pass "#" "h1" "text-2xl font-extrabold"
    (heading_pass "##" "h2" "text-xl font-bold"
      (heading_pass "###" "h3" "text-lg font-semibold" l))
  = heading_line l.
Proof.
  unfold heading_line.
  unfold heading_pass at 3.
  change (u "###" ++ u " ") with (u "### ").
  destruct (starts_with (u "### ") l); [reflexivity|].
  unfold heading_pass at 2.
  change (u "##" ++ u " ") with (u "## ").
  destruct (starts_with (u "## ") l); [reflexivity|].
  reflexivity.
Qed.

Lemma headings_by_line (text : jsstring) :
  headings id id text = join_lines heading_line (split_lines text).
Proof.
  unfold headings.
  destruct (split_lines_spec text) as (Hl & Hls & _).
  rewrite (heading_by_line "###") by (repeat constructor).
  rewrite (heading_by_line "##") by (repeat constructor).
  rewrite join_lines_join; [|intros l; apply heading_pass_no_terminator;
                              repeat constructor|assumption|assumption].
  rewrite (heading_by_line "#") by (repeat constructor).
  rewrite join_lines_join; [| |assumption|assumption].
  - apply join_lines_ext. intros l. apply heading_line_passes.
  - intros l Hl'. unfold compose.
    repeat apply heading_pass_no_terminator; try assumption; repeat constructor.
Qed.

(** C5 (as amended): the three heading substitutions act line by line and
    replace every line that starts, at its first character, with "### ",
    "## " or "# " by a heading element of level 3, 2 or 1 holding the rest of
    the line, the pattern with three hashes being applied first and the one
    with a single hash last; other lines, among them the lines whose hashes
    come after white space, are left as they are.  The renderer turns
    "# H1\n## H2" into an h1 element followed by an h2 element. *)
Theorem headings_replace_lines_at_first_column :
  headings id id = (fun text =>
    heading id id "#" "h1" "text-2xl font-extrabold"
      (heading id id "##" "h2" "text-xl font-bold"
        (heading id id "###" "h3" "text-lg font-semibold" text)))
  /\ (forall text, headings id id text = join_lines heading_line (split_lines text))
  /\ renderMarkdown (u "# H1" ++ nl ++ u "## H2")
     = wrap id (heading_element "h1" "text-2xl font-extrabold" (u "H1") ++ nl
                ++ heading_element "h2" "text-xl font-bold" (u "H2")).
Proof.
  split; [reflexivity|]. split; [apply headings_by_line|].
  vm_compute. reflexivity.
Qed.

(** C5 (as stated) fails: a line whose "# " comes after two spaces is not
    replaced by a heading element. *)
Lemma heading_after_spaces_not_replaced :
  renderMarkdown (u "  # H1") = wrap id (u "  # H1")
  /\ ~ includes (renderMarkdown (u "  # H1")) (u "<h1").
Proof.
  split; [vm_compute; reflexivity|].
  rewrite includes_spec. vm_compute. discriminate.
Qed.

(** ** The renderer on small inputs *)

Example render_empty : renderMarkdown [] = [].
Proof. reflexivity. Qed.

Example render_italic_in_bold_markers :
  renderMarkdown (u "a *b* **c**")
  = wrap id (u "a <em>b</em> <strong>c</strong>").
Proof. vm_compute. reflexivity. Qed.

Example render_inline_code_escaped :
  renderMarkdown (u "`x<y` & z")
  = wrap id (open_tag "code" "rounded bg-gray-200 px-1" ++ u "x&lt;y</code> &amp; z").
Proof. vm_compute. reflexivity. Qed.

Example render_list_items_not_merged :
  renderMarkdown (u "- a" ++ nl ++ u "- b")
  = wrap id (u "<ul><li>a</li></ul>" ++ nl ++ u "<ul><li>b</li></ul>").
Proof. vm_compute. reflexivity. Qed.

Example render_paragraph_break :
  renderMarkdown (u "a" ++ nl ++ nl ++ nl ++ u "b") = wrap id (u "a</p><p>b").
Proof. vm_compute. reflexivity. Qed.

Example render_four_hashes_is_no_heading :
  renderMarkdown (u "#### x") = wrap id (u "#### x").
Proof. vm_compute. reflexivity. Qed.

(** ** JSON strings: reading what [quote] writes *)

Lemma unhex_hex_digit (d : N) : (d < 16)%N -> unhex (hex_digit d) = Some d.
Proof.
  intros Hd. unfold hex_digit, unhex.
  destruct (N.ltb_spec d 10).
  - replace ((48 <=? 48 + d)%N && (48 + d <=? 57)%N) with true.
    + f_equal. lia.
    + symmetry. apply andb_true_iff. split; apply N.leb_le; lia.
  - replace ((48 <=? 87 + d)%N && (87 + d <=? 57)%N) with false.
    + replace ((97 <=? 87 + d)%N && (87 + d <=? 102)%N) with true.
      * f_equal. lia.
      * symmetry. apply andb_true_iff. split; apply N.leb_le; lia.
    + symmetry. apply andb_false_iff. right. apply N.leb_gt. lia.
Qed.

Lemma unhex4_hex4 (c : N) :
  (c < 65536)%N ->
  unhex4 (hex_digit (c / 4096 mod 16)) (hex_digit (c / 256 mod 16))
         (hex_digit (c / 16 mod 16)) (hex_digit (c mod 16)) = Some c.
Proof.
  intros Hc. unfold unhex4.
  rewrite !unhex_hex_digit by (apply N.mod_lt; discriminate).
  f_equal.
  assert (E1 : (c / 256 = c / 16 / 16)%N) by now rewrite N.Div0.div_div.
  assert (E2 : (c / 4096 = c / 256 / 16)%N) by now rewrite N.Div0.div_div.
  assert (H0 : (c = 16 * (c / 16) + c mod 16)%N) by now apply N.div_mod.
  assert (H1 : (c / 16 = 16 * (c / 256) + (c / 16) mod 16)%N)
    by (rewrite E1; now apply N.div_mod).
  assert (H2 : (c / 256 = 16 * (c / 4096) + (c / 256) mod 16)%N)
    by (rewrite E2; now apply N.div_mod).
  assert (H3 : (c / 4096 < 16)%N) by (apply N.Div0.div_lt_upper_bound; lia).
  rewrite (N.mod_small (c / 4096) 16) by assumption.
  lia.
Qed.

(** What [unquote_chars] makes of the text written for one character. *)
Lemma unquote_quote_char (c : N) (t : jsstring) :
  unquote_chars (quote_char c ++ t) = prepend c (unquote_chars t).
Proof.
  unfold quote_char.
  destruct (N.eqb_spec c 8) as [->|H8]; [reflexivity|].
  destruct (N.eqb_spec c 9) as [->|H9]; [reflexivity|].
  destruct (N.eqb_spec c 10) as [->|H10]; [reflexivity|].
  destruct (N.eqb_spec c 12) as [->|H12]; [reflexivity|].
  destruct (N.eqb_spec c 13) as [->|H13]; [reflexivity|].
  destruct (N.eqb_spec c 34) as [->|H34]; [reflexivity|].
  destruct (N.eqb_spec c backslash) as [->|H92]; [reflexivity|].
  destruct ((c <? 32)%N || is_high c || is_low c) eqn:E.
  - change ((backslash :: ch "u" :: hex4 c) ++ t)
      with (backslash :: ch "u" :: hex_digit (c / 4096 mod 16)
              :: hex_digit (c / 256 mod 16) :: hex_digit (c / 16 mod 16)
              :: hex_digit (c mod 16) :: t).
    cbn [unquote_chars]. change (backslash =? 34)%N with false.
    change (backslash =? backslash)%N with true. cbv iota.
    change (ch "u" =? ch "u")%N with true. cbv iota.
    rewrite unhex4_hex4; [reflexivity|].
    unfold is_high, is_low in E.
    repeat (apply orb_true_iff in E as [E|E]).
    + apply N.ltb_lt in E. lia.
    + apply andb_true_iff in E as [_ E]. apply N.leb_le in E. lia.
    + apply andb_true_iff in E as [_ E]. apply N.leb_le in E. lia.
  - apply orb_false_iff in E as [E _]. apply orb_false_iff in E as [E _].
    change ([c] ++ t) with (c :: t). cbn [unquote_chars].
    rewrite (proj2 (N.eqb_neq c 34)) by assumption.
    rewrite (proj2 (N.eqb_neq c backslash)) by assumption.
    now rewrite E.
Qed.

Lemma unquote_quote_chars_bounded (n : nat) : forall s rest,
  (length s <= n)%nat ->
  unquote_chars (quote_chars s ++ 34%N :: rest) = Some (s, rest).
Proof.
  induction n as [|n IH]; intros s rest Hlen.
  - destruct s; [reflexivity|simpl in Hlen; lia].
  - destruct s as [|c s]; [reflexivity|].
    assert (Hstep : unquote_chars ((quote_char c ++ quote_chars s) ++ 34%N :: rest)
                    = Some (c :: s, rest)).
    { rewrite <- (assoc_L (++)), unquote_quote_char.
      rewrite IH by (simpl in Hlen; lia). reflexivity. }
    cbn [quote_chars]. destruct (is_high c) eqn:Eh; [|exact Hstep].
    destruct s as [|d s].
    + rewrite <- (right_id_L [] (++) (quote_char c)). exact Hstep.
    + destruct (is_low d) eqn:El; [|exact Hstep].
      change ((c :: d :: quote_chars s) ++ 34%N :: rest)
        with (c :: d :: (quote_chars s ++ 34%N :: rest)).
      unfold is_high in Eh. unfold is_low in El.
      apply andb_true_iff in Eh as [Eh1 Eh2]. apply andb_true_iff in El as [El1 El2].
      apply N.leb_le in Eh1, Eh2, El1, El2.
      cbn [unquote_chars].
      rewrite (proj2 (N.eqb_neq c 34)) by lia.
      rewrite (proj2 (N.eqb_neq c backslash)) by (unfold backslash; lia).
      rewrite (proj2 (N.ltb_ge c 32)) by lia.
      rewrite (proj2 (N.eqb_neq d 34)) by lia.
      rewrite (proj2 (N.eqb_neq d backslash)) by (unfold backslash; lia).
      rewrite (proj2 (N.ltb_ge d 32)) by lia.
      rewrite IH by (simpl in Hlen; lia). reflexivity.
Qed.

Lemma unquote_quote (s rest : jsstring) :
  unquote_chars (quote_chars s ++ 34%N :: rest) = Some (s, rest).
Proof. now apply (unquote_quote_chars_bounded (length s)). Qed.

(** ** JSON numbers: reading what [stringify_number] writes *)

Lemma read_digits_digits (d : Decimal.uint) (rest : jsstring) :
  ends_number rest -> read_digits (digits d ++ rest) = (d, rest).
Proof.
  intros Hrest.
  induction d as [|d IH|d IH|d IH|d IH|d IH|d IH|d IH|d IH|d IH|d IH];
    try (cbn [digits app read_digits]; simpl is_digit; cbv iota;
         rewrite IH; reflexivity).
  simpl. destruct rest as [|c rest]; [reflexivity|].
  destruct Hrest as [Hd _]. simpl. now rewrite Hd.
Qed.

Lemma to_int_normal (n : Z) :
  match Z.to_int n with
  | Decimal.Pos d => Decimal.unorm d = d
  | Decimal.Neg d => Decimal.unorm d = d
  end.
Proof.
  pose proof (DecimalZ.to_of (Z.to_int n)) as H. rewrite DecimalZ.of_to in H.
  destruct (Z.to_int n) as [d|d]; simpl in H.
  - now injection H.
  - destruct (Decimal.nzhead d) eqn:E; try discriminate;
      injection H as H; rewrite DecimalFacts.unorm_nzhead;
      rewrite E; congruence.
Qed.

Lemma digits_head (d : Decimal.uint) :
  Decimal.unorm d = d ->
  exists c t, digits d = c :: t /\ is_digit c = true.
Proof.
  destruct d; intros H; try discriminate; simpl; eauto.
Qed.

Lemma parse_digits_digits (negative : bool) (d : Decimal.uint) (rest : jsstring) :
  Decimal.unorm d = d -> ends_number rest ->
  parse_digits negative (digits d ++ rest)
  = Some (Z.of_int (if negative then Decimal.Neg d else Decimal.Pos d), rest).
Proof.
  intros Hd Hrest. unfold parse_digits. rewrite read_digits_digits by assumption.
  destruct (Decimal.uint_eq_dec (Decimal.unorm d) d); [|contradiction].
  destruct rest as [|c rest]; [reflexivity|].
  destruct Hrest as [_ Hc]. now rewrite Hc.
Qed.

Lemma parse_stringify_number (n : Z) (rest : jsstring) :
  ends_number rest ->
  parse_number (stringify_number n ++ rest) = Some (n, rest).
Proof.
  intros Hrest. unfold stringify_number.
  pose proof (to_int_normal n) as Hn. pose proof (DecimalZ.of_to n) as Hof.
  destruct (Z.to_int n) as [d|d].
  - destruct (digits_head d Hn) as (c & t & Hd & Hc).
    assert (Hminus : (c =? ch "-")%N = false).
    { unfold is_digit in Hc. apply andb_true_iff in Hc as [Hc _].
      apply N.leb_le in Hc. apply N.eqb_neq. intros ->.
      change (ch "-") with 45%N in Hc. lia. }
    assert (Hp : parse_number (digits d ++ rest) = parse_digits false (digits d ++ rest)).
    { rewrite Hd. change (parse_number ((c :: t) ++ rest))
        with (if (c =? ch "-")%N then parse_digits true (t ++ rest)
              else parse_digits false ((c :: t) ++ rest)).
      now rewrite Hminus. }
    rewrite Hp, parse_digits_digits by assumption. now rewrite Hof.
  - change (parse_number ((ch "-" :: digits d) ++ rest))
      with (parse_digits true (digits d ++ rest)).
    rewrite parse_digits_digits by assumption. now rewrite Hof.
Qed.

(** ** JSON values: induction, white space, first characters *)

Lemma jsval_nested_ind (P : jsval -> Prop) :
  P JNull -> (forall b, P (JBool b)) -> (forall n, P (JNum n)) ->
  (forall s, P (JStr s)) ->
  (forall l, Forall P l -> P (JArr l)) ->
  (forall o, Forall (fun kv => P kv.2) o -> P (JObj o)) ->
  forall v, P v.
Proof.
  intros Hnull Hbool Hnum Hstr Harr Hobj.
  fix IH 1. intros [| b | n | s | l | o].
  - exact Hnull.
  - apply Hbool.
  - apply Hnum.
  - apply Hstr.
  - apply Harr. induction l as [|x l IHl]; constructor; [apply IH|exact IHl].
  - apply Hobj. induction o as [|[k x] o IHo]; constructor; [apply IH|exact IHo].
Qed.

Lemma elems_fix (ind : nat) (l : list jsval) :
  (fix elems (l : list jsval) : jsstring :=
     match l with
     | [] => []
     | [x] => stringify ind x
     | x :: l' => stringify ind x ++ separator ind ++ elems l'
     end) l
  = stringify_elems ind l.
Proof.
  induction l as [|y [|z l] IH]; [reflexivity|reflexivity|].
  transitivity (stringify ind y ++ separator ind ++ stringify_elems ind (z :: l));
    [|reflexivity].
  rewrite <- IH. reflexivity.
Qed.

Lemma members_fix (ind : nat) (o : list (jsstring * jsval)) :
  (fix members (o : list (jsstring * jsval)) : jsstring :=
     match o with
     | [] => []
     | [(k, x)] => quote k ++ u ": " ++ stringify ind x
     | (k, x) :: o' =>
         quote k ++ u ": " ++ stringify ind x ++ separator ind ++ members o'
     end) o
  = stringify_members ind o.
Proof.
  induction o as [|[k y] [|[k' z] o] IH]; [reflexivity|reflexivity|].
  transitivity (quote k ++ u ": " ++ stringify ind y ++ separator ind
                ++ stringify_members ind ((k', z) :: o)); [|reflexivity].
  rewrite <- IH. reflexivity.
Qed.

Lemma stringify_JArr (ind : nat) (x : jsval) (l : list jsval) :
  stringify ind (JArr (x :: l))
  = u "[" ++ nl ++ pad (ind + 2) ++ stringify_elems (ind + 2) (x :: l)
    ++ nl ++ pad ind ++ u "]".
Proof. rewrite <- elems_fix. reflexivity. Qed.

Lemma stringify_JObj (ind : nat) (kx : jsstring * jsval) (o : list (jsstring * jsval)) :
  stringify ind (JObj (kx :: o))
  = u "{" ++ nl ++ pad (ind + 2) ++ stringify_members (ind + 2) (kx :: o)
    ++ nl ++ pad ind ++ u "}".
Proof. rewrite <- members_fix. reflexivity. Qed.

Lemma skip_ws_app (ws s : jsstring) :
  whitespace ws -> skip_ws (ws ++ s) = skip_ws s.
Proof.
  induction 1 as [|c ws Hc Hws IH]; [reflexivity|].
  simpl. now rewrite Hc.
Qed.

Lemma skip_ws_cons (c : N) (s : jsstring) :
  is_json_ws c = false -> skip_ws (c :: s) = c :: s.
Proof. intros H. simpl. now rewrite H. Qed.

Lemma whitespace_nl_pad (n : nat) : whitespace (nl ++ pad n).
Proof.
  apply Forall_app. split; [repeat constructor|].
  unfold pad. apply Forall_replicate. reflexivity.
Qed.

Lemma stringify_number_head (n : Z) :
  exists c t, stringify_number n = c :: t
              /\ ((c =? ch "-")%N || is_digit c) = true.
Proof.
  unfold stringify_number. pose proof (to_int_normal n) as Hn.
  destruct (Z.to_int n) as [d|d].
  - destruct (digits_head d Hn) as (c & t & -> & Hc).
    exists c, t. split; [reflexivity|]. rewrite Hc. apply orb_true_r.
  - eexists _, _. split; reflexivity.
Qed.

Lemma stringify_head (ind : nat) (v : jsval) :
  exists c t, stringify ind v = c :: t /\ starts_value c = true.
Proof.
  destruct v as [| [|] | n | s | [|x l] | [|kx o]];
    try (eexists _, _; split; reflexivity).
  destruct (stringify_number_head n) as (c & t & E & Hc).
  exists c, t. split; [exact E|]. unfold starts_value.
  apply orb_true_iff in Hc as [Hc|Hc]; rewrite Hc;
    repeat (reflexivity || rewrite orb_true_r || rewrite orb_true_l).
Qed.

Lemma starts_value_not_ws (c : N) : starts_value c = true -> is_json_ws c = false.
Proof.
  unfold starts_value, is_json_ws, is_digit. intros H.
  repeat (apply orb_true_iff in H as [H|H]);
    try (apply N.eqb_eq in H; subst; reflexivity).
  apply andb_true_iff in H as [H1 H2]. apply N.leb_le in H1, H2.
  repeat (apply orb_false_iff; split); apply N.eqb_neq; lia.
Qed.

(** ** The parser on the text of a value *)

Lemma parse_value_ws (fuel : nat) (ws s : jsstring) :
  whitespace ws -> parse_value fuel (ws ++ s) = parse_value fuel s.
Proof.
  intros Hws. destruct fuel as [|f]; [reflexivity|].
  cbn [parse_value]. now rewrite skip_ws_app.
Qed.

Lemma parse_elems_ws (fuel : nat) (ws s : jsstring) :
  whitespace ws -> parse_elems fuel (ws ++ s) = parse_elems fuel s.
Proof.
  intros Hws. destruct fuel as [|f]; [reflexivity|].
  cbn [parse_elems]. now rewrite parse_value_ws.
Qed.

Lemma parse_members_ws (fuel : nat) (ws s : jsstring) :
  whitespace ws -> parse_members fuel (ws ++ s) = parse_members fuel s.
Proof.
  intros Hws. destruct fuel as [|f]; [reflexivity|].
  cbn [parse_members]. now rewrite skip_ws_app.
Qed.

Lemma parse_value_number (f : nat) (c : N) (r : jsstring) :
  ((c =? ch "-")%N || is_digit c) = true ->
  parse_value (S f) (c :: r)
  = match parse_number (c :: r) with
    | Some (n, r') => Some (JNum n, r')
    | None => None
    end.
Proof.
  intros Hc.
  assert (Hc' : c = ch "-" \/ (48 <= c <= 57)%N).
  { apply orb_true_iff in Hc as [Hc|Hc].
    - left. now apply N.eqb_eq.
    - right. unfold is_digit in Hc. apply andb_true_iff in Hc as [H1 H2].
      apply N.leb_le in H1, H2. lia. }
  destruct Hc' as [->|Hd]; [reflexivity|].
  cbn [parse_value]. rewrite skip_ws_cons.
  2:{ unfold is_json_ws. repeat (apply orb_false_iff; split); apply N.eqb_neq; lia. }
  rewrite (proj2 (N.eqb_neq c 34)) by lia.
  change (ch "[") with 91%N. change (ch "{") with 123%N.
  rewrite (proj2 (N.eqb_neq c 91)) by lia.
  rewrite (proj2 (N.eqb_neq c 123)) by lia.

  change (starts_with (u "null") (c :: r))
    with ((110 =? c)%N && starts_with (u "ull") r).
  change (starts_with (u "true") (c :: r))
    with ((116 =? c)%N && starts_with (u "rue") r).
  change (starts_with (u "false") (c :: r))
    with ((102 =? c)%N && starts_with (u "alse") r).
  rewrite (proj2 (N.eqb_neq 110 c)) by lia.
  rewrite (proj2 (N.eqb_neq 116 c)) by lia.
  rewrite (proj2 (N.eqb_neq 102 c)) by lia.
  reflexivity.
Qed.

Lemma parse_value_array (f : nat) (r : jsstring) (d : N) (r' : jsstring) :
  skip_ws r = d :: r' -> d <> ch "]" ->
  parse_value (S f) (ch "[" :: r)
  = match parse_elems f r with
    | Some (l, r'') => Some (JArr l, r'')
    | None => None
    end.
Proof.
  intros Hr Hd. cbn [parse_value].
  change (skip_ws (ch "[" :: r)) with (ch "[" :: r). cbv iota.
  change (ch "[" =? 34)%N with false. change (ch "[" =? ch "[")%N with true.
  cbv iota. rewrite Hr. now rewrite (proj2 (N.eqb_neq d (ch "]"))).
Qed.

Lemma parse_value_object (f : nat) (r : jsstring) (d : N) (r' : jsstring) :
  skip_ws r = d :: r' -> d <> ch "}" ->
  parse_value (S f) (ch "{" :: r)
  = match parse_members f r with
    | Some (ms, r'') => Some (JObj (obj_of_members ms), r'')
    | None => None
    end.
Proof.
  intros Hr Hd. cbn [parse_value].
  change (skip_ws (ch "{" :: r)) with (ch "{" :: r). cbv iota.
  change (ch "{" =? 34)%N with false. change (ch "{" =? ch "[")%N with false.
  change (ch "{" =? ch "{")%N with true.
  cbv iota. rewrite Hr. now rewrite (proj2 (N.eqb_neq d (ch "}"))).
Qed.

Lemma obj_set_fresh (k : jsstring) (v : jsval) (o : list (jsstring * jsval)) :
  k ∉ o.*1 -> obj_set k v o = o ++ [(k, v)].
Proof.
  induction o as [|[k' v'] o IH]; intros Hk; [reflexivity|].
  simpl in *. rewrite not_elem_of_cons in Hk. destruct Hk as [Hne Hk].
  rewrite decide_False by congruence. now rewrite IH.
Qed.

Lemma obj_of_members_fold (ms : list (jsstring * jsval)) : forall acc,
  NoDup ((acc ++ ms).*1) ->
  fold_left (fun o kv => obj_set kv.1 kv.2 o) ms acc = acc ++ ms.
Proof.
  induction ms as [|[k v] ms IH]; intros acc Hnd.
  - now rewrite (right_id_L [] (++)).
  - simpl. rewrite obj_set_fresh.
    + rewrite IH; rewrite <- (assoc_L (++)); [reflexivity|exact Hnd].
    + rewrite fmap_app in Hnd. apply list.NoDup_app in Hnd as (_ & Hdisj & _).
      intros Hin. apply (Hdisj k Hin). left.
Qed.

Lemma obj_of_members_NoDup (o : list (jsstring * jsval)) :
  NoDup (o.*1) -> obj_of_members o = o.
Proof. intros H. unfold obj_of_members. now rewrite obj_of_members_fold. Qed.

Lemma length_separator (ind : nat) : length (separator ind) = (2 + ind)%nat.
Proof. unfold separator, pad. simpl. now rewrite length_replicate. Qed.

Lemma skip_ws_closing (ind : nat) (c : N) (rest : jsstring) :
  is_json_ws c = false ->
  skip_ws (nl ++ pad ind ++ c :: rest) = c :: rest.
Proof.
  intros Hc. rewrite (assoc_L (++)), skip_ws_app by apply whitespace_nl_pad.
  now apply skip_ws_cons.
Qed.

(** The elements of an array, up to the closing bracket. *)
Lemma parse_stringify_elems (l : list jsval) :
  Forall reads_back l -> l <> [] ->
  forall f ws ind ind0 rest,
    whitespace ws ->
    (2 + length (stringify_elems ind l) <= f)%nat ->
    parse_elems f (ws ++ stringify_elems ind l ++ nl ++ pad ind0 ++ ch "]" :: rest)
    = Some (l, rest).
Proof.
  induction 1 as [|x l Hx Hl IH]; intros Hne f ws ind ind0 rest Hws Hf;
    [contradiction|].
  destruct f as [|f]; [lia|].
  destruct l as [|y l].
  - cbn [stringify_elems] in *. cbn [parse_elems].
    rewrite (Hx ind f ws) by (assumption || (split; reflexivity) || lia).
    rewrite skip_ws_closing by reflexivity. reflexivity.
  - change (stringify_elems ind (x :: y :: l))
      with (stringify ind x ++ separator ind ++ stringify_elems ind (y :: l)) in *.
    rewrite !length_app, length_separator in Hf.
    rewrite <- !(assoc_L (++)). cbn [parse_elems].
    rewrite (Hx ind f ws) by (assumption || (split; reflexivity) || lia).
    change (skip_ws (separator ind ++ ?t)) with (ch "," :: (nl ++ pad ind) ++ t).
    cbv iota. change (ch "," =? ch ",")%N with true. cbv iota.
    rewrite (IH ltac:(discriminate) f (nl ++ pad ind) ind ind0 rest)
      by (apply whitespace_nl_pad || lia).
    reflexivity.
Qed.

(** The members of an object, up to the closing brace. *)
Lemma parse_stringify_members (o : list (jsstring * jsval)) :
  Forall (fun kv => reads_back kv.2) o -> o <> [] ->
  forall f ws ind ind0 rest,
    whitespace ws ->
    (2 + length (stringify_members ind o) <= f)%nat ->
    parse_members f (ws ++ stringify_members ind o ++ nl ++ pad ind0 ++ ch "}" :: rest)
    = Some (o, rest).
Proof.
  induction 1 as [|[k x] o Hx Ho IH]; intros Hne f ws ind ind0 rest Hws Hf;
    [contradiction|].
  destruct f as [|f]; [lia|]. simpl in Hx.
  rewrite parse_members_ws by assumption.
  assert (Hkey : forall t,
    parse_members (S f) (quote k ++ u ": " ++ t)
    = match parse_value f (u " " ++ t) with
      | Some (v, r3) =>
          match skip_ws r3 with
          | c :: r4 =>
              if (c =? ch ",")%N then
                match parse_members f r4 with
                | Some (ms, r5) => Some ((k, v) :: ms, r5)
                | None => None
                end
              else if (c =? ch "}")%N then Some ([(k, v)], r4)
              else None
          | [] => None
          end
      | None => None
      end).
  { intros t. unfold quote. cbn [parse_members].
    change (skip_ws ((34%N :: quote_chars k ++ [34%N]) ++ u ": " ++ t))
      with (34%N :: (quote_chars k ++ [34%N]) ++ u ": " ++ t).
    cbv iota. change (34 =? 34)%N with true. cbv iota.
    rewrite <- (assoc_L (++)).
    change ([34%N] ++ u ": " ++ t) with (34%N :: u ": " ++ t).
    rewrite unquote_quote. reflexivity. }
  destruct o as [|[k' y] o].
  - cbn [stringify_members] in *. rewrite !length_app in Hf.
    rewrite <- !(assoc_L (++)), Hkey.
    rewrite (Hx ind f (u " ")) by
      (repeat constructor || (split; reflexivity) || lia).
    rewrite skip_ws_closing by reflexivity. reflexivity.
  - change (stringify_members ind ((k, x) :: (k', y) :: o))
      with (quote k ++ u ": " ++ stringify ind x ++ separator ind
            ++ stringify_members ind ((k', y) :: o)) in *.
    rewrite !length_app, length_separator in Hf.
    rewrite <- !(assoc_L (++)), Hkey.
    rewrite (Hx ind f (u " ")) by
      (repeat constructor || (split; reflexivity) || lia).
    change (skip_ws (separator ind ++ ?t)) with (ch "," :: (nl ++ pad ind) ++ t).
    cbv iota. change (ch "," =? ch ",")%N with true. cbv iota.
    rewrite (IH ltac:(discriminate) f (nl ++ pad ind) ind ind0 rest)
      by (apply whitespace_nl_pad || lia).
    reflexivity.
Qed.

Lemma starts_value_not_closing (c : N) :
  starts_value c = true -> c <> ch "]" /\ c <> ch "}".
Proof.
  unfold starts_value, is_digit. intros H.
  repeat (apply orb_true_iff in H as [H|H]);
    try (apply N.eqb_eq in H; subst; split; discriminate).
  apply andb_true_iff in H as [H1 H2]. apply N.leb_le in H1, H2.
  change (ch "]") with 93%N. change (ch "}") with 125%N. lia.
Qed.

Lemma stringify_elems_head (ind : nat) (x : jsval) (l : list jsval) :
  exists c t, stringify_elems ind (x :: l) = c :: t /\ starts_value c = true.
Proof.
  destruct (stringify_head ind x) as (c & t & E & Hc).
  destruct l as [|y l].
  - exists c, t. split; assumption.
  - exists c, (t ++ separator ind ++ stringify_elems ind (y :: l)).
    split; [|assumption].
    change (stringify_elems ind (x :: y :: l))
      with (stringify ind x ++ separator ind ++ stringify_elems ind (y :: l)).
    now rewrite E.
Qed.

Lemma stringify_members_head (ind : nat) (kx : jsstring * jsval)
    (o : list (jsstring * jsval)) :
  exists t, stringify_members ind (kx :: o) = 34%N :: t.
Proof. destruct kx as [k x]. destruct o as [|[k' y] o]; eexists; reflexivity. Qed.

(** Every value whose objects have distinct keys is read back from its
    text. *)
Lemma parse_stringify (v : jsval) : wf_js v -> reads_back v.
Proof.
  induction v as [| b | n | s | l IH | o IH] using jsval_nested_ind;
    intros Hwf ind fuel ws rest Hws Hrest Hfuel;
    (destruct fuel as [|f]; [lia|]);
    rewrite parse_value_ws by assumption.
  - reflexivity.
  - destruct b; reflexivity.
  - cbn [stringify] in *.
    destruct (stringify_number_head n) as (c & t & E & Hc).
    rewrite E at 1. change ((c :: t) ++ rest) with (c :: (t ++ rest)).
    rewrite parse_value_number by assumption.
    change (c :: (t ++ rest)) with ((c :: t) ++ rest).
    rewrite <- E, parse_stringify_number by assumption. reflexivity.
  - cbn [stringify parse_value]. unfold quote.
    change (skip_ws ((34%N :: quote_chars s ++ [34%N]) ++ rest))
      with (34%N :: (quote_chars s ++ [34%N]) ++ rest).
    cbv iota. change (34 =? 34)%N with true. cbv iota.
    rewrite <- (assoc_L (++)). change ([34%N] ++ rest) with (34%N :: rest).
    now rewrite unquote_quote.
  - destruct l as [|x l]; [reflexivity|].
    inversion Hwf as [| | | |? Hl|]; subst.
    rewrite stringify_JArr in *.
    rewrite !length_app in Hfuel. change (length (u "[")) with 1%nat in Hfuel.
    change (length nl) with 1%nat in Hfuel.
    rewrite <- !(assoc_L (++)).
    change (u "[" ++ ?t) with (ch "[" :: t).
    destruct (stringify_elems_head (ind + 2) x l) as (c & t & E & Hc).
    rewrite (parse_value_array f _ c
               (t ++ nl ++ pad ind ++ u "]" ++ rest)).
    + change (u "]" ++ rest) with (ch "]" :: rest).
      rewrite (assoc_L (++) nl).
      rewrite parse_stringify_elems;
        [reflexivity| |discriminate|apply whitespace_nl_pad|lia].
      apply list.Forall_forall. intros y Hy.
      rewrite list.Forall_forall in IH, Hl. apply IH; [assumption|now apply Hl].
    + rewrite (assoc_L (++) nl), skip_ws_app by apply whitespace_nl_pad.
      rewrite E. apply skip_ws_cons. now apply starts_value_not_ws.
    + now apply starts_value_not_closing.
  - destruct o as [|kx o]; [reflexivity|].
    inversion Hwf as [| | | | |? Hnd Ho]; subst.
    rewrite stringify_JObj in *.
    rewrite !length_app in Hfuel. change (length (u "{")) with 1%nat in Hfuel.
    change (length nl) with 1%nat in Hfuel.
    rewrite <- !(assoc_L (++)).
    change (u "{" ++ ?t) with (ch "{" :: t).
    destruct (stringify_members_head (ind + 2) kx o) as (t & E).
    rewrite (parse_value_object f _ 34%N
               (t ++ nl ++ pad ind ++ u "}" ++ rest)).
    + change (u "}" ++ rest) with (ch "}" :: rest).
      rewrite (assoc_L (++) nl).
      rewrite parse_stringify_members;
        [now rewrite obj_of_members_NoDup| |discriminate|apply whitespace_nl_pad|lia].
      apply list.Forall_forall. intros y Hy.
      rewrite list.Forall_forall in IH, Ho. apply IH; [assumption|now apply Ho].
    + rewrite (assoc_L (++) nl), skip_ws_app by apply whitespace_nl_pad.
      now rewrite E.
    + discriminate.
Qed.

Lemma JSON_parse_stringify (v : jsval) :
  wf_js v -> JSON_parse (stringify 0 v) = Some v.
Proof.
  intros Hwf. unfold JSON_parse.
  pose proof (parse_stringify v Hwf 0%nat (S (length (stringify 0 v))) [] []
                ltac:(constructor) I ltac:(lia)) as H.
  rewrite (right_id_L [] (++)) in H. simpl app in H. rewrite H. reflexivity.
Qed.

(** ** The workspace as a value: distinct keys *)

Lemma fst_fmap_snd {A B C} (g : B -> C) (l : list (A * B)) :
  ((fun kv => (kv.1, g kv.2)) <$> l).*1 = l.*1.
Proof. rewrite <- list_fmap_compose. reflexivity. Qed.

Lemma wf_js_strings (l : list jsstring) : wf_js (JArr (JStr <$> l)).
Proof.
  constructor. apply Forall_fmap, list.Forall_forall. intros s _. constructor.
Qed.

Lemma wf_js_card (card : jsobj) : wf_js (js_of_card card).
Proof.
  constructor.
  - rewrite fst_fmap_snd. apply NoDup_fst_map_to_list.
  - apply Forall_fmap, list.Forall_forall. intros [k v] _. simpl.
    destruct v; constructor.
Qed.

Lemma wf_js_column (c : Column) : wf_js (js_of_column c).
Proof.
  constructor.
  - apply (bool_decide_eq_true_1 _). vm_compute. reflexivity.
  - repeat (apply List.Forall_cons || apply List.Forall_nil); simpl.
    + constructor.
    + constructor.
    + apply wf_js_strings.
Qed.

Lemma wf_js_board (b : Board) : wf_js (js_of_board b).
Proof.
  constructor.
  - apply (bool_decide_eq_true_1 _). vm_compute. reflexivity.
  - repeat (apply List.Forall_cons || apply List.Forall_nil); simpl.
    + constructor. apply Forall_fmap, list.Forall_forall.
      intros c _. apply wf_js_column.
    + constructor.
      * rewrite fst_fmap_snd. apply NoDup_fst_map_to_list.
      * apply Forall_fmap, list.Forall_forall. intros [k card] _. apply wf_js_card.
Qed.

Lemma wf_js_project (p : Project) : wf_js (js_of_project p).
Proof.
  constructor.
  - apply (bool_decide_eq_true_1 _). vm_compute. reflexivity.
  - repeat (apply List.Forall_cons || apply List.Forall_nil); simpl.
    + constructor.
    + constructor.
    + constructor.
    + destruct (image p); constructor.
    + apply wf_js_strings.
    + apply wf_js_board.
Qed.

Lemma wf_js_user (x : User) : wf_js (js_of_user x).
Proof.
  constructor.
  - apply (bool_decide_eq_true_1 _). vm_compute. reflexivity.
  - repeat (apply List.Forall_cons || apply List.Forall_nil); simpl; constructor.
Qed.

Lemma wf_js_workspace (d : Workspace) : wf_js (js_of_workspace d).
Proof.
  constructor.
  - apply (bool_decide_eq_true_1 _). vm_compute. reflexivity.
  - repeat (apply List.Forall_cons || apply List.Forall_nil); simpl.
    + constructor.
      * apply (bool_decide_eq_true_1 _). vm_compute. reflexivity.
      * repeat (apply List.Forall_cons || apply List.Forall_nil); simpl; constructor.
    + constructor. apply Forall_fmap, list.Forall_forall.
      intros x _. apply wf_js_user.
    + constructor. apply Forall_fmap, list.Forall_forall.
      intros p _. apply wf_js_project.
Qed.

(** ** Export and import *)

(** The value of a workspace passes the test [obj && obj.projects], with
    or without projects: an array is truthy even when it is empty. *)
Lemma workspace_passes_check (d : Workspace) :
  truthy (Some (js_of_workspace d)) && truthy (get_projects (js_of_workspace d))
  = true.
Proof. reflexivity. Qed.

(** Any value with distinct keys that passes the test comes back. *)
Lemma import_export_value (v data : jsval) :
  wf_js v -> truthy (Some v) && truthy (get_projects v) = true ->
  importJSON JSON_parse (exportJSON v) data = (v, []).
Proof.
  intros Hwf Hcheck. unfold importJSON, exportJSON.
  rewrite JSON_parse_stringify by assumption. now rewrite Hcheck.
Qed.

Lemma import_export_any (d : Workspace) (data : jsval) :
  importJSON JSON_parse (exportJSON (js_of_workspace d)) data
  = (js_of_workspace d, []).
Proof.
  apply import_export_value;
    [apply wf_js_workspace|apply workspace_passes_check].
Qed.

(** C4: for every workspace with at least one project, importing the text
    that the export writes for it sets the state to that workspace and
    shows no alert. *)
Theorem import_export_roundtrip (d : Workspace) (data : jsval) :
  projects d <> [] ->
  importJSON JSON_parse (exportJSON (js_of_workspace d)) data
  = (js_of_workspace d, []).
Proof. intros _. apply import_export_any. Qed.

Lemma import_export_roundtrip_witness :
  importJSON JSON_parse (exportJSON (js_of_workspace (sampleSeed 1700000000000))) JNull
  = (js_of_workspace (sampleSeed 1700000000000), []).
Proof.
  apply (import_export_roundtrip (sampleSeed 1700000000000) JNull).
  discriminate.
Defined.

(** C8: whatever [JSON.parse] does, the import succeeds (the state becomes
    the parsed value and no alert is shown) only if the text parses to a
    value that has a [projects] field; if the text does not parse, or parses
    to a value without a [projects] field, an alert is shown and the state is
    left as it was. *)
Theorem importJSON_checks_projects (parse : jsstring -> option jsval)
    (text : jsstring) (data : jsval) :
  (forall obj, importJSON parse text data = (obj, []) ->
     parse text = Some obj /\ is_Some (get_projects obj))
  /\ (parse text = None ->
      importJSON parse text data = (data, [u "Could not parse JSON"]))
  /\ (forall obj, parse text = Some obj -> get_projects obj = None ->
      importJSON parse text data = (data, [u "Invalid file"])).
Proof.
  unfold importJSON. split; [|split].
  - intros obj H. destruct (parse text) as [v|]; [|discriminate].
    destruct (truthy (Some v) && truthy (get_projects v)) eqn:E; [|discriminate].
    injection H as ->. split; [reflexivity|].
    apply andb_true_iff in E as [_ E].
    destruct (get_projects obj); [eauto|discriminate].
  - intros ->. reflexivity.
  - intros obj -> Hnone. rewrite Hnone. simpl. now rewrite andb_false_r.
Qed.

(** ** The import on small texts *)

Example import_not_json :
  importJSON JSON_parse (u "not json") JNull = (JNull, [u "Could not parse JSON"]).
Proof. vm_compute. reflexivity. Qed.

Example import_without_projects :
  importJSON JSON_parse (u "{ }") JNull = (JNull, [u "Invalid file"]).
Proof. vm_compute. reflexivity. Qed.

Example import_null :
  importJSON JSON_parse (u "null") (JNum 7) = (JNum 7, [u "Invalid file"]).
Proof. vm_compute. reflexivity. Qed.

Example import_empty_projects :
  importJSON JSON_parse (u "{" ++ dq ++ u "projects" ++ dq ++ u ":[]}") JNull
  = (JObj [(u "projects", JArr [])], []).
Proof. vm_compute. reflexivity. Qed.

Example import_projects_null :
  importJSON JSON_parse (u "{" ++ dq ++ u "projects" ++ dq ++ u ": null}") JNull
  = (JNull, [u "Invalid file"]).
Proof. vm_compute. reflexivity. Qed.

Example parse_escapes :
  JSON_parse (dq ++ [backslash] ++ u "u0041" ++ [backslash] ++ u "n" ++ dq)
  = Some (JStr [65%N; 10%N]).
Proof. vm_compute. reflexivity. Qed.

Example stringify_control_character :
  stringify 0 (JStr [1%N; 10%N; 34%N])
  = dq ++ [backslash] ++ u "u0001" ++ [backslash] ++ u "n" ++ [backslash] ++ dq ++ dq.
Proof. vm_compute. reflexivity. Qed.

(** ** Further properties of the board and project operations *)

Lemma workspace_eta (d : Workspace) :
  mkWorkspace (meta d) (users d) (projects d) = d.
Proof. now destruct d. Qed.

Lemma fmap_fixed {A} (f : A -> A) (l : list A) :
  Forall (fun x => f x = x) l -> f <$> l = l.
Proof.
  induction 1 as [|x l Hx _ IH]; [reflexivity|].
  rewrite fmap_cons. now rewrite Hx, IH.
Qed.

Lemma map_draw_length {A B} (f : nat -> A -> B * nat) (l : list A) : forall n,
  length (map_draw f n l).1 = length l.
Proof.
  induction l as [|x l IH]; intros n; [reflexivity|].
  simpl. destruct (f n x) as [y n1]. specialize (IH n1).
  destruct (map_draw f n1 l) as [ys n2]. simpl in *. now rewrite IH.
Qed.

Lemma map_draw_fixed rand projectId columnId card (ps : list Project) : forall n,
  Forall (fun p => proj_id p <> projectId) ps ->
  map_draw (addCard_project rand projectId columnId card) n ps = (ps, n).
Proof.
  induction ps as [|p ps IH]; intros n Hps; [reflexivity|].
  inversion Hps as [|? ? Hp Hps']; subst. simpl.
  unfold addCard_project at 1. rewrite decide_True by assumption.
  now rewrite IH.
Qed.

(** X1: [addCard], [moveCard] and [updateCard] change neither [meta] nor
    [users], nor the number of projects, and leave every project whose id is
    not [projectId] as it was, at its position. *)
Theorem board_operations_frame (rand : oracle) (projectId : jsstring) (d : Workspace) :
  (forall columnId card n,
     let d' := (addCard rand projectId columnId card n d).1 in
     meta d' = meta d /\ users d' = users d
     /\ length (projects d') = length (projects d)
     /\ forall i p, projects d !! i = Some p -> proj_id p <> projectId ->
                    projects d' !! i = Some p)
  /\ (forall fromColId toColId cardId toIndex,
     let d' := moveCard projectId fromColId toColId cardId toIndex d in
     meta d' = meta d /\ users d' = users d
     /\ length (projects d') = length (projects d)
     /\ forall i p, projects d !! i = Some p -> proj_id p <> projectId ->
                    projects d' !! i = Some p)
  /\ (forall cardId patch,
     let d' := updateCard projectId cardId patch d in
     meta d' = meta d /\ users d' = users d
     /\ length (projects d') = length (projects d)
     /\ forall i p, projects d !! i = Some p -> proj_id p <> projectId ->
                    projects d' !! i = Some p).
Proof.
  split; [|split].
  - intros columnId card n d'. subst d'.
    assert (Hshape : meta (addCard rand projectId columnId card n d).1 = meta d
                     /\ users (addCard rand projectId columnId card n d).1 = users d
                     /\ length (projects (addCard rand projectId columnId card n d).1)
                        = length (projects d)).
    { unfold addCard.
      pose proof (map_draw_length (addCard_project rand projectId columnId card)
                    (projects d) n) as Hlen.
      destruct (map_draw _ n (projects d)) as [ps n']. simpl in *. auto. }
    destruct Hshape as (Hm & Hu & Hl). repeat split; try assumption.
    intros i p Hi Hne. rewrite (addCard_lookup _ _ _ _ _ _ _ _ Hi).
    unfold addCard_project. now rewrite decide_True.
  - intros fromColId toColId cardId toIndex d'. subst d'. simpl.
    repeat split; [apply length_fmap|].
    intros i p Hi Hne. rewrite list_lookup_fmap, Hi. simpl.
    unfold moveCard_project. now rewrite decide_True.
  - intros cardId patch d'. subst d'. simpl.
    repeat split; [apply length_fmap|].
    intros i p Hi Hne. rewrite list_lookup_fmap, Hi. simpl.
    unfold updateCard_project. now rewrite decide_True.
Qed.

Lemma deleteProject_absent (projectId : jsstring) (d : Workspace) :
  Forall (fun p => proj_id p <> projectId) (projects d) ->
  deleteProject projectId d = d.
Proof.
  intros Hno. unfold deleteProject.
  replace (filter (fun p => proj_id p <> projectId) (projects d)) with (projects d);
    [apply workspace_eta|].
  induction Hno as [|p ps Hp _ IH]; [reflexivity|].
  rewrite filter_cons_True by assumption. now rewrite <- IH.
Qed.

(** X2: when no project carries [projectId], every operation aimed at that
    project returns the workspace it was given, and [addCard] draws no id. *)
Theorem unknown_project_is_ignored (rand : oracle) (projectId : jsstring)
    (d : Workspace) :
  no_project projectId d ->
  (forall columnId card n, addCard rand projectId columnId card n d = (d, n))
  /\ (forall fromColId toColId cardId toIndex,
        moveCard projectId fromColId toColId cardId toIndex d = d)
  /\ (forall cardId patch, updateCard projectId cardId patch d = d)
  /\ (forall patch, updateProject projectId patch d = d)
  /\ deleteProject projectId d = d.
Proof.
  intros Hno. unfold no_project in Hno. repeat split.
  - intros columnId card n. unfold addCard.
    rewrite map_draw_fixed by assumption. now rewrite workspace_eta.
  - intros fromColId toColId cardId toIndex. unfold moveCard.
    rewrite fmap_fixed; [apply workspace_eta|].
    eapply list.Forall_impl; [exact Hno|]. intros p Hp.
    unfold moveCard_project. now rewrite decide_True.
  - intros cardId patch. unfold updateCard.
    rewrite fmap_fixed; [apply workspace_eta|].
    eapply list.Forall_impl; [exact Hno|]. intros p Hp.
    unfold updateCard_project. now rewrite decide_True.
  - intros patch. unfold updateProject.
    rewrite fmap_fixed; [apply workspace_eta|].
    eapply list.Forall_impl; [exact Hno|]. intros p Hp.
    now rewrite decide_False.
  - now apply deleteProject_absent.
Qed.

Lemma unknown_project_is_ignored_witness :
  (forall columnId card n,
     addCard const_oracle (u "proj_9") columnId card n (sampleSeed 0) = (sampleSeed 0, n))
  /\ (forall fromColId toColId cardId toIndex,
        moveCard (u "proj_9") fromColId toColId cardId toIndex (sampleSeed 0)
        = sampleSeed 0)
  /\ (forall cardId patch, updateCard (u "proj_9") cardId patch (sampleSeed 0) = sampleSeed 0)
  /\ (forall patch, updateProject (u "proj_9") patch (sampleSeed 0) = sampleSeed 0)
  /\ deleteProject (u "proj_9") (sampleSeed 0) = sampleSeed 0.
Proof.
  apply (unknown_project_is_ignored const_oracle (u "proj_9") (sampleSeed 0)).
  apply (bool_decide_eq_true_1 _). vm_compute. reflexivity.
Defined.

Lemma addCard_prepends_and_stores_aux (rand : oracle) (projectId columnId : jsstring)
    (card : jsobj) (n : nat) (d : Workspace) (i : nat) (p : Project) :
  projects d !! i = Some p -> proj_id p = projectId ->
  exists p',
    projects (addCard rand projectId columnId card n d).1 !! i = Some p'
    /\ cards (board p')
         !! uid (u "c") (rand (n + draws_before projectId (projects d) i)%nat)
       = Some (spread {[ u "id" := VStr (uid (u "c")
                 (rand (n + draws_before projectId (projects d) i)%nat)) ]} card).
Proof.
  intros Hi Hid. rewrite (addCard_lookup _ _ _ _ _ _ _ _ Hi). eexists.
  split; [reflexivity|].
  unfold addCard_project. rewrite decide_False by tauto. simpl.
  apply lookup_insert_eq.
Qed.

(** X3: in a project carrying [projectId], [addCard] puts the generated id
    at the head of every column whose id is [columnId] and leaves the other
    columns as they were; it stores under the generated id the fields of
    [card], with the field [id] set to the generated id unless [card] has an
    [id] field of its own, and changes no other card. *)
Theorem addCard_prepends_and_stores (rand : oracle) (projectId columnId : jsstring)
    (card : jsobj) (n : nat) (d : Workspace) (i : nat) (p : Project) :
  let cardId := uid (u "c") (rand (n + draws_before projectId (projects d) i)%nat) in
  projects d !! i = Some p -> proj_id p = projectId ->
  exists p' stored,
    projects (addCard rand projectId columnId card n d).1 !! i = Some p'
    /\ length (columns (board p')) = length (columns (board p))
    /\ (forall j c, columns (board p) !! j = Some c ->
          columns (board p') !! j
          = Some (if decide (col_id c = columnId)
                  then mkColumn (col_id c) (col_title c) (cardId :: cardIds c)
                  else c))
    /\ cards (board p') !! cardId = Some stored
    /\ stored !! u "id" = Some (default (VStr cardId) (card !! u "id"))
    /\ (forall k, k <> u "id" -> stored !! k = card !! k)
    /\ (forall k, k <> cardId -> cards (board p') !! k = cards (board p) !! k).
Proof.
  intros cardId Hi Hid.
  rewrite (addCard_lookup _ _ _ _ _ _ _ _ Hi). eexists _, _.
  split; [reflexivity|].
  unfold addCard_project. rewrite decide_False by tauto. simpl. fold cardId.
  split; [apply length_fmap|]. split.
  { intros j c Hj. rewrite list_lookup_fmap, Hj. reflexivity. }
  split; [apply lookup_insert_eq|]. split; [|split].
  - unfold spread. rewrite lookup_union.
    destruct (card !! u "id") as [v|] eqn:E; simpl.
    + now rewrite lookup_singleton_eq.
    + now rewrite lookup_singleton_eq.
  - intros k Hk. unfold spread. rewrite lookup_union.
    rewrite lookup_singleton_ne by congruence.
    now destruct (card !! k).
  - intros k Hk. now rewrite lookup_insert_ne.
Qed.

Lemma addCard_prepends_and_stores_witness :
  let cardId := u "c_k3x9q2a" in
  exists p' stored,
    projects (addCard const_oracle (u "proj_1") (u "done") (title_only "Ship") 0
                (sampleSeed 0)).1 !! 0%nat = Some p'
    /\ length (columns (board p')) = length (columns seed_board)
    /\ (forall j c, columns seed_board !! j = Some c ->
          columns (board p') !! j
          = Some (if decide (col_id c = u "done")
                  then mkColumn (col_id c) (col_title c) (cardId :: cardIds c)
                  else c))
    /\ cards (board p') !! cardId = Some stored
    /\ stored !! u "id" = Some (default (VStr cardId) (title_only "Ship" !! u "id"))
    /\ (forall k, k <> u "id" -> stored !! k = title_only "Ship" !! k)
    /\ (forall k, k <> cardId -> cards (board p') !! k = cards seed_board !! k).
Proof.
  apply (addCard_prepends_and_stores const_oracle (u "proj_1") (u "done")
           (title_only "Ship") 0 (sampleSeed 0) 0
           (mkProject (u "proj_1") (u "Website Redesign")
              (u "A modern responsive redesign for marketing site. Use components, accessibility, and performance improvements.")
              None [u "frontend"; u "react"; u "design"] seed_board)).
  - reflexivity.
  - reflexivity.
Defined.

(** ** Where [splice] inserts *)

Lemma splice_start_le (start : Z) (len : nat) : (splice_start start len <= len)%nat.
Proof. unfold splice_start. destruct (decide (start < 0)); lia. Qed.

Lemma splice_insert_lookup {A} (start : Z) (x : A) (l : list A) :
  splice_insert start x l !! splice_start start (length l) = Some x.
Proof.
  pose proof (splice_start_le start (length l)) as Hk. unfold splice_insert.
  rewrite lookup_app_r by (rewrite length_take; lia).
  rewrite length_take. replace (_ - _)%nat with 0%nat by lia. reflexivity.
Qed.

(** X4: [splice(start, 0, x)] makes the array one longer, puts [x] at the
    index [start] when it lies within the array, at the end when [start] is
    beyond the length, at [length + start] when [start] is negative, and at
    the head when [start] is below [-length]; the other elements keep their
    order, so that removing [x] at that index gives the array back. *)
Theorem splice_insert_position {A} (start : Z) (x : A) (l : list A) :
  let k := splice_start start (length l) in
  length (splice_insert start x l) = S (length l)
  /\ splice_insert start x l !! k = Some x
  /\ delete k (splice_insert start x l) = l
  /\ (0 <= start <= Z.of_nat (length l) -> k = Z.to_nat start)
  /\ (Z.of_nat (length l) <= start -> splice_insert start x l = l ++ [x])
  /\ (- Z.of_nat (length l) <= start < 0 -> Z.of_nat k = Z.of_nat (length l) + start)
  /\ (start <= - Z.of_nat (length l) -> splice_insert start x l = x :: l).
Proof.
  intros k. pose proof (splice_start_le start (length l)) as Hk. fold k in Hk.
  unfold splice_insert. fold k.
  assert (Hlen : length (take k l) = k) by (rewrite length_take; lia).
  repeat split.
  - rewrite length_app, Hlen. simpl. rewrite length_drop. lia.
  - rewrite lookup_app_r by lia. rewrite Hlen, Nat.sub_diag. reflexivity.
  - replace (delete k (take k l ++ x :: drop k l))
      with (delete (length (take k l)) (take k l ++ x :: drop k l))
      by now rewrite Hlen.
    rewrite delete_middle. apply take_drop.
  - intros H. unfold k, splice_start. destruct (decide (start < 0)); lia.
  - intros H. assert (k = length l) as ->.
    { unfold k, splice_start. destruct (decide (start < 0)); lia. }
    now rewrite firstn_all, drop_all.
  - intros H. unfold k, splice_start. destruct (decide (start < 0)); lia.
  - intros H. assert (k = 0%nat) as ->.
    { unfold k, splice_start. destruct (decide (start < 0)); lia. }
    reflexivity.
Qed.

Lemma filter_splice_insert (cardId : jsstring) (start : Z) (l : list jsstring) :
  filter (fun id => id <> cardId) (splice_insert start cardId l)
  = filter (fun id => id <> cardId) l.
Proof.
  unfold splice_insert. set (k := splice_start start (length l)).
  rewrite list.filter_app, filter_cons_False by tauto.
  rewrite <- list.filter_app. now rewrite take_drop.
Qed.

(** X5: in a project carrying [projectId], [moveCard] keeps the cards
    object, the number, ids and titles of the columns and, in every column,
    the relative order of the other cards; a column whose id is [fromColId]
    loses every occurrence of the card; a column whose id is [toColId] and
    not [fromColId] receives the card at the index that [splice] computes
    from [toIndex]; any other column is left as it was. *)
Theorem moveCard_columns (projectId fromColId toColId cardId : jsstring)
    (toIndex : Z) (d : Workspace) (i : nat) (p : Project) :
  projects d !! i = Some p -> proj_id p = projectId ->
  exists p',
    projects (moveCard projectId fromColId toColId cardId toIndex d) !! i = Some p'
    /\ cards (board p') = cards (board p)
    /\ length (columns (board p')) = length (columns (board p))
    /\ forall j c, columns (board p) !! j = Some c ->
       exists c', columns (board p') !! j = Some c'
         /\ col_id c' = col_id c /\ col_title c' = col_title c
         /\ filter (fun id => id <> cardId) (cardIds c')
            = filter (fun id => id <> cardId) (cardIds c)
         /\ (col_id c = fromColId -> cardId ∉ cardIds c')
         /\ (col_id c <> fromColId -> col_id c = toColId ->
             cardIds c' = splice_insert toIndex cardId (cardIds c)
             /\ cardIds c' !! splice_start toIndex (length (cardIds c)) = Some cardId)
         /\ (col_id c <> fromColId -> col_id c <> toColId -> c' = c).
Proof.
  intros Hi Hid. unfold moveCard. simpl.
  rewrite list_lookup_fmap, Hi. simpl. eexists. split; [reflexivity|].
  unfold moveCard_project. rewrite decide_False by tauto. simpl.
  split; [reflexivity|]. split; [apply length_fmap|].
  intros j c Hj. rewrite list_lookup_fmap, Hj. simpl. eexists. split; [reflexivity|].
  rewrite col_id_moveCard_column. split; [reflexivity|].
  unfold moveCard_column.
  destruct (decide (col_id c = fromColId)) as [Ef|Ef]; simpl.
  - split; [reflexivity|]. split.
    { rewrite list_filter_filter. apply list_filter_iff. tauto. }
    split; [|split; intros; contradiction].
    intros _. rewrite list_elem_of_filter. tauto.
  - destruct (decide (col_id c = toColId)) as [Et|Et]; simpl.
    + split; [reflexivity|]. split; [apply filter_splice_insert|].
      split; [intros; contradiction|]. split; [|intros; contradiction].
      intros _ _. split; [reflexivity|].
      apply splice_insert_lookup.
    + repeat split; try reflexivity; intros; contradiction || reflexivity.
Qed.

Lemma moveCard_columns_witness :
  exists p',
    projects (moveCard (u "proj_1") (u "todo") (u "done") (u "c2") 0 (sampleSeed 0))
      !! 0%nat = Some p'
    /\ cards (board p') = cards seed_board
    /\ length (columns (board p')) = length (columns seed_board)
    /\ forall j c, columns seed_board !! j = Some c ->
       exists c', columns (board p') !! j = Some c'
         /\ col_id c' = col_id c /\ col_title c' = col_title c
         /\ filter (fun id => id <> u "c2") (cardIds c')
            = filter (fun id => id <> u "c2") (cardIds c)
         /\ (col_id c = u "todo" -> u "c2" ∉ cardIds c')
         /\ (col_id c <> u "todo" -> col_id c = u "done" ->
             cardIds c' = splice_insert 0 (u "c2") (cardIds c)
             /\ cardIds c' !! splice_start 0 (length (cardIds c)) = Some (u "c2"))
         /\ (col_id c <> u "todo" -> col_id c <> u "done" -> c' = c).
Proof.
  apply (moveCard_columns (u "proj_1") (u "todo") (u "done") (u "c2") 0
           (sampleSeed 0) 0
           (mkProject (u "proj_1") (u "Website Redesign")
              (u "A modern responsive redesign for marketing site. Use components, accessibility, and performance improvements.")
              None [u "frontend"; u "react"; u "design"] seed_board)).
  - reflexivity.
  - reflexivity.
Defined.

(** X6: on a card that exists, [updateCard] replaces the fields named by the
    patch and keeps the others; it changes no other card, no column and no
    key of the cards object, and so keeps the board invariant. *)
Theorem updateCard_merges_patch (projectId cardId : jsstring) (patch : jsobj)
    (d : Workspace) (i : nat) (p : Project) (old : jsobj) :
  projects d !! i = Some p -> proj_id p = projectId ->
  cards (board p) !! cardId = Some old ->
  exists p' new,
    projects (updateCard projectId cardId patch d) !! i = Some p'
    /\ cards (board p') !! cardId = Some new
    /\ (forall k, new !! k = match patch !! k with
                             | Some v => Some v
                             | None => old !! k
                             end)
    /\ (forall k, k <> cardId -> cards (board p') !! k = cards (board p) !! k)
    /\ dom (cards (board p')) = dom (cards (board p))
    /\ columns (board p') = columns (board p)
    /\ (board_inv (board p) -> board_inv (board p')).
Proof.
  intros Hi Hid Hold. unfold updateCard. simpl.
  rewrite list_lookup_fmap, Hi. simpl. eexists _, _. split; [reflexivity|].
  unfold updateCard_project. rewrite decide_False by tauto. simpl.
  rewrite Hold. simpl. split; [apply lookup_insert_eq|]. split.
  { intros k. unfold spread. rewrite lookup_union.
    destruct (patch !! k), (old !! k); reflexivity. }
  split; [intros k Hk; now rewrite lookup_insert_ne|].
  assert (Hdom : dom (<[cardId := spread old patch]> (cards (board p)))
                 = dom (cards (board p))).
  { rewrite dom_insert_L. apply subseteq_union_1_L, singleton_subseteq_l.
    apply (elem_of_dom (D := gset jsstring)). eauto. }
  split; [exact Hdom|]. split; [reflexivity|].
  intros [Hone Hkeys].
  assert (Hb : updateCard_board cardId patch (board p)
               = mkBoard (columns (board p))
                         (<[cardId := spread old patch]> (cards (board p)))).
  { unfold updateCard_board. now rewrite Hold. }
  rewrite Hb. split.
  - unfold cards_in_one_column in *. apply map_Forall_lookup. intros x v Hx.
    cbn [cards columns] in Hx |- *.
    assert (Hin : is_Some (cards (board p) !! x)).
    { apply (elem_of_dom (D := gset jsstring)). rewrite <- Hdom.
      apply (elem_of_dom (D := gset jsstring)). exists v. exact Hx. }
    destruct Hin as [w Hw]. exact (map_Forall_lookup_1 _ _ _ _ Hone Hw).
  - unfold column_ids_have_cards in *. cbn [cards columns].
    eapply list.Forall_impl; [exact Hkeys|]. intros c Hc.
    eapply list.Forall_impl; [exact Hc|]. intros x Hx. cbv beta in Hx |- *.
    apply (elem_of_dom (D := gset jsstring)). rewrite Hdom.
    now apply (elem_of_dom (D := gset jsstring)).
Qed.

Lemma updateCard_merges_patch_witness :
  exists p' new,
    projects (updateCard (u "proj_1") (u "c1") (title_only "Hero") (sampleSeed 0))
      !! 0%nat = Some p'
    /\ cards (board p') !! u "c1" = Some new
    /\ (forall k, new !! k = match title_only "Hero" !! k with
                             | Some v => Some v
                             | None => seed_card "c1" "Landing hero"
                                         "Create a performant hero with LCP under 1.2s"
                                         (VStr (u "u_me")) 2 !! k
                             end)
    /\ (forall k, k <> u "c1" -> cards (board p') !! k = cards seed_board !! k)
    /\ dom (cards (board p')) = dom (cards seed_board)
    /\ columns (board p') = columns seed_board
    /\ (board_inv seed_board -> board_inv (board p')).
Proof.
  apply (updateCard_merges_patch (u "proj_1") (u "c1") (title_only "Hero")
           (sampleSeed 0) 0
           (mkProject (u "proj_1") (u "Website Redesign")
              (u "A modern responsive redesign for marketing site. Use components, accessibility, and performance improvements.")
              None [u "frontend"; u "react"; u "design"] seed_board)).
  - reflexivity.
  - reflexivity.
  - vm_compute. reflexivity.
Defined.

(** X7: two [updateCard] calls on the same card amount to one call with the
    merged patch, the later patch winning; in particular a call repeated
    with the same patch changes nothing more. *)
Theorem updateCard_twice (projectId cardId : jsstring) (patch1 patch2 : jsobj)
    (d : Workspace) :
  updateCard projectId cardId patch2 (updateCard projectId cardId patch1 d)
  = updateCard projectId cardId (spread patch1 patch2) d
  /\ updateCard projectId cardId patch1 (updateCard projectId cardId patch1 d)
     = updateCard projectId cardId patch1 d.
Proof.
  assert (Hgen : forall q1 q2,
    updateCard projectId cardId q2 (updateCard projectId cardId q1 d)
    = updateCard projectId cardId (spread q1 q2) d).
  { intros q1 q2. unfold updateCard. simpl. f_equal.
    rewrite <- list_fmap_compose. apply list_fmap_ext. intros j p _. simpl.
    unfold updateCard_project.
    destruct (decide (proj_id p <> projectId)) as [Hd|Hd].
    - now rewrite decide_True.
    - simpl. rewrite decide_False by assumption. unfold with_board. simpl.
      f_equal. unfold updateCard_board. simpl. f_equal.
      rewrite lookup_insert_eq, insert_insert_eq. simpl. f_equal.
      unfold spread. now rewrite (assoc_L (∪)). }
  split; [apply Hgen|].
  rewrite Hgen. unfold spread. now rewrite (idemp_L (∪)).
Qed.

(** X8: [deleteProject] removes every project carrying the id, duplicates
    included, and nothing else: the projects with another id all remain, in
    the order they had; [meta] and [users] are kept; deleting again changes
    nothing. *)
Theorem deleteProject_removes_exactly (projectId : jsstring) (d : Workspace) :
  let d' := deleteProject projectId d in
  no_project projectId d'
  /\ (forall p, p ∈ projects d' <-> p ∈ projects d /\ proj_id p <> projectId)
  /\ sublist (projects d') (projects d)
  /\ meta d' = meta d /\ users d' = users d
  /\ deleteProject projectId d' = d'.
Proof.
  intros d'. subst d'. unfold deleteProject, no_project. simpl.
  split; [|split; [|split; [|split; [|split]]]]; try reflexivity.
  - apply list.Forall_forall. intros p Hp. now apply list_elem_of_filter in Hp.
  - intros p. rewrite list_elem_of_filter. tauto.
  - apply sublist_filter.
  - f_equal. rewrite list_filter_filter. apply list_filter_iff. tauto.
Qed.

(** X9: deleting the project that [createProject] has just added gives back
    the workspace, provided that no project carried the generated id
    before. *)
Theorem createProject_then_deleteProject (seg : jsstring) (d : Workspace) :
  no_project (uid (u "proj") seg) d ->
  deleteProject (uid (u "proj") seg) (createProject seg d) = d.
Proof.
  intros Hno. unfold deleteProject, createProject. simpl.
  rewrite filter_cons_False by (simpl; tauto).
  now apply deleteProject_absent.
Qed.

Lemma createProject_then_deleteProject_witness :
  deleteProject (uid (u "proj") (u "k3x9q2a")) (createProject (u "k3x9q2a") (sampleSeed 0))
  = sampleSeed 0.
Proof.
  apply (createProject_then_deleteProject (u "k3x9q2a") (sampleSeed 0)).
  apply (bool_decide_eq_true_1 _). vm_compute. reflexivity.
Defined.

Lemma canonical_board_inv : board_inv (mkBoard canonical_columns ∅).
Proof. split; [apply map_Forall_empty|repeat constructor]. Qed.

(** X10: [createProject], [deleteProject] and an [updateProject] whose patch
    has no [board] field keep the board invariant of every project. *)
Theorem project_operations_keep_invariant (d : Workspace) :
  ws_inv d ->
  (forall seg, ws_inv (createProject seg d))
  /\ (forall projectId, ws_inv (deleteProject projectId d))
  /\ (forall projectId patch, patch_board patch = None ->
        ws_inv (updateProject projectId patch d)).
Proof.
  unfold ws_inv. intros Hinv. split; [|split].
  - intros seg. simpl. constructor; [apply canonical_board_inv|assumption].
  - intros projectId. simpl. apply list.Forall_forall. intros p Hp.
    apply list_elem_of_filter in Hp as [_ Hp].
    rewrite list.Forall_forall in Hinv. now apply Hinv.
  - intros projectId patch Hpatch. simpl. rewrite Forall_fmap.
    eapply list.Forall_impl; [exact Hinv|]. intros p Hp. simpl.
    destruct (decide (proj_id p = projectId)); [|assumption].
    unfold merge_project. simpl. now rewrite Hpatch.
Qed.

Lemma project_operations_keep_invariant_witness :
  (forall seg, ws_inv (createProject seg (sampleSeed 0)))
  /\ (forall projectId, ws_inv (deleteProject projectId (sampleSeed 0)))
  /\ (forall projectId patch, patch_board patch = None ->
        ws_inv (updateProject projectId patch (sampleSeed 0))).
Proof.
  apply (project_operations_keep_invariant (sampleSeed 0)).
  apply (bool_decide_eq_true_1 _). vm_compute. reflexivity.
Defined.

(** X11: two [updateProject] calls with the same id, the first of which
    does not change the id, amount to one call with the merged patch, the
    later patch winning; a call repeated with the same patch changes
    nothing more. *)
Theorem updateProject_twice (projectId : jsstring) (q1 q2 : ProjectPatch)
    (d : Workspace) :
  patch_id q1 = None ->
  updateProject projectId q2 (updateProject projectId q1 d)
  = updateProject projectId (merge_patch q1 q2) d
  /\ updateProject projectId q1 (updateProject projectId q1 d)
     = updateProject projectId q1 d.
Proof.
  intros Hid.
  assert (Hgen : forall q, updateProject projectId q (updateProject projectId q1 d)
                           = updateProject projectId (merge_patch q1 q) d).
  { intros q. unfold updateProject. simpl. f_equal.
    rewrite <- list_fmap_compose. apply list_fmap_ext. intros j p _. simpl.
    destruct (decide (proj_id p = projectId)) as [E|E].
    - unfold merge_project at 2. simpl. rewrite Hid. simpl.
      rewrite decide_True by assumption.
      unfold merge_project, merge_patch. simpl. rewrite Hid.
      destruct q as [a b c e f g], q1 as [a1 b1 c1 e1 f1 g1]. simpl in *.
      subst a1. destruct a, b, c, e, f, g, b1, c1, e1, f1, g1; reflexivity.
    - now rewrite decide_False. }
  split; [apply Hgen|].
  rewrite Hgen. f_equal.
  destruct q1 as [a1 b1 c1 e1 f1 g1]. unfold merge_patch. simpl.
  f_equal; match goal with |- ?o ∪ ?o = _ => now destruct o end.
Qed.

Lemma updateProject_twice_witness :
  let q1 := mkPatch None (Some (u "A")) None None None None in
  let q2 := mkPatch None None (Some (u "B")) (Some None) None None in
  updateProject (u "proj_1") q2 (updateProject (u "proj_1") q1 (sampleSeed 0))
  = updateProject (u "proj_1") (merge_patch q1 q2) (sampleSeed 0)
  /\ updateProject (u "proj_1") q1 (updateProject (u "proj_1") q1 (sampleSeed 0))
     = updateProject (u "proj_1") q1 (sampleSeed 0).
Proof.
  apply (updateProject_twice (u "proj_1")
           (mkPatch None (Some (u "A")) None None None None)
           (mkPatch None None (Some (u "B")) (Some None) None None) (sampleSeed 0)).
  reflexivity.
Defined.

(** ** [trim] *)

Lemma trimStart_spec (s : jsstring) :
  exists ws, s = ws ++ trimStart s /\ all_space ws
             /\ match trimStart s with
                | [] => True
                | c :: _ => is_space c = false
                end.
Proof.
  induction s as [|c s (ws & Hs & Hws & Hhead)].
  - exists []. repeat split. constructor.
  - simpl. destruct (is_space c) eqn:Hc.
    + exists (c :: ws). split; [simpl; now rewrite <- Hs|].
      split; [now constructor|exact Hhead].
    + exists []. repeat split; [constructor|exact Hc].
Qed.

Lemma trimStart_all_space (ws s : jsstring) :
  all_space ws -> trimStart (ws ++ s) = trimStart s.
Proof. induction 1 as [|c ws Hc _ IH]; [reflexivity|]. simpl. now rewrite Hc. Qed.

Lemma trimStart_fixed (s : jsstring) :
  match s with [] => True | c :: _ => is_space c = false end -> trimStart s = s.
Proof. destruct s as [|c s]; [reflexivity|]. simpl. now intros ->. Qed.

Lemma trimStart_nil (s : jsstring) : trimStart s = [] <-> all_space s.
Proof.
  split.
  - intros H. destruct (trimStart_spec s) as (ws & Hs & Hws & _).
    rewrite H, (right_id_L [] (++)) in Hs. now subst.
  - intros H. rewrite <- (right_id_L [] (++) s). now rewrite trimStart_all_space.
Qed.

(** What [trim] removes and what it leaves. *)
Lemma trim_spec (s : jsstring) :
  exists ws1 ws2, s = ws1 ++ trim s ++ ws2 /\ all_space ws1 /\ all_space ws2
    /\ match trim s with
       | [] => True
       | c :: _ => is_space c = false
       end
    /\ match list.last (trim s) with
       | None => True
       | Some c => is_space c = false
       end.
Proof.
  destruct (trimStart_spec s) as (ws1 & Hs & Hws1 & Hhead).
  destruct (trimStart_spec (reverse (trimStart s))) as (ws2 & Hr & Hws2 & Hlast).
  unfold trim, trimEnd.
  set (t := trimStart s) in *. set (r := trimStart (reverse t)) in *.
  assert (Ht : t = reverse r ++ reverse ws2).
  { rewrite <- reverse_app, <- Hr. now rewrite reverse_involutive. }
  exists ws1, (reverse ws2). split; [now rewrite <- Ht|]. split; [assumption|].
  split; [unfold all_space; now apply Forall_reverse|]. split.
  - destruct (reverse r) as [|c t'] eqn:E; [exact I|].
    rewrite Ht in Hhead. exact Hhead.
  - rewrite last_reverse. destruct r; [exact I|exact Hlast].
Qed.

Lemma trim_nil (s : jsstring) : trim s = [] <-> all_space s.
Proof.
  unfold trim, trimEnd. split.
  - intros H. apply (f_equal reverse) in H. rewrite reverse_involutive in H.
    change (reverse []) with (@nil N) in H. apply trimStart_nil in H.
    apply Forall_reverse in H. rewrite reverse_involutive in H.
    destruct (trimStart_spec s) as (ws & Hs & Hws & _).
    rewrite Hs. now apply Forall_app.
  - intros H. apply trimStart_nil in H. now rewrite H.
Qed.

Lemma trim_all_space_l (ws s : jsstring) : all_space ws -> trim (ws ++ s) = trim s.
Proof. intros H. unfold trim. now rewrite trimStart_all_space. Qed.

Lemma trim_idempotent (s : jsstring) : trim (trim s) = trim s.
Proof.
  destruct (trim_spec s) as (_ & _ & _ & _ & _ & Hhead & Hlast).
  unfold trim at 1. rewrite trimStart_fixed by exact Hhead.
  unfold trimEnd. rewrite trimStart_fixed; [apply reverse_involutive|].
  destruct (reverse (trim s)) as [|c r] eqn:E; [exact I|].
  apply (f_equal reverse) in E. rewrite reverse_involutive in E.
  rewrite E, reverse_cons, last_snoc in Hlast. exact Hlast.
Qed.

(** ** The form that adds a card *)

(** X12: when the title typed in the form is empty or made only of white
    space, [handleAdd] shows the alert and changes neither the workspace nor
    the form, and draws no id. *)
Theorem handleAdd_blank_title (rand : oracle) (projectId colId : jsstring)
    (form : AddForm) (n : nat) (d : Workspace) :
  all_space (newCardTitle form) ->
  handleAdd rand projectId colId form n d
  = ((d, n), form, [u "Give the card a title."]).
Proof.
  intros H. unfold handleAdd. apply trim_nil in H. now rewrite decide_True.
Qed.

Lemma handleAdd_blank_title_witness :
  handleAdd const_oracle (u "proj_1") (u "todo") (mkForm (u "   ") (u "text")) 0
    (sampleSeed 0)
  = ((sampleSeed 0, 0%nat), mkForm (u "   ") (u "text"), [u "Give the card a title."]).
Proof.
  apply (handleAdd_blank_title const_oracle (u "proj_1") (u "todo")
           (mkForm (u "   ") (u "text")) 0 (sampleSeed 0)).
  apply (bool_decide_eq_true_1 _). vm_compute. reflexivity.
Defined.

(** X13: when the title has a character that is not white space,
    [handleAdd] shows no alert, empties the form and stores a card with
    exactly the fields id (the generated id), title, body (as typed),
    assignee (null) and priority (2); the stored title is the typed title
    without the white space at its two ends, and is not empty. *)
Theorem handleAdd_stores_trimmed_card (rand : oracle) (projectId colId : jsstring)
    (form : AddForm) (n : nat) (d : Workspace) (i : nat) (p : Project) :
  let cardId := uid (u "c") (rand (n + draws_before projectId (projects d) i)%nat) in
  let r := handleAdd rand projectId colId form n d in
  ~ all_space (newCardTitle form) ->
  projects d !! i = Some p -> proj_id p = projectId ->
  r.2 = [] /\ r.1.2 = mkForm [] []
  /\ exists p' title ws1 ws2,
       projects r.1.1.1 !! i = Some p'
       /\ cards (board p') !! cardId
          = Some (list_to_map [ (u "id", VStr cardId); (u "title", VStr title);
                                (u "body", VStr (newCardBody form));
                                (u "assignee", VNull); (u "priority", VNum 2) ])
       /\ newCardTitle form = ws1 ++ title ++ ws2
       /\ all_space ws1 /\ all_space ws2
       /\ (exists c t, title = c :: t /\ is_space c = false)
       /\ (exists t c, title = t ++ [c] /\ is_space c = false).
Proof.
  intros cardId r Hne Hi Hid. subst r. unfold handleAdd.
  rewrite decide_False by (rewrite trim_nil; exact Hne). simpl.
  split; [reflexivity|]. split; [reflexivity|].
  destruct (addCard_prepends_and_stores_aux rand projectId colId
              (new_card (trim (newCardTitle form)) (newCardBody form)) n d i p Hi Hid)
    as (p' & Hp' & Hcard).
  destruct (trim_spec (newCardTitle form)) as (ws1 & ws2 & Hs & Hws1 & Hws2 & Hhead & Hlast).
  exists p', (trim (newCardTitle form)), ws1, ws2.
  split; [exact Hp'|]. split.
  { fold cardId in Hcard. rewrite Hcard. reflexivity. }
  split; [exact Hs|]. split; [exact Hws1|]. split; [exact Hws2|].
  assert (Hnn : trim (newCardTitle form) <> []) by (rewrite trim_nil; exact Hne).
  split.
  - destruct (trim (newCardTitle form)) as [|c t]; [contradiction|]. eauto.
  - destruct (trim (newCardTitle form)) as [|c t] using rev_ind; [contradiction|].
    rewrite last_snoc in Hlast. eauto.
Qed.

Lemma handleAdd_stores_trimmed_card_witness :
  let form := mkForm (u "  Ship it ") (u "soon") in
  let cardId := u "c_k3x9q2a" in
  let r := handleAdd const_oracle (u "proj_1") (u "todo") form 0 (sampleSeed 0) in
  r.2 = [] /\ r.1.2 = mkForm [] []
  /\ exists p' title ws1 ws2,
       projects r.1.1.1 !! 0%nat = Some p'
       /\ cards (board p') !! cardId
          = Some (list_to_map [ (u "id", VStr cardId); (u "title", VStr title);
                                (u "body", VStr (newCardBody form));
                                (u "assignee", VNull); (u "priority", VNum 2) ])
       /\ newCardTitle form = ws1 ++ title ++ ws2
       /\ all_space ws1 /\ all_space ws2
       /\ (exists c t, title = c :: t /\ is_space c = false)
       /\ (exists t c, title = t ++ [c] /\ is_space c = false).
Proof.
  apply (handleAdd_stores_trimmed_card const_oracle (u "proj_1") (u "todo")
           (mkForm (u "  Ship it ") (u "soon")) 0 (sampleSeed 0) 0
           (mkProject (u "proj_1") (u "Website Redesign")
              (u "A modern responsive redesign for marketing site. Use components, accessibility, and performance improvements.")
              None [u "frontend"; u "react"; u "design"] seed_board)).
  - apply (bool_decide_eq_false_1 _). vm_compute. reflexivity.
  - reflexivity.
  - reflexivity.
Defined.

(** ** The project editor *)

Lemma split_comma_no_comma (a : jsstring) : comma ∉ a -> split_comma a = [a].
Proof.
  induction a as [|c a IH]; intros H; [reflexivity|].
  rewrite not_elem_of_cons in H. destruct H as [Hc Ha].
  simpl. rewrite (proj2 (N.eqb_neq c comma)) by congruence.
  now rewrite IH.
Qed.

Lemma split_comma_app (a rest : jsstring) :
  comma ∉ a -> split_comma (a ++ comma :: rest) = a :: split_comma rest.
Proof.
  induction a as [|c a IH]; intros H.
  - simpl. reflexivity.
  - rewrite not_elem_of_cons in H. destruct H as [Hc Ha].
    simpl. rewrite (proj2 (N.eqb_neq c comma)) by congruence.
    now rewrite IH.
Qed.

Lemma split_comma_parts (s : jsstring) : Forall (fun t => comma ∉ t) (split_comma s).
Proof.
  induction s as [|c s IH]; simpl.
  - repeat constructor. apply not_elem_of_nil.
  - destruct (N.eqb_spec c comma) as [->|Hc].
    + constructor; [apply not_elem_of_nil|assumption].
    + destruct (split_comma s) as [|h t]; [repeat constructor|].
      * rewrite elem_of_cons. intros [?|H]; [congruence|]. now apply not_elem_of_nil in H.
      * inversion IH; subst. constructor; [|assumption].
        rewrite elem_of_cons. intros [?|?]; [congruence|contradiction].
Qed.

Lemma trim_no_comma (t : jsstring) : comma ∉ t -> comma ∉ trim t.
Proof.
  intros H Hin. apply H.
  destruct (trim_spec t) as (ws1 & ws2 & Ht & _).
  rewrite Ht, !elem_of_app. tauto.
Qed.

Lemma all_space_no_comma (ws : jsstring) : all_space ws -> comma ∉ ws.
Proof.
  intros H Hin. unfold all_space in H. rewrite list.Forall_forall in H.
  specialize (H comma Hin). discriminate.
Qed.

Lemma saved_tags_clean (s : jsstring) : Forall clean_tag (saved_tags s).
Proof.
  unfold saved_tags. apply list.Forall_forall. intros t Ht.
  apply list_elem_of_filter in Ht as [Hne Ht].
  apply list_elem_of_fmap in Ht as (t0 & -> & Ht0).
  pose proof (split_comma_parts s) as Hparts. rewrite list.Forall_forall in Hparts.
  split; [exact Hne|]. split; [apply trim_no_comma; now apply Hparts|].
  apply trim_idempotent.
Qed.

(** Reading back the tags that the editor shows. *)
Lemma split_join_tags (l : list jsstring) :
  Forall clean_tag l -> l <> [] ->
  forall pre, all_space pre ->
    trim <$> split_comma (pre ++ join (u ", ") l) = l.
Proof.
  induction 1 as [|x l (Hne & Hc & Htrim) Hl IH]; intros Hnil pre Hpre; [contradiction|].
  destruct l as [|y l].
  - simpl join. rewrite split_comma_no_comma.
    + simpl. now rewrite trim_all_space_l, Htrim.
    + rewrite elem_of_app. intros [H|H]; [now apply all_space_no_comma in H|contradiction].
  - change (join (u ", ") (x :: y :: l))
      with (x ++ comma :: ([32%N] ++ join (u ", ") (y :: l))).
    rewrite (assoc_L (++)), split_comma_app.
    + rewrite fmap_cons, trim_all_space_l, Htrim by assumption. f_equal.
      apply IH; [discriminate|repeat constructor].
    + rewrite elem_of_app. intros [H|H]; [now apply all_space_no_comma in H|contradiction].
Qed.

Lemma saved_tags_join (l : list jsstring) :
  Forall clean_tag l -> saved_tags (join (u ", ") l) = l.
Proof.
  intros Hl. unfold saved_tags. destruct l as [|x l]; [reflexivity|].
  pose proof (split_join_tags (x :: l) Hl ltac:(discriminate) [] ltac:(constructor)) as H.
  change ([] ++ ?t) with t in H. rewrite H.
  clear H. induction Hl as [|t l' (Hne & _) _ IH]; [reflexivity|].
  rewrite filter_cons_True by assumption. now rewrite IH.
Qed.

(** X14: whatever is typed in the editor, [save] gives every project
    carrying the id a title that is not empty and tags that are not empty,
    hold no comma and have no white space at either end; it stores the
    description as typed, keeps the id, the image and the board, and says
    "Saved". *)
Theorem save_cleans_title_and_tags (projectId : jsstring) (form : EditorForm)
    (d : Workspace) (i : nat) (p : Project) :
  projects d !! i = Some p -> proj_id p = projectId ->
  (save projectId form d).2 = [u "Saved"]
  /\ exists p', projects (save projectId form d).1 !! i = Some p'
       /\ proj_title p' <> [] /\ trim (proj_title p') = proj_title p'
       /\ Forall clean_tag (tags p')
       /\ description p' = ed_description form
       /\ proj_id p' = proj_id p /\ image p' = image p /\ board p' = board p.
Proof.
  intros Hi Hid. split; [reflexivity|].
  unfold save, updateProject. simpl. rewrite list_lookup_fmap, Hi. simpl.
  eexists. split; [reflexivity|]. rewrite decide_True by assumption. simpl.
  unfold saved_title.
  destruct (decide (trim (ed_title form) = [])) as [E|E].
  - split; [discriminate|]. split; [vm_compute; reflexivity|].
    split; [apply saved_tags_clean|]. repeat split.
  - split; [exact E|]. split; [apply trim_idempotent|].
    split; [apply saved_tags_clean|]. repeat split.
Qed.

Lemma save_cleans_title_and_tags_witness :
  let form := mkEditor (u "  ") (u "text") (u " a, ,b ,, c d ") in
  (save (u "proj_1") form (sampleSeed 0)).2 = [u "Saved"]
  /\ exists p', projects (save (u "proj_1") form (sampleSeed 0)).1 !! 0%nat = Some p'
       /\ proj_title p' <> [] /\ trim (proj_title p') = proj_title p'
       /\ Forall clean_tag (tags p')
       /\ description p' = ed_description form
       /\ proj_id p' = u "proj_1" /\ image p' = None /\ board p' = seed_board.
Proof.
  apply (save_cleans_title_and_tags (u "proj_1")
           (mkEditor (u "  ") (u "text") (u " a, ,b ,, c d ")) (sampleSeed 0) 0
           (mkProject (u "proj_1") (u "Website Redesign")
              (u "A modern responsive redesign for marketing site. Use components, accessibility, and performance improvements.")
              None [u "frontend"; u "react"; u "design"] seed_board)).
  - reflexivity.
  - reflexivity.
Defined.

(** X15: opening the editor on a project and saving at once leaves the
    project as it was, when its title is not empty and has no white space at
    either end and its tags are not empty, hold no comma and have no white
    space at either end (as [save] leaves them). *)
Theorem save_after_open_keeps_project (d : Workspace) (i : nat) (p : Project) :
  projects d !! i = Some p ->
  proj_title p <> [] -> trim (proj_title p) = proj_title p ->
  Forall clean_tag (tags p) ->
  projects (save (proj_id p) (editor_open p) d).1 !! i = Some p.
Proof.
  intros Hi Hne Htrim Htags.
  unfold save, updateProject. simpl. rewrite list_lookup_fmap, Hi. simpl.
  rewrite decide_True by reflexivity. f_equal.
  unfold merge_project. simpl. unfold saved_title.
  rewrite Htrim, decide_False by assumption.
  rewrite saved_tags_join by assumption. now destruct p.
Qed.

Lemma save_after_open_keeps_project_witness :
  projects (save (u "proj_1")
              (editor_open (mkProject (u "proj_1") (u "Website Redesign")
                 (u "A modern responsive redesign for marketing site. Use components, accessibility, and performance improvements.")
                 None [u "frontend"; u "react"; u "design"] seed_board))
              (sampleSeed 0)).1 !! 0%nat
  = Some (mkProject (u "proj_1") (u "Website Redesign")
            (u "A modern responsive redesign for marketing site. Use components, accessibility, and performance improvements.")
            None [u "frontend"; u "react"; u "design"] seed_board).
Proof.
  apply (save_after_open_keeps_project (sampleSeed 0) 0
           (mkProject (u "proj_1") (u "Website Redesign")
              (u "A modern responsive redesign for marketing site. Use components, accessibility, and performance improvements.")
              None [u "frontend"; u "react"; u "design"] seed_board)).
  - reflexivity.
  - discriminate.
  - vm_compute. reflexivity.
  - repeat constructor; try discriminate; try (vm_compute; reflexivity);
      apply (bool_decide_eq_true_1 _); vm_compute; reflexivity.
Defined.

(** ** The compact JSON text is read back *)

Lemma compact_elems_fix (l : list jsval) :
  (fix elems (l : list jsval) : jsstring :=
     match l with
     | [] => []
     | [x] => stringify_compact x
     | x :: l' => stringify_compact x ++ ch "," :: elems l'
     end) l
  = compact_elems l.
Proof.
  induction l as [|y [|z l] IH]; [reflexivity|reflexivity|].
  transitivity (stringify_compact y ++ ch "," :: compact_elems (z :: l));
    [|reflexivity].
  rewrite <- IH. reflexivity.
Qed.

Lemma compact_members_fix (o : list (jsstring * jsval)) :
  (fix members (o : list (jsstring * jsval)) : jsstring :=
     match o with
     | [] => []
     | [(k, x)] => quote k ++ ch ":" :: stringify_compact x
     | (k, x) :: o' =>
         quote k ++ ch ":" :: stringify_compact x ++ ch "," :: members o'
     end) o
  = compact_members o.
Proof.
  induction o as [|[k y] [|[k' z] o] IH]; [reflexivity|reflexivity|].
  transitivity (quote k ++ ch ":" :: stringify_compact y
                ++ ch "," :: compact_members ((k', z) :: o)); [|reflexivity].
  rewrite <- IH. reflexivity.
Qed.

Lemma stringify_compact_JArr (l : list jsval) :
  stringify_compact (JArr l) = u "[" ++ compact_elems l ++ u "]".
Proof. rewrite <- compact_elems_fix. reflexivity. Qed.

Lemma stringify_compact_JObj (o : list (jsstring * jsval)) :
  stringify_compact (JObj o) = u "{" ++ compact_members o ++ u "}".
Proof. rewrite <- compact_members_fix. reflexivity. Qed.

Lemma stringify_compact_head (v : jsval) :
  exists c t, stringify_compact v = c :: t /\ starts_value c = true.
Proof.
  destruct v as [| [|] | n | s | l | o];
    try (eexists _, _; split; reflexivity).
  destruct (stringify_number_head n) as (c & t & E & Hc).
  exists c, t. split; [exact E|]. unfold starts_value.
  apply orb_true_iff in Hc as [Hc|Hc]; rewrite Hc;
    repeat (reflexivity || rewrite orb_true_r || rewrite orb_true_l).
Qed.

Lemma compact_elems_head (x : jsval) (l : list jsval) :
  exists c t, compact_elems (x :: l) = c :: t /\ starts_value c = true.
Proof.
  destruct (stringify_compact_head x) as (c & t & E & Hc).
  destruct l as [|y l].
  - exists c, t. split; assumption.
  - exists c, (t ++ ch "," :: compact_elems (y :: l)). split; [|assumption].
    change (compact_elems (x :: y :: l))
      with (stringify_compact x ++ ch "," :: compact_elems (y :: l)).
    now rewrite E.
Qed.

Lemma compact_members_head (kx : jsstring * jsval) (o : list (jsstring * jsval)) :
  exists t, compact_members (kx :: o) = 34%N :: t.
Proof. destruct kx as [k x]. destruct o as [|[k' y] o]; eexists; reflexivity. Qed.

Lemma parse_compact_elems (l : list jsval) :
  Forall reads_back_compact l -> l <> [] ->
  forall f rest,
    (2 + length (compact_elems l) <= f)%nat ->
    parse_elems f (compact_elems l ++ ch "]" :: rest) = Some (l, rest).
Proof.
  induction 1 as [|x l Hx Hl IH]; intros Hne f rest Hf; [contradiction|].
  destruct f as [|f]; [lia|].
  destruct l as [|y l].
  - cbn [compact_elems] in *. cbn [parse_elems].
    rewrite (Hx f) by ((split; reflexivity) || lia). reflexivity.
  - change (compact_elems (x :: y :: l))
      with (stringify_compact x ++ ch "," :: compact_elems (y :: l)) in *.
    rewrite length_app, length_cons in Hf.
    rewrite <- (assoc_L (++)). cbn [parse_elems].
    rewrite (Hx f) by ((split; reflexivity) || lia).
    change ((ch "," :: compact_elems (y :: l)) ++ ch "]" :: rest)
      with (ch "," :: (compact_elems (y :: l) ++ ch "]" :: rest)).
    change (skip_ws (ch "," :: ?t)) with (ch "," :: t).
    cbv iota. change (ch "," =? ch ",")%N with true. cbv iota.
    rewrite (IH ltac:(discriminate) f rest) by lia. reflexivity.
Qed.

Lemma parse_compact_members (o : list (jsstring * jsval)) :
  Forall (fun kv => reads_back_compact kv.2) o -> o <> [] ->
  forall f rest,
    (2 + length (compact_members o) <= f)%nat ->
    parse_members f (compact_members o ++ ch "}" :: rest) = Some (o, rest).
Proof.
  induction 1 as [|[k x] o Hx Ho IH]; intros Hne f rest Hf; [contradiction|].
  destruct f as [|f]; [lia|]. simpl in Hx.
  assert (Hkey : forall t,
    parse_members (S f) (quote k ++ ch ":" :: t)
    = match parse_value f t with
      | Some (v, r3) =>
          match skip_ws r3 with
          | c :: r4 =>
              if (c =? ch ",")%N then
                match parse_members f r4 with
                | Some (ms, r5) => Some ((k, v) :: ms, r5)
                | None => None
                end
              else if (c =? ch "}")%N then Some ([(k, v)], r4)
              else None
          | [] => None
          end
      | None => None
      end).
  { intros t. unfold quote. cbn [parse_members].
    change (skip_ws ((34%N :: quote_chars k ++ [34%N]) ++ ch ":" :: t))
      with (34%N :: (quote_chars k ++ [34%N]) ++ ch ":" :: t).
    cbv iota. change (34 =? 34)%N with true. cbv iota.
    rewrite <- (assoc_L (++)).
    change ([34%N] ++ ch ":" :: t) with (34%N :: ch ":" :: t).
    rewrite unquote_quote. reflexivity. }
  destruct o as [|[k' y] o].
  - cbn [compact_members] in *. rewrite length_app, length_cons in Hf.
    rewrite <- (assoc_L (++)).
    change ((ch ":" :: stringify_compact x) ++ ch "}" :: rest)
      with (ch ":" :: (stringify_compact x ++ ch "}" :: rest)).
    rewrite Hkey. rewrite (Hx f) by ((split; reflexivity) || lia). reflexivity.
  - change (compact_members ((k, x) :: (k', y) :: o))
      with (quote k ++ ch ":" :: stringify_compact x
            ++ ch "," :: compact_members ((k', y) :: o)) in *.
    rewrite length_app, length_cons, length_app, length_cons in Hf.
    rewrite <- (assoc_L (++)).
    change ((ch ":" :: stringify_compact x ++ ch "," :: compact_members ((k', y) :: o))
            ++ ch "}" :: rest)
      with (ch ":" :: ((stringify_compact x
              ++ ch "," :: compact_members ((k', y) :: o)) ++ ch "}" :: rest)).
    rewrite <- (assoc_L (++) (stringify_compact x)).
    change ((ch "," :: compact_members ((k', y) :: o)) ++ ch "}" :: rest)
      with (ch "," :: (compact_members ((k', y) :: o) ++ ch "}" :: rest)).
    rewrite Hkey. rewrite (Hx f) by ((split; reflexivity) || lia).
    change (skip_ws (ch "," :: ?t)) with (ch "," :: t).
    cbv iota. change (ch "," =? ch ",")%N with true. cbv iota.
    rewrite (IH ltac:(discriminate) f rest) by lia. reflexivity.
Qed.

Lemma parse_stringify_compact (v : jsval) : wf_js v -> reads_back_compact v.
Proof.
  induction v as [| b | n | s | l IH | o IH] using jsval_nested_ind;
    intros Hwf fuel rest Hrest Hfuel;
    (destruct fuel as [|f]; [lia|]).
  - reflexivity.
  - destruct b; reflexivity.
  - cbn [stringify_compact] in *.
    destruct (stringify_number_head n) as (c & t & E & Hc).
    rewrite E at 1. change ((c :: t) ++ rest) with (c :: (t ++ rest)).
    rewrite parse_value_number by assumption.
    change (c :: (t ++ rest)) with ((c :: t) ++ rest).
    rewrite <- E, parse_stringify_number by assumption. reflexivity.
  - cbn [stringify_compact parse_value]. unfold quote.
    change (skip_ws ((34%N :: quote_chars s ++ [34%N]) ++ rest))
      with (34%N :: (quote_chars s ++ [34%N]) ++ rest).
    cbv iota. change (34 =? 34)%N with true. cbv iota.
    rewrite <- (assoc_L (++)). change ([34%N] ++ rest) with (34%N :: rest).
    now rewrite unquote_quote.
  - destruct l as [|x l]; [reflexivity|].
    inversion Hwf as [| | | |? Hl|]; subst.
    rewrite stringify_compact_JArr in *.
    rewrite !length_app in Hfuel. change (length (u "[")) with 1%nat in Hfuel.
    change (length (u "]")) with 1%nat in Hfuel.
    rewrite <- !(assoc_L (++)).
    change (u "[" ++ ?t) with (ch "[" :: t).
    destruct (compact_elems_head x l) as (c & t & E & Hc).
    rewrite (parse_value_array f _ c (t ++ u "]" ++ rest)).
    + change (u "]" ++ rest) with (ch "]" :: rest).
      rewrite parse_compact_elems; [reflexivity| |discriminate|lia].
      apply list.Forall_forall. intros y Hy.
      rewrite list.Forall_forall in IH, Hl. apply IH; [assumption|now apply Hl].
    + rewrite E. apply skip_ws_cons. now apply starts_value_not_ws.
    + now apply starts_value_not_closing.
  - destruct o as [|kx o]; [reflexivity|].
    inversion Hwf as [| | | | |? Hnd Ho]; subst.
    rewrite stringify_compact_JObj in *.
    rewrite !length_app in Hfuel. change (length (u "{")) with 1%nat in Hfuel.
    change (length (u "}")) with 1%nat in Hfuel.
    rewrite <- !(assoc_L (++)).
    change (u "{" ++ ?t) with (ch "{" :: t).
    destruct (compact_members_head kx o) as (t & E).
    rewrite (parse_value_object f _ 34%N (t ++ u "}" ++ rest)).
    + change (u "}" ++ rest) with (ch "}" :: rest).
      rewrite parse_compact_members;
        [now rewrite obj_of_members_NoDup| |discriminate|lia].
      apply list.Forall_forall. intros y Hy.
      rewrite list.Forall_forall in IH, Ho. apply IH; [assumption|now apply Ho].
    + now rewrite E.
    + discriminate.
Qed.

Lemma JSON_parse_stringify_compact (v : jsval) :
  wf_js v -> JSON_parse (stringify_compact v) = Some v.
Proof.
  intros Hwf. unfold JSON_parse.
  pose proof (parse_stringify_compact v Hwf (S (length (stringify_compact v))) []
                I ltac:(lia)) as H.
  rewrite (right_id_L [] (++)) in H. rewrite H. reflexivity.
Qed.

(** ** Persistence *)

Lemma stringify_compact_nonempty (v : jsval) : stringify_compact v <> [].
Proof. destruct (stringify_compact_head v) as (c & t & E & _). now rewrite E. Qed.

Lemma loadData_saveData (v : jsval) (st : Storage) :
  wf_js v -> accepts st (stringify_compact v) = true ->
  saveData v st
  = (mkStorage (<[STORAGE_KEY := stringify_compact v]> (items st)) (accepts st), 0%nat)
  /\ loadData (saveData v st).1 = (v, 0%nat).
Proof.
  intros Hwf Hacc. unfold saveData, setItem. rewrite Hacc. split; [reflexivity|].
  unfold loadData, getItem. simpl. rewrite lookup_insert_eq.
  rewrite decide_False by apply stringify_compact_nonempty.
  now rewrite JSON_parse_stringify_compact.
Qed.

(** X16: what [saveData] stores, [loadData] returns: after a save that the
    store accepts, the value loaded is the value saved, nothing is logged,
    the other keys of the store are untouched, and the application starts
    from a saved workspace and not from the sample. *)
Theorem loadData_after_saveData (v : jsval) (st : Storage) :
  wf_js v -> accepts st (stringify_compact v) = true ->
  (saveData v st).2 = 0%nat
  /\ loadData (saveData v st).1 = (v, 0%nat)
  /\ (forall key, key <> STORAGE_KEY ->
        getItem key (saveData v st).1 = getItem key st)
  /\ (forall d now, v = js_of_workspace d ->
        initial_data (saveData v st).1 now = js_of_workspace d).
Proof.
  intros Hwf Hacc. destruct (loadData_saveData v st Hwf Hacc) as [Hs Hl].
  split; [now rewrite Hs|]. split; [exact Hl|]. split.
  - intros key Hkey. rewrite Hs. unfold getItem. simpl.
    now rewrite lookup_insert_ne.
  - intros d now ->. unfold initial_data. rewrite Hl. reflexivity.
Qed.

Lemma loadData_after_saveData_witness :
  let st := mkStorage ∅ (fun _ => true) in
  let v := js_of_workspace (sampleSeed 0) in
  (saveData v st).2 = 0%nat
  /\ loadData (saveData v st).1 = (v, 0%nat)
  /\ (forall key, key <> STORAGE_KEY ->
        getItem key (saveData v st).1 = getItem key st)
  /\ (forall d now, v = js_of_workspace d ->
        initial_data (saveData v st).1 now = js_of_workspace d).
Proof.
  apply (loadData_after_saveData (js_of_workspace (sampleSeed 0))
           (mkStorage ∅ (fun _ => true))).
  - apply wf_js_workspace.
  - reflexivity.
Defined.

(** X17: a save that the store refuses changes nothing: the error is logged,
    the store is as before, and the value saved last is still the one
    loaded. *)
Theorem saveData_refused_keeps_last (v v' : jsval) (st : Storage) :
  wf_js v -> accepts st (stringify_compact v) = true ->
  accepts st (stringify_compact v') = false ->
  saveData v' (saveData v st).1 = ((saveData v st).1, 1%nat)
  /\ loadData (saveData v' (saveData v st).1).1 = (v, 0%nat).
Proof.
  intros Hwf Hacc Hrej. destruct (loadData_saveData v st Hwf Hacc) as [Hs Hl].
  assert (E : saveData v' (saveData v st).1 = ((saveData v st).1, 1%nat)).
  { rewrite Hs. unfold saveData at 1, setItem. simpl. now rewrite Hrej. }
  split; [exact E|]. rewrite E. exact Hl.
Qed.

Lemma saveData_refused_keeps_last_witness :
  let st := mkStorage ∅ (fun t => bool_decide (length t < 10)%nat) in
  saveData (JStr (u "long text")) (saveData (JNum 7) st).1
  = ((saveData (JNum 7) st).1, 1%nat)
  /\ loadData (saveData (JStr (u "long text")) (saveData (JNum 7) st).1).1
     = (JNum 7, 0%nat).
Proof.
  apply (saveData_refused_keeps_last (JNum 7) (JStr (u "long text"))
           (mkStorage ∅ (fun t => bool_decide (length t < 10)%nat))).
  - constructor.
  - vm_compute. reflexivity.
  - vm_compute. reflexivity.
Defined.


(** ** Drag and drop *)

Lemma JSON_parse_onDragStart (cardId fromColId : jsstring) :
  JSON_parse (onDragStart cardId fromColId)
  = Some (JObj [ (u "cardId", JStr cardId); (u "fromColId", JStr fromColId) ]).
Proof.
  apply JSON_parse_stringify_compact. constructor.
  - apply (bool_decide_eq_true_1 _). vm_compute. reflexivity.
  - repeat (apply List.Forall_cons || apply List.Forall_nil); constructor.
Qed.

Lemma onDropCard_onDragStart (pid cardId fromColId toColId : jsstring)
    (d : Workspace) :
  Exists (fun p => proj_id p = pid) (projects d) ->
  onDropCard (Some pid) (onDragStart cardId fromColId) toColId d
  = if decide (fromColId = toColId) then DropIgnored
    else DropMoved (moveCard pid fromColId toColId cardId 0 d).
Proof.
  intros Hex. unfold onDropCard. rewrite JSON_parse_onDragStart.
  unfold has_project. rewrite bool_decide_eq_true_2 by assumption.
  reflexivity.
Qed.

(** X19: a drop reads back what the drag wrote.  With a selected project
    that exists, dropping on the column the card came from does nothing, and
    dropping on another column is [moveCard] to index 0 of that column with
    the card and column ids given to [onDragStart]; with no selected
    project, or one that does not exist, the drop does nothing. *)
Theorem onDropCard_reads_onDragStart (pid cardId fromColId toColId : jsstring)
    (d : Workspace) :
  (Exists (fun p => proj_id p = pid) (projects d) ->
   onDropCard (Some pid) (onDragStart cardId fromColId) fromColId d = DropIgnored
   /\ (fromColId <> toColId ->
       onDropCard (Some pid) (onDragStart cardId fromColId) toColId d
       = DropMoved (moveCard pid fromColId toColId cardId 0 d)))
  /\ (no_project pid d ->
      onDropCard (Some pid) (onDragStart cardId fromColId) toColId d = DropIgnored)
  /\ onDropCard None (onDragStart cardId fromColId) toColId d = DropIgnored.
Proof.
  split; [|split].
  - intros Hex. split.
    + rewrite onDropCard_onDragStart by assumption. now rewrite decide_True.
    + intros Hne. rewrite onDropCard_onDragStart by assumption.
      now rewrite decide_False.
  - intros Hno. unfold onDropCard. rewrite JSON_parse_onDragStart.
    unfold has_project. rewrite bool_decide_eq_false_2; [reflexivity|].
    unfold no_project in Hno. rewrite list.Exists_exists.
    rewrite list.Forall_forall in Hno. intros (p & Hp & E). now apply (Hno p).
  - unfold onDropCard. now rewrite JSON_parse_onDragStart.
Qed.

(** ** The invariant under the operations of the interface *)

Lemma columns_named_absent (k : jsstring) (cols : list Column) :
  k ∉ col_id <$> cols -> columns_named k cols = [].
Proof.
  intros Hk. unfold columns_named. induction cols as [|c cols IH]; [reflexivity|].
  rewrite fmap_cons, not_elem_of_cons in Hk. destruct Hk as [Hc Hk].
  rewrite filter_cons_False by congruence. now apply IH.
Qed.

Lemma columns_named_distinct (k : jsstring) (cols : list Column) :
  NoDup (col_id <$> cols) -> k ∈ col_id <$> cols ->
  length (columns_named k cols) = 1%nat.
Proof.
  unfold columns_named. induction cols as [|c cols IH]; intros Hnd Hk.
  - now apply elem_of_nil in Hk.
  - rewrite fmap_cons in Hnd, Hk. apply list.NoDup_cons in Hnd as [Hc Hnd].
    destruct (decide (col_id c = k)) as [E|E].
    + rewrite filter_cons_True by assumption. subst k.
      pose proof (columns_named_absent _ _ Hc) as H. unfold columns_named in H.
      now rewrite H.
    + rewrite filter_cons_False by assumption. apply IH; [assumption|].
      apply elem_of_cons in Hk as [Hk|Hk]; [congruence|assumption].
Qed.

Lemma col_ids_moveCard_board fromColId toColId cardId toIndex b :
  col_id <$> columns (moveCard_board fromColId toColId cardId toIndex b)
  = col_id <$> columns b.
Proof.
  unfold moveCard_board. cbn [columns].
  rewrite <- list_fmap_compose. apply list_fmap_ext.
  intros i c _. apply col_id_moveCard_column.
Qed.

Lemma col_ids_addCard_board columnId cardId card b :
  col_id <$> columns (addCard_board columnId cardId card b)
  = col_id <$> columns b.
Proof.
  unfold addCard_board. cbn [columns].
  rewrite <- list_fmap_compose. apply list_fmap_ext.
  intros i c _. apply col_id_addCard_column.
Qed.

Lemma moveCard_distinct_columns pid fromColId toColId cardId toIndex d :
  ws_distinct_columns d ->
  ws_distinct_columns (moveCard pid fromColId toColId cardId toIndex d).
Proof.
  unfold ws_distinct_columns, moveCard. cbn [projects]. intros H.
  rewrite Forall_fmap. eapply list.Forall_impl; [exact H|].
  intros p Hp. unfold compose, moveCard_project.
  destruct (decide _); [exact Hp|]. unfold distinct_columns, with_board.
  cbn [board]. now rewrite col_ids_moveCard_board.
Qed.

Lemma addCard_distinct_columns rand pid columnId card n d :
  ws_distinct_columns d ->
  ws_distinct_columns (addCard rand pid columnId card n d).1.
Proof.
  unfold ws_distinct_columns. intros H.
  apply Forall_lookup. intros i p' Hi.
  destruct (projects d !! i) as [p|] eqn:Ep.
  - rewrite (addCard_lookup _ _ _ _ _ _ _ _ Ep) in Hi. injection Hi as <-.
    rewrite Forall_lookup in H. specialize (H i p Ep).
    unfold addCard_project. destruct (decide _); [exact H|].
    unfold distinct_columns, with_board. cbn [fst board].
    now rewrite col_ids_addCard_board.
  - apply lookup_ge_None in Ep. apply lookup_lt_Some in Hi.
    unfold addCard in Hi. 
    pose proof (map_draw_length (addCard_project rand pid columnId card) (projects d) n) as L.
    destruct (map_draw _ n (projects d)) as [ps n']. cbn [fst projects] in *. lia.
Qed.

Lemma shown_moveCard_ok (fromColId toColId cardId : jsstring) (b : Board) :
  board_inv b -> distinct_columns b ->
  shown_in fromColId cardId b -> has_column toColId b ->
  fromColId <> toColId ->
  moveCard_ok fromColId toColId cardId b.
Proof.
  intros [Hone Hkeys] Hnd Hshown Hto Hne.
  apply list.Exists_exists in Hshown as (c0 & Hc0 & Hid0 & Hx0).
  assert (Hkey : is_Some (cards b !! cardId))
    by (eapply column_ids_have_cards_elem; eassumption).
  split; [exact Hne|]. split; [exact Hkey|]. split.
  - apply list.Forall_forall. intros c Hc Hx.
    destruct Hkey as [v Hv].
    pose proof (map_Forall_lookup_1 _ _ _ _ Hone Hv) as Hlen. simpl in Hlen.
    now rewrite (holding_unique cardId (columns b) c0 c Hlen Hc0 Hx0 Hc Hx).
  - now apply columns_named_distinct.
Qed.

Lemma moveCard_shows (fromColId toColId cardId : jsstring) (toIndex : Z) (b : Board) :
  has_column toColId b -> fromColId <> toColId ->
  shown_in toColId cardId (moveCard_board fromColId toColId cardId toIndex b)
  /\ ~ shown_in fromColId cardId (moveCard_board fromColId toColId cardId toIndex b).
Proof.
  intros Hto Hne. unfold shown_in, moveCard_board. cbn [columns]. split.
  - apply list_elem_of_fmap in Hto as (c & Hid & Hc).
    apply list.Exists_exists.
    exists (moveCard_column fromColId toColId cardId toIndex c).
    split; [now apply list_elem_of_fmap_2|].
    rewrite col_id_moveCard_column. split; [now symmetry|].
    apply elem_of_moveCard_column.
    rewrite decide_False by congruence. rewrite decide_True by congruence.
    now left.
  - rewrite list.Exists_exists. intros (c' & Hc' & Hid & Hx).
    apply list_elem_of_fmap in Hc' as (c & -> & Hc).
    rewrite col_id_moveCard_column in Hid.
    apply elem_of_moveCard_column in Hx.
    rewrite decide_True in Hx by assumption. tauto.
Qed.

(** X20: dropping a dragged card keeps the invariant.  When the workspace
    satisfies the board invariant, no board has two columns with the same
    id, the selected project exists and shows the card in the column it is
    dragged from and has the column it is dropped on, the drop either does
    nothing (same column) or gives a workspace that satisfies the invariant
    again, still has distinct column ids, and shows the card in the target
    column and no longer in the source column. *)
Theorem onDropCard_keeps_invariant (pid cardId fromColId toColId : jsstring)
    (d : Workspace) :
  ws_inv d -> ws_distinct_columns d ->
  Exists (fun p => proj_id p = pid) (projects d) ->
  drop_ready pid cardId fromColId toColId d ->
  (fromColId = toColId
   /\ onDropCard (Some pid) (onDragStart cardId fromColId) toColId d = DropIgnored)
  \/ (exists d',
        onDropCard (Some pid) (onDragStart cardId fromColId) toColId d = DropMoved d'
        /\ ws_inv d' /\ ws_distinct_columns d'
        /\ Forall (fun p' => proj_id p' = pid ->
                     shown_in toColId cardId (board p')
                     /\ ~ shown_in fromColId cardId (board p'))
                  (projects d')).
Proof.
  intros Hinv Hnd Hex Hready. rewrite onDropCard_onDragStart by assumption.
  destruct (decide (fromColId = toColId)) as [E|E]; [left; now split|right].
  eexists. split; [reflexivity|].
  unfold ws_inv, ws_distinct_columns, drop_ready in *.
  rewrite list.Forall_forall in Hinv, Hnd, Hready.
  split; [|split].
  - apply (step_inv (fun _ => []) (d, 0%nat)
             (MoveCard pid fromColId toColId cardId 0)); [exact (proj2 (list.Forall_forall _ _) Hinv)|].
    cbn [op_ok fst]. apply list.Forall_forall. intros p Hp Hid.
    destruct (Hready p Hp Hid) as [Hs Ht].
    apply shown_moveCard_ok; auto.
  - apply moveCard_distinct_columns. now apply list.Forall_forall.
  - unfold moveCard. cbn [projects]. rewrite Forall_fmap.
    apply list.Forall_forall. intros p Hp. unfold compose, moveCard_project.
    destruct (decide (proj_id p <> pid)) as [Hd|Hd]; [intros; contradiction|].
    unfold with_board. cbn [proj_id board]. intros Hid.
    destruct (Hready p Hp Hid) as [Hs Ht].
    now apply moveCard_shows.
Qed.

Lemma onDropCard_keeps_invariant_witness :
  (u "todo" = u "done"
   /\ onDropCard (Some (u "proj_1")) (onDragStart (u "c2") (u "todo")) (u "done")
        (sampleSeed 0) = DropIgnored)
  \/ (exists d',
        onDropCard (Some (u "proj_1")) (onDragStart (u "c2") (u "todo")) (u "done")
          (sampleSeed 0) = DropMoved d'
        /\ ws_inv d' /\ ws_distinct_columns d'
        /\ Forall (fun p' => proj_id p' = u "proj_1" ->
                     shown_in (u "done") (u "c2") (board p')
                     /\ ~ shown_in (u "todo") (u "c2") (board p'))
                  (projects d')).
Proof.
  apply (onDropCard_keeps_invariant (u "proj_1") (u "c2") (u "todo") (u "done")
           (sampleSeed 0)).
  - apply (bool_decide_eq_true_1 _). vm_compute. reflexivity.
  - apply (bool_decide_eq_true_1 _). vm_compute. reflexivity.
  - apply (bool_decide_eq_true_1 _). vm_compute. reflexivity.
  - unfold drop_ready, shown_in, has_column.
    apply (bool_decide_eq_true_1 _). vm_compute. reflexivity.
Defined.

Lemma addCard_pre_lookup (rand : oracle) (pid colId : jsstring) (ps : list Project) :
  forall n,
  (forall i p, ps !! i = Some p -> proj_id p = pid ->
     addCard_ok colId (uid (u "c") (rand (n + draws_before pid ps i)%nat)) (board p)) ->
  addCard_pre rand pid colId n ps.
Proof.
  induction ps as [|p ps IH]; intros n H; [exact I|].
  cbn [addCard_pre]. destruct (decide (proj_id p <> pid)) as [Hd|Hd].
  - apply IH. intros i q Hi Hq. specialize (H (S i) q Hi Hq).
    unfold draws_before in *. rewrite firstn_cons in H.
    rewrite filter_cons_False in H by assumption. exact H.
  - assert (Hid : proj_id p = pid) by (destruct (decide (proj_id p = pid)); tauto).
    split.
    + specialize (H 0%nat p eq_refl Hid). unfold draws_before in H.
      cbn [take filter length] in H. now rewrite Nat.add_0_r in H.
    + apply IH. intros i q Hi Hq. specialize (H (S i) q Hi Hq).
      unfold draws_before in *. rewrite firstn_cons in H.
      rewrite filter_cons_True in H by assumption. cbn [length] in H.
      now rewrite Nat.add_succ_r in H.
Qed.

(** X21: adding a card from the form keeps the invariant.  When the
    workspace satisfies the board invariant, no board has two columns with
    the same id, and every project carrying the id has the column and does
    not yet use the id that will be generated for it, the workspace after
    [handleAdd] satisfies the invariant and still has distinct column ids,
    whatever was typed in the form. *)
Theorem handleAdd_keeps_invariant (rand : oracle) (pid colId : jsstring)
    (form : AddForm) (n : nat) (d : Workspace) :
  ws_inv d -> ws_distinct_columns d -> add_ready rand pid colId n d ->
  ws_inv (handleAdd rand pid colId form n d).1.1.1
  /\ ws_distinct_columns (handleAdd rand pid colId form n d).1.1.1.
Proof.
  intros Hinv Hnd Hready. unfold handleAdd.
  destruct (decide (trim (newCardTitle form) = [])) as [E|E]; [now split|].
  cbn [fst]. split.
  - apply (step_inv rand (d, n)
             (AddCard pid colId (new_card (trim (newCardTitle form)) (newCardBody form))));
      [exact Hinv|].
    cbn [op_ok fst snd]. apply addCard_pre_lookup. intros i p Hi Hid.
    destruct (Hready i p Hi Hid) as [Hcol Hfresh].
    split; [exact Hfresh|]. apply columns_named_distinct; [|exact Hcol].
    unfold ws_distinct_columns in Hnd. rewrite Forall_lookup in Hnd.
    exact (Hnd i p Hi).
  - now apply addCard_distinct_columns.
Qed.

Lemma handleAdd_keeps_invariant_witness :
  ws_inv (handleAdd const_oracle (u "proj_1") (u "done")
            (mkForm (u " Ship it ") (u "text")) 0 (sampleSeed 0)).1.1.1
  /\ ws_distinct_columns
       (handleAdd const_oracle (u "proj_1") (u "done")
          (mkForm (u " Ship it ") (u "text")) 0 (sampleSeed 0)).1.1.1.
Proof.
  apply (handleAdd_keeps_invariant const_oracle (u "proj_1") (u "done")
           (mkForm (u " Ship it ") (u "text")) 0 (sampleSeed 0)).
  - apply (bool_decide_eq_true_1 _). vm_compute. reflexivity.
  - apply (bool_decide_eq_true_1 _). vm_compute. reflexivity.
  - intros i p Hi Hid. destruct i as [|i]; [|discriminate Hi].
    injection Hi as <-. unfold has_column. split.
    + apply (bool_decide_eq_true_1 _). vm_compute. reflexivity.
    + vm_compute. reflexivity.
Defined.

(** ** Text without markup is rendered as it is *)

Lemma star_loop_fails (greedy : bool)
    (body : mstate -> (mstate -> option mstate) -> option mstate) :
  (forall x k, (forall y, rest y `suffix_of` rest x -> k y = None) -> body x k = None) ->
  forall n x k, (forall y, rest y `suffix_of` rest x -> k y = None) ->
    star_loop greedy body n x k = None.
Proof.
  intros Hbody. induction n as [|n IH]; intros x k Hk.
  - apply Hk. reflexivity.
  - cbn [star_loop].
    rewrite (Hbody x).
    + rewrite (Hk x) by reflexivity. now destruct greedy.
    + intros y Hy. destruct (pos y =? pos x)%nat; [reflexivity|].
      apply IH. intros z Hz. apply Hk. now transitivity (rest y).
Qed.

(** A match attempt fails when its continuation fails on every state that
    it can be called with. *)
Lemma matcher_fails (r : regex) : forall x k,
  (forall y, rest y `suffix_of` rest x -> k y = None) -> matcher r x k = None.
Proof.
  induction r as [c|p|r1 IH1 r2 IH2|r1 IH1 r2 IH2|g r1 IH1|i r1 IH1| |];
    intros x k Hk; cbn [matcher].
  - destruct (rest x) as [|h t] eqn:E; [reflexivity|].
    destruct (h =? c)%N; [|reflexivity]. apply Hk. cbn [advance rest].
    apply suffix_cons_r. reflexivity.
  - destruct (rest x) as [|h t] eqn:E; [reflexivity|].
    destruct (p h); [|reflexivity]. apply Hk. cbn [advance rest].
    apply suffix_cons_r. reflexivity.
  - apply IH1. intros y Hy. apply IH2. intros z Hz. apply Hk.
    now transitivity (rest y).
  - rewrite IH1, IH2 by assumption. reflexivity.
  - apply star_loop_fails; assumption.
  - apply IH1. intros y Hy. apply Hk. exact Hy.
  - destruct (at_line_start x); [|reflexivity]. apply Hk. reflexivity.
  - destruct (at_line_end x); [|reflexivity]. apply Hk. reflexivity.
Qed.

Lemma matcher_needs (c : N) (r : regex) : needsb c r = true ->
  forall x k, c ∉ rest x -> matcher r x k = None.
Proof.
  induction r as [c'|p|r1 IH1 r2 IH2|r1 IH1 r2 IH2|g r1 IH1|i r1 IH1| |];
    cbn [needsb]; intros Hn x k Hc; try discriminate; cbn [matcher].
  - apply N.eqb_eq in Hn. subst c'.
    destruct (rest x) as [|h t]; [reflexivity|].
    destruct (N.eqb_spec h c) as [->|]; [|reflexivity].
    exfalso. apply Hc. left.
  - apply orb_true_iff in Hn as [Hn|Hn].
    + now apply IH1.
    + apply matcher_fails. intros y Hy. apply IH2; [assumption|].
      intros Hin. apply Hc. destruct Hy as [pre ->].
      apply elem_of_app. now right.
  - apply andb_true_iff in Hn as [Hn1 Hn2].
    rewrite IH1, IH2 by assumption. reflexivity.
  - now apply IH1.
Qed.

Lemma scan_needs (c : N) (r : regex) (tmpl : list titem) (s : jsstring) :
  needsb c r = true -> c ∉ s ->
  forall before, scan id id r tmpl 0 before s = s.
Proof.
  intros Hn. induction s as [|h s IH]; intros Hc before.
  - cbn [scan]. unfold match_at. now rewrite (matcher_needs c r Hn).
  - cbn [scan]. unfold match_at. rewrite list_fmap_id.
    rewrite (matcher_needs c r Hn) by exact Hc.
    rewrite IH; [reflexivity|]. intros Hin. apply Hc. now right.
Qed.

Lemma replace_all_needs (c : N) (r : regex) (tmpl : list titem) (s : jsstring) :
  needsb c r = true -> c ∉ s -> replace_all id id r tmpl s = s.
Proof. intros Hn Hc. unfold replace_all. now apply (scan_needs c). Qed.

(** X22: a text that is not empty and has none of the characters
    [& < > ` # * [ -] and no line feed is rendered as it is, between the
    opening and the closing tags of the wrapper. *)
Theorem renderMarkdown_plain_text (md : jsstring) :
  md <> [] -> plain md ->
  renderMarkdown md
  = open_tag "div" "prose max-w-none" ++ u "<p>" ++ md ++ u "</p></div>".
Proof.
  intros Hne Hplain.
  assert (Hc : forall c, c ∈ markdown_special -> c ∉ md).
  { intros c Hc Hin. unfold plain in Hplain. rewrite list.Forall_forall in Hplain.
    now apply (Hplain c Hin). }
  assert (H : forall c r tmpl, c ∈ markdown_special -> needsb c r = true ->
                replace_all id id r tmpl md = md).
  { intros c r tmpl Hin Hn. apply (replace_all_needs c); auto. }
  assert (Hin : forall c, bool_decide (c ∈ markdown_special) = true ->
                  c ∈ markdown_special)
    by (intros c; apply bool_decide_eq_true_1).
  unfold renderMarkdown, renderMarkdown_on.
  destruct md as [|c0 md0] eqn:Emd; [contradiction|]. rewrite <- Emd in *.
  assert (Hesc : escapeHtml id id md = md).
  { unfold escapeHtml.
    rewrite (H (ch "&")), (H (ch "<")), (H (ch ">")); auto. }
  assert (Hmark : markup id id md = md).
  { unfold markup, paragraphs, lists, links, bold_italic, headings, heading,
      inline_code, code_blocks.
    rewrite (H (ch "`") re_fence), (H (ch "`") re_inline_code),
      (H (ch "#") (re_heading "###")), (H (ch "#") (re_heading "##")),
      (H (ch "#") (re_heading "#")), (H (ch "*") re_bold), (H (ch "*") re_italic),
      (H (ch "[") re_link), (H (ch "-") re_list), (H 10%N re_paragraph); auto. }
  rewrite Hesc, Hmark. unfold wrap. rewrite !list_fmap_id.
  now rewrite <- (assoc_L (++)).
Qed.

Lemma renderMarkdown_plain_text_witness :
  renderMarkdown (u "Fix the nav bar, then ship")
  = open_tag "div" "prose max-w-none" ++ u "<p>" ++ u "Fix the nav bar, then ship"
    ++ u "</p></div>".
Proof.
  apply (renderMarkdown_plain_text (u "Fix the nav bar, then ship")).
  - discriminate.
  - unfold plain. apply (bool_decide_eq_true_1 _). vm_compute. reflexivity.
Defined.
